(** * gen-ai-exercise: the two pipelines of the repository

    Exercise 1 ([exercise1_tools_and_agents/main.py]) splits an essay into
    paragraphs, asks a language model for company records and stores them in
    a Postgres table.  Exercise 2 ([exercise2_rag_playground/src]) chunks
    documents, indexes them in a Chroma collection and answers questions in
    an interactive loop.

    The repository code is embedded as Rocq functions over explicit state;
    the third-party collaborators (the Python runtime, Postgres, the model
    chain, the text splitter, the vector store) appear either as oracles
    bound in a [Section] or as small executable models that are named as
    such. *)

From Stdlib Require Import String Ascii.
From Stdlib Require Import List NArith Arith Bool Lia.
From Stdlib Require Import Sorted Permutation.
From Equations Require Import Equations.
Import ListNotations.

(* ===================================================================== *)
(** * Python strings *)
(* ===================================================================== *)

(** A Python [str] is a sequence of Unicode code points. *)
Module PyStr.

Definition char := N.
Definition str := list char.

(** ASCII literals, for examples. *)
Fixpoint of_string (s : string) : str :=
  match s with
  | EmptyString => []
  | String a s' => N_of_ascii a :: of_string s'
  end.

Definition nl : char := 10%N.

Definition str_eqb (a b : str) : bool :=
  if list_eq_dec N.eq_dec a b then true else false.

(** [str.isspace] on one code point: the characters CPython's
    [_PyUnicode_IsWhitespace] accepts. *)
Definition isspace (c : char) : bool :=
  ((9 <=? c) && (c <=? 13)
   || (28 <=? c) && (c <=? 32)
   || (c =? 133) || (c =? 160) || (c =? 5760)
   || (8192 <=? c) && (c <=? 8202)
   || (c =? 8232) || (c =? 8233) || (c =? 8239) || (c =? 8287)
   || (c =? 12288))%N.

Fixpoint lstrip (s : str) : str :=
  match s with
  | [] => []
  | c :: s' => if isspace c then lstrip s' else s
  end.

Definition rstrip (s : str) : str := rev (lstrip (rev s)).

(** [s.strip()] *)
Definition strip (s : str) : str := rstrip (lstrip s).

(** The number of whitespace characters [s.lstrip()] removes. *)
Definition leading_space (s : str) : nat := length s - length (lstrip s).

(** [s.lower()], exact on ASCII; code points above 127 are left alone.
    No code point above 127 has [q], [u], [i] or [t] as its lower case
    (U+0130 lowers to [i] followed by U+0307), so whether [s.lower()] is
    ['quit'] or ['q'] is decided as in Python. *)
Definition lower_char (c : char) : char :=
  if ((65 <=? c) && (c <=? 90))%N then (c + 32)%N else c.

Definition lower (s : str) : str := map lower_char s.

Fixpoint startswith (p s : str) : bool :=
  match p, s with
  | [], _ => true
  | _ :: _, [] => false
  | a :: p', b :: s' => (a =? b)%N && startswith p' s'
  end.

(** [s.split(sep)] for a non-empty [sep] (Python raises [ValueError] on an
    empty one; the source only passes the constant ['\n\n']).  The scan is
    left to right and a matched separator is consumed whole. *)
Equations? split_from (sep cur s : str) : list str by wf (length s) lt :=
  split_from sep cur [] := [rev cur];
  split_from sep cur (c :: s') with startswith sep (c :: s') => {
    | true := rev cur :: split_from sep [] (skipn (length sep - 1) s');
    | false := split_from sep (c :: cur) s' }.
Proof.
  all: simpl; try lia.
  pose proof (length_skipn (length sep - 1) s'). lia.
Qed.

Definition split (sep s : str) : list str := split_from sep [] s.

(** [sep.join(parts)] *)
Fixpoint join (sep : str) (parts : list str) : str :=
  match parts with
  | [] => []
  | [p] => p
  | p :: ps => p ++ sep ++ join sep ps
  end.

Definition nonempty (s : str) : bool :=
  match s with [] => false | _ :: _ => true end.

Definition all_space (s : str) : Prop := Forall (fun c => isspace c = true) s.

(** [sep] occurs in [s] as a contiguous substring. *)
Definition occurs (sep s : str) : Prop := exists a b, s = a ++ sep ++ b.

(** No occurrence of [sep] in [pre ++ s] begins inside [pre]. *)
Definition none_begins_in (sep pre s : str) : Prop :=
  forall a b, pre = a ++ b -> b <> [] -> startswith sep (b ++ s) = false.

(** [s] neither starts nor ends with a whitespace character. *)
Definition no_edge_space (s : str) : bool :=
  match s with [] => true | c :: _ => negb (isspace c) end
  && match rev s with [] => true | c :: _ => negb (isspace c) end.

(** [laid_out ps text]: the strings [ps] occur in [text] one after the
    other, in this order, and everything before, between and after them
    is whitespace. *)
Inductive laid_out : list str -> str -> Prop :=
| laid_out_nil gap :
    all_space gap -> laid_out [] gap
| laid_out_cons gap p ps rest :
    all_space gap -> laid_out ps rest -> laid_out (p :: ps) (gap ++ p ++ rest).

(** [cut_after sep ps rest]: in [rest], the text that follows a string,
    the strings [ps] come one after the other, each after a stretch of
    whitespace that holds [sep]; whitespace alone follows the last. *)
Inductive cut_after (sep : str) : list str -> str -> Prop :=
| cut_after_end gap :
    all_space gap -> cut_after sep [] gap
| cut_after_more gap p ps rest :
    all_space gap -> occurs sep gap -> cut_after sep ps rest ->
    cut_after sep (p :: ps) (gap ++ p ++ rest).

(** [cut_at sep ps text]: [text] is [ps] laid out between whitespace, and
    the whitespace between two consecutive strings of [ps] holds [sep]:
    the text is cut at occurrences of [sep] and nowhere else. *)
Definition cut_at (sep : str) (ps : list str) (text : str) : Prop :=
  match ps with
  | [] => all_space text
  | p :: ps' =>
      exists gap rest,
        text = gap ++ p ++ rest /\ all_space gap /\ cut_after sep ps' rest
  end.

(** A string that can be a paragraph between cuts at [sep]: not empty,
    no whitespace at either end, no [sep] inside. *)
Definition trimmed_piece (sep p : str) : Prop :=
  nonempty p = true /\ no_edge_space p = true /\ ~ occurs sep p.

End PyStr.

(* ===================================================================== *)
(** * Exceptions and state *)
(* ===================================================================== *)

(** Python code that mutates a world [W] and may raise.  The state
    survives an exception, as it does in Python. *)
Module Py.

Inductive exn :=
| ValueError
| UnicodeEncodeError
| OSError
| PostgresError
| ChainError
| EmbeddingError
| EOFError.

Inductive result (A : Type) :=
| Ok (a : A)
| Raise (e : exn).
Arguments Ok {A} a.
Arguments Raise {A} e.

Definition M (W A : Type) : Type := W -> result A * W.

Definition ret {W A} (a : A) : M W A := fun w => (Ok a, w).

Definition raise {W A} (e : exn) : M W A := fun w => (Raise e, w).

Definition bind {W A B} (m : M W A) (k : A -> M W B) : M W B :=
  fun w => match m w with
           | (Ok a, w') => k a w'
           | (Raise e, w') => (Raise e, w')
           end.

(** [try: body except Exception as e: handler] *)
Definition try_except {W A} (body : M W A) (handler : exn -> M W A) : M W A :=
  fun w => match body w with
           | (Ok a, w') => (Ok a, w')
           | (Raise e, w') => handler e w'
           end.

(** [for x in xs: body x] *)
Fixpoint for_each {W X} (xs : list X) (body : X -> M W unit) : M W unit :=
  match xs with
  | [] => ret tt
  | x :: xs' => bind (body x) (fun _ => for_each xs' body)
  end.

End Py.

Notation "x <- m ;; k" := (Py.bind m (fun x => k))
  (at level 61, m at next level, right associativity).
Notation "m ;;; k" := (Py.bind m (fun _ => k))
  (at level 61, right associativity).

(* ===================================================================== *)
(** * Exercise 1: extraction and store
      ([exercise1_tools_and_agents/main.py]) *)
(* ===================================================================== *)

Module PipelineA.
Import PyStr Py.
Local Open Scope N_scope.

(** [class CompanyInfo(BaseModel)] *)
Record CompanyInfo := mkCompanyInfo {
  company_name : str;
  founding_date : str;
  founders : list str
}.

(** [class ExtractedCompanies(BaseModel)] *)
Record ExtractedCompanies := mkExtractedCompanies {
  companies : list CompanyInfo
}.

(** [datetime.date] *)
Record date := mkDate { year : N; month : N; day : N }.

Definition date_compare (a b : date) : comparison :=
  match (year a ?= year b)%N with
  | Eq => match (month a ?= month b)%N with
          | Eq => (day a ?= day b)%N
          | c => c
          end
  | c => c
  end.

Definition date_leb (a b : date) : bool :=
  match date_compare a b with Gt => false | _ => true end.

Definition date_le (a b : date) : Prop := date_leb a b = true.

(** ** A model of [datetime.strptime(s, "%Y-%m-%d").date()] on ASCII input

    The functions of the store take the parser as an argument; this
    instance serves the examples.  It follows CPython's [_strptime]: four
    digits, a month [1[0-2]|0[1-9]|[1-9]], a day
    [3[0-1]|[1-2]\d|0[1-9]|[1-9]| [1-9]], no unconverted data, and then
    the range checks of the [date] constructor. *)

Definition digit (c : char) : option N :=
  if ((48 <=? c) && (c <=? 57))%N then Some (c - 48)%N else None.

Definition in_range (lo hi c : char) : bool := ((lo <=? c) && (c <=? hi))%N.

Definition parse_year (s : str) : option (N * str) :=
  match s with
  | a :: b :: c :: d :: rest =>
      match digit a, digit b, digit c, digit d with
      | Some a, Some b, Some c, Some d =>
          Some (((a * 10 + b) * 10 + c) * 10 + d, rest)%N
      | _, _, _, _ => None
      end
  | _ => None
  end.

Definition parse_month (s : str) : option (N * str) :=
  match s with
  | a :: rest =>
      match rest with
      | b :: rest' =>
          if ((a =? 49) && in_range 48 50 b)%N then Some (10 + (b - 48), rest')%N
          else if ((a =? 48) && in_range 49 57 b)%N then Some (b - 48, rest')%N
          else if in_range 49 57 a then Some (a - 48, rest)%N
          else None
      | [] => if in_range 49 57 a then Some (a - 48, rest)%N else None
      end
  | [] => None
  end.

Definition parse_day (s : str) : option (N * str) :=
  match s with
  | a :: rest =>
      match rest with
      | b :: rest' =>
          if ((a =? 51) && in_range 48 49 b)%N then Some (30 + (b - 48), rest')%N
          else if (in_range 49 50 a && in_range 48 57 b)%N
               then Some ((a - 48) * 10 + (b - 48), rest')%N
          else if ((a =? 48) && in_range 49 57 b)%N then Some (b - 48, rest')%N
          else if in_range 49 57 a then Some (a - 48, rest)%N
          else if ((a =? 32) && in_range 49 57 b)%N then Some (b - 48, rest')%N
          else None
      | [] => if in_range 49 57 a then Some (a - 48, rest)%N else None
      end
  | [] => None
  end.

Definition expect (c : char) (s : str) : option str :=
  match s with
  | c' :: rest => if (c =? c')%N then Some rest else None
  | [] => None
  end.

Definition is_leap (y : N) : bool :=
  ((y mod 4 =? 0) && (negb (y mod 100 =? 0) || (y mod 400 =? 0)))%N.

Definition days_in_month (y m : N) : N :=
  if (m =? 2)%N then (if is_leap y then 29 else 28)%N
  else if ((m =? 4) || (m =? 6) || (m =? 9) || (m =? 11))%N then 30%N
  else 31%N.

Definition strptime_ascii (s : str) : option date :=
  match parse_year s with
  | Some (y, s1) =>
      match expect 45%N s1 with
      | Some s2 =>
          match parse_month s2 with
          | Some (m, s3) =>
              match expect 45%N s3 with
              | Some s4 =>
                  match parse_day s4 with
                  | Some (d, []) =>
                      if ((1 <=? y) && (d <=? days_in_month y m))%N
                      then Some (mkDate y m d) else None
                  | _ => None
                  end
              | None => None
              end
          | None => None
          end
      | None => None
      end
  | None => None
  end.

(** ** The Postgres side *)

(** A row of [company_details]. *)
Record StoredCompanyRow := mkRow {
  id : N;
  stored_name : str;
  founded_in : date;
  founded_by : list str
}.

(** The relation with its [SERIAL] sequence. *)
Record table := mkTable { rows : list StoredCompanyRow; next_id : N }.

(** The database as this program sees it: [company_details] exists or
    does not. *)
Definition database := option table.

(** [CREATE TABLE IF NOT EXISTS company_details (...)] *)
Definition create_table_if_not_exists (db : database) : database :=
  match db with
  | None => Some (mkTable [] 1%N)
  | Some t => Some t
  end.

(** Assignment to a [VARCHAR(n)] column: a longer value is an error unless
    the excess is all spaces, which are cut. *)
Definition varchar (n : nat) (s : str) : option str :=
  if (length s <=? n)%nat then Some s
  else if forallb (fun c => (c =? 32)%N) (skipn n s) then Some (firstn n s)
  else None.

(** A text value the driver can send: UTF-8 encodable (no surrogate) and
    free of the NUL character. *)
Definition sendable (s : str) : bool :=
  forallb (fun c => negb (c =? 0)%N && negb (in_range 55296 57343 c)
                    && (c <? 1114112)%N) s.

(** [ORDER BY founded_in].  SQL leaves the order among rows of one date
    open; the model keeps them in table order (a stable insertion sort).
    The statements about the listing use only that the result is
    ascending and holds the same rows. *)
Fixpoint insert_by_date (r : StoredCompanyRow) (l : list StoredCompanyRow)
  : list StoredCompanyRow :=
  match l with
  | [] => [r]
  | x :: l' =>
      if date_leb (founded_in r) (founded_in x)
      then r :: l
      else x :: insert_by_date r l'
  end.

Fixpoint order_by_founded_in (l : list StoredCompanyRow) : list StoredCompanyRow :=
  match l with
  | [] => []
  | r :: l' => insert_by_date r (order_by_founded_in l')
  end.

(** ** The world the coroutines run in *)

(** Calls made on the [asyncpg] driver, in program order. *)
Inductive pg_call :=
| PgConnect
| PgCreateTable
| PgInsert (name : str) (d : date) (by_whom : list str)
| PgSelectOrdered
| PgClose.

Record world := mkWorld {
  pg : database;
  (** outcome of the coming driver calls: [true] is a transport or server
      failure of that call; an exhausted list means no further failure *)
  faults : list bool;
  pg_log : list pg_call;
  (** paragraphs sent to the extraction chain, in program order *)
  llm_log : list str
}.

Definition M (A : Type) : Type := Py.M world A.

Definition log_call (c : pg_call) : M unit :=
  fun w => (Ok tt, mkWorld (pg w) (faults w) (pg_log w ++ [c]) (llm_log w)).

(** Consume the outcome of the coming driver call. *)
Definition driver_round_trip : M unit :=
  fun w => match faults w with
           | [] => (Ok tt, w)
           | f :: fs =>
               let w' := mkWorld (pg w) fs (pg_log w) (llm_log w) in
               if f then (Raise OSError, w') else (Ok tt, w')
           end.

Definition set_pg (db : database) : M unit :=
  fun w => (Ok tt, mkWorld db (faults w) (pg_log w) (llm_log w)).

Definition get_pg : M database := fun w => (Ok (pg w), w).

(** [await asyncpg.connect( **DATABASE_CONFIG )] *)
Definition connect : M unit := log_call PgConnect ;;; driver_round_trip.

(** [await conn.execute("CREATE TABLE IF NOT EXISTS ...")] *)
Definition execute_create_table : M unit :=
  log_call PgCreateTable ;;;
  driver_round_trip ;;;
  db <- get_pg ;;
  set_pg (create_table_if_not_exists db).

(** [await conn.execute("INSERT INTO company_details (...) VALUES ($1, $2, $3)", ...)] *)
Definition execute_insert (name : str) (d : date) (by_whom : list str) : M unit :=
  log_call (PgInsert name d by_whom) ;;;
  (if sendable name && forallb sendable by_whom then ret tt
   else raise UnicodeEncodeError) ;;;
  driver_round_trip ;;;
  db <- get_pg ;;
  match db with
  | None => raise PostgresError
  | Some t =>
      match varchar 255 name with
      | None =>
          (* the sequence value drawn for [id] is not given back *)
          set_pg (Some (mkTable (rows t) (next_id t + 1))) ;;;
          raise PostgresError
      | Some name' =>
          set_pg (Some (mkTable (rows t ++ [mkRow (next_id t) name' d by_whom])
                                (next_id t + 1)))
      end
  end.

(** [await conn.fetch("SELECT ... FROM company_details ORDER BY founded_in")] *)
Definition fetch_ordered : M (list StoredCompanyRow) :=
  log_call PgSelectOrdered ;;;
  driver_round_trip ;;;
  db <- get_pg ;;
  match db with
  | None => raise PostgresError
  | Some t => ret (order_by_founded_in (rows t))
  end.

(** [await conn.close()] *)
Definition close : M unit := log_call PgClose ;;; driver_round_trip.

Section Store.

(** [datetime.strptime(_, "%Y-%m-%d").date()]; [None] is [ValueError]. *)
Variable strptime : str -> option date.

Definition insert_one (company : CompanyInfo) : M unit :=
  date_obj <- match strptime (founding_date company) with
              | Some d => ret d
              | None => raise ValueError
              end ;;
  execute_insert (company_name company) date_obj (founders company).

Definition insert_companies_body (companies : list CompanyInfo) : M bool :=
  connect ;;;
  execute_create_table ;;;
  for_each companies insert_one ;;;
  close ;;;
  ret true.

(** [async def insert_companies_to_db(companies) -> bool] *)
Definition insert_companies_to_db (companies : list CompanyInfo) : M bool :=
  try_except (insert_companies_body companies) (fun _ => ret false).

End Store.

Definition get_stored_body : M (list StoredCompanyRow) :=
  connect ;;;
  rows <- fetch_ordered ;;
  close ;;;
  (* the loop copies each record into a dict with the same four keys *)
  ret (map (fun row => mkRow (id row) (stored_name row) (founded_in row)
                             (founded_by row)) rows).

(** [async def get_stored_companies() -> List[Dict]] *)
Definition get_stored_companies : M (list StoredCompanyRow) :=
  try_except get_stored_body (fun _ => ret []).

(** The schema statement of [insert_companies_to_db] executed [n] times
    in succession on one connection. *)
Definition ensure_schema_times (n : nat) : M unit :=
  for_each (repeat tt n) (fun _ => execute_create_table).

(** Rows in ascending order of [founded_in]. *)
Definition by_date (a b : StoredCompanyRow) : Prop :=
  date_le (founded_in a) (founded_in b).

Definition ascending (l : list StoredCompanyRow) : Prop := StronglySorted by_date l.

(** ** Vocabulary for the statements about the store *)

(** No coming driver call fails. *)
Definition no_fault (fs : list bool) : bool := forallb negb fs.

Definition is_connect (c : pg_call) : bool :=
  match c with PgConnect => true | _ => false end.

(** Number of connections opened according to a log. *)
Definition connects (log : list pg_call) : nat := length (filter is_connect log).

(** [l] is an initial segment of [full]. *)
Definition prefix_of (l full : list pg_call) : Prop := exists rest, full = l ++ rest.

(** Rows numbered by the sequence from [next] on. *)
Fixpoint number_rows (next : N) (values : list (str * date * list str))
  : list StoredCompanyRow :=
  match values with
  | [] => []
  | (name, d, by_whom) :: values' =>
      mkRow next name d by_whom :: number_rows (next + 1) values'
  end.

(** The values of a row without its id. *)
Definition row_values (r : StoredCompanyRow) : str * date * list str :=
  (stored_name r, founded_in r, founded_by r).

Section StoreVocabulary.

Variable strptime : str -> option date.

(** What the table keeps of a record, if the record can be stored: the
    parsed date, the name as [VARCHAR(255)] takes it, the founders as
    given. *)
Definition stored_form (c : CompanyInfo) : option (str * date * list str) :=
  match strptime (founding_date c) with
  | Some d =>
      if sendable (company_name c) && forallb sendable (founders c) then
        match varchar 255 (company_name c) with
        | Some name => Some (name, d, founders c)
        | None => None
        end
      else None
  | None => None
  end.

Fixpoint stored_forms (cs : list CompanyInfo) : option (list (str * date * list str)) :=
  match cs with
  | [] => Some []
  | c :: cs' =>
      match stored_form c, stored_forms cs' with
      | Some v, Some vs => Some (v :: vs)
      | _, _ => None
      end
  end.

(** The [INSERT] issued for a record: none when its date does not parse. *)
Definition insert_call (c : CompanyInfo) : list pg_call :=
  match strptime (founding_date c) with
  | Some d => [PgInsert (company_name c) d (founders c)]
  | None => []
  end.

(** The driver calls of a batch that runs to its end. *)
Definition batch_calls (cs : list CompanyInfo) : list pg_call :=
  [PgCreateTable] ++ flat_map insert_call cs ++ [PgClose].

End StoreVocabulary.

(** ** Paragraphs and the extraction loop *)

(** [[p.strip() for p in essay_text.split('\n\n') if p.strip()]] *)
Definition paragraphs (essay_text : str) : list str :=
  map strip (filter (fun p => nonempty (strip p)) (split [nl; nl] essay_text)).

Section Extraction.

Variable strptime : str -> option date.

(** Whether [ChatOpenAI(...)] and [create_extraction_chain(llm)] return
    for the given key ([None] is an unset [OPENAI_API_KEY]). *)
Variable chain_built : option str -> bool.

(** [extraction_chain.ainvoke(paragraph)] after the given earlier calls:
    the parsed answer, or [None] when the model call or the output parser
    raises. *)
Variable ainvoke : list str -> str -> option ExtractedCompanies.

Definition chain_ainvoke (paragraph : str) : M ExtractedCompanies :=
  fun w =>
    let w' := mkWorld (pg w) (faults w) (pg_log w) (llm_log w ++ [paragraph]) in
    match ainvoke (llm_log w) paragraph with
    | Some result => (Ok result, w')
    | None => (Raise ChainError, w')
    end.

(** The [for i, paragraph in enumerate(paragraphs)] loop; [all_companies]
    is the list the loop appends to. *)
Fixpoint extract_loop (ps : list str) (all_companies : list CompanyInfo)
  : M (list CompanyInfo) :=
  match ps with
  | [] => ret all_companies
  | paragraph :: ps' =>
      all_companies' <-
        try_except
          (result <- chain_ainvoke paragraph ;;
           ret (all_companies ++ companies result))
          (fun _ => ret all_companies) ;;
      extract_loop ps' all_companies'
  end.

(** What the answers of the chain amount to over the paragraphs [ps],
    asked in order after the calls in [history]: a paragraph whose call
    raises contributes nothing. *)
Fixpoint harvest (history : list str) (ps : list str) : list CompanyInfo :=
  match ps with
  | [] => []
  | p :: ps' =>
      match ainvoke history p with
      | Some result => companies result
      | None => []
      end ++ harvest (history ++ [p]) ps'
  end.

Definition extract_and_store_body (essay_text : str) (openai_api_key : option str)
  : M (list StoredCompanyRow) :=
  (if chain_built openai_api_key then ret tt else raise ChainError) ;;;
  all_companies <- extract_loop (paragraphs essay_text) [] ;;
  match all_companies with
  | _ :: _ =>
      success <- insert_companies_to_db strptime all_companies ;;
      if success then get_stored_companies else ret []
  | [] => ret []
  end.

(** [async def extract_and_store_companies(essay_text, openai_api_key)] *)
Definition extract_and_store_companies (essay_text : str)
  (openai_api_key : option str) : M (list StoredCompanyRow) :=
  try_except (extract_and_store_body essay_text openai_api_key)
             (fun _ => ret []).

End Extraction.

(** ** Sample data *)

Definition coca_cola : CompanyInfo :=
  mkCompanyInfo (of_string "The Coca-Cola Company") (of_string "1886-05-08")
                [of_string "John Stith Pemberton"].

Definition sony : CompanyInfo :=
  mkCompanyInfo (of_string "Sony Corporation") (of_string "1946-05-07")
                [of_string "Masaru Ibuka"; of_string "Akio Morita"].

Definition stripe : CompanyInfo :=
  mkCompanyInfo (of_string "Stripe, Inc.") (of_string "2010-01-01")
                [of_string "Patrick Collison"; of_string "John Collison"].

(** A record whose date the model left in prose. *)
Definition undated : CompanyInfo :=
  mkCompanyInfo (of_string "Airbnb, Inc.") (of_string "August 2008")
                [of_string "Brian Chesky"].

(** A reachable server without the table, nothing logged yet. *)
Definition fresh_world : world := mkWorld None [] [] [].

End PipelineA.

(* ===================================================================== *)
(** * The text splitter used by exercise 2 *)
(* ===================================================================== *)

(** A model of LangChain's [RecursiveCharacterTextSplitter] as
    [chunk_documents] configures it: default separators
    [["\n\n"; "\n"; " "; ""]], [keep_separator=True] (a separator stays at
    the head of the piece that follows it, and merged pieces are joined
    with the empty string), [strip_whitespace=True], lengths counted by
    [len]. *)
Module TextSplitter.
Import PyStr.

(** [re.search(re.escape(sep), text)] for a literal [sep] *)
Fixpoint contains (sep s : str) : bool :=
  startswith sep s ||
  match s with
  | [] => false
  | _ :: s' => contains sep s'
  end.

(** [_split_text_with_regex(text, separator, keep_separator=True)] *)
Definition split_text_with_regex (text separator : str) : list str :=
  let splits :=
    match separator with
    | [] => map (fun c => [c]) text
    | _ :: _ =>
        match split separator text with
        | [] => []
        | p0 :: ps => p0 :: map (fun p => separator ++ p) ps
        end
    end in
  filter nonempty splits.

(** Total length of the pieces in the current window. *)
Definition total_len (docs : list str) : nat := length (concat docs).

(** [_join_docs(docs, "")]: [None] when nothing is left after stripping. *)
Definition join_docs (docs : list str) : option str :=
  match strip (concat docs) with
  | [] => None
  | c :: text => Some (c :: text)
  end.

Definition emit (doc : option str) : list str :=
  match doc with
  | Some d => [d]
  | None => []
  end.

(** The last [n] characters of [x] are the first [n] of [y]. *)
Definition shares (n : nat) (x y : str) : bool :=
  (n <=? length x)%nat && (n <=? length y)%nat
  && str_eqb (skipn (length x - n) x) (firstn n y).

(** Every chunk shares [n] characters with the chunk after it, the pair
    that ends in the final chunk left aside. *)
Fixpoint consecutive_overlap (n : nat) (chunks : list str) : bool :=
  match chunks with
  | x :: rest =>
      match rest with
      | y :: _ :: _ => shares n x y && consecutive_overlap n rest
      | _ => true
      end
  | [] => true
  end.

(** [w] is the part of [text] that begins at offset [pos]. *)
Definition lies_at (pos : nat) (w text : str) : Prop :=
  exists before after, text = before ++ w ++ after /\ length before = pos.

(** Strings given with the offsets at which they begin: they begin in
    order, and each begins at most [n] characters before the end of the
    one before it. *)
Fixpoint overlap_at_most (n : nat) (placed : list (nat * str)) : Prop :=
  match placed with
  | [] => True
  | x :: rest =>
      match rest with
      | [] => True
      | y :: _ => fst x <= fst y /\ fst x + length (snd x) <= fst y + n
      end
      /\ overlap_at_most n rest
  end.

(** [chunks] are the windows [ws] of [text], trimmed: each window is
    not blank and lies in [text] at its offset, which is not below [lo],
    and the windows come in order with an overlap of at most [n]. *)
Definition windows_of (n : nat) (chunks : list str) (lo : nat) (text : str)
  (ws : list (nat * str)) : Prop :=
  chunks = map (fun w => strip (snd w)) ws
  /\ Forall (fun w => lies_at (fst w) (snd w) text
                      /\ lo <= fst w
                      /\ nonempty (strip (snd w)) = true) ws
  /\ overlap_at_most n ws.

Section Splitter.

Variable chunk_size : nat.
Variable chunk_overlap : nat.

(** The [while] loop of [_merge_splits] that drops pieces from the front
    of the window before the piece of length [len_d] is appended. *)
Fixpoint pop_overlap (len_d : nat) (current_doc : list str) (total : nat)
  : list str * nat :=
  match current_doc with
  | [] => ([], total)
  | first :: others =>
      if (chunk_overlap <? total)
         || ((chunk_size <? total + len_d) && (0 <? total))
      then pop_overlap len_d others (total - length first)
      else (current_doc, total)
  end.

(** The [for d in splits] loop of [_merge_splits(splits, "")] followed by
    the final [_join_docs]. *)
Fixpoint merge_loop (splits : list str) (current_doc : list str) (total : nat)
  : list str :=
  match splits with
  | [] => emit (join_docs current_doc)
  | d :: rest =>
      if chunk_size <? total + length d then
        match current_doc with
        | [] => merge_loop rest [d] (total + length d)
        | _ :: _ =>
            let '(kept, total') := pop_overlap (length d) current_doc total in
            emit (join_docs current_doc)
              ++ merge_loop rest (kept ++ [d]) (total' + length d)
        end
      else merge_loop rest (current_doc ++ [d]) (total + length d)
  end.

Definition merge_splits (splits : list str) : list str := merge_loop splits [] 0.

(** [if _good_splits: final_chunks.extend(self._merge_splits(...))] *)
Definition flush (good_splits : list str) : list str :=
  match good_splits with
  | [] => []
  | _ :: _ => merge_splits good_splits
  end.

(** The [for s in splits] loop of [_split_text]; [recurse] is
    [self._split_text(_, new_separators)] when [new_separators] is not
    empty. *)
Fixpoint split_loop (recurse : option (str -> list str)) (splits : list str)
  (good_splits : list str) : list str :=
  match splits with
  | [] => flush good_splits
  | s :: rest =>
      if length s <? chunk_size then split_loop recurse rest (good_splits ++ [s])
      else
        flush good_splits
          ++ match recurse with
             | None => [s]
             | Some f => f s
             end
          ++ split_loop recurse rest []
  end.

(** [_split_text(text, separator :: more)]: the first separator that is
    empty or occurs in [text] is used (the last one if none does), and
    the separators after it serve the pieces that are still too long. *)
Fixpoint _split_text (separator : str) (more : list str) (text : str)
  {struct more} : list str :=
  match separator with
  | [] => split_loop None (split_text_with_regex text []) []
  | _ :: _ =>
      match more with
      | [] => split_loop None (split_text_with_regex text separator) []
      | next :: more' =>
          if contains separator text
          then split_loop (Some (_split_text next more'))
                          (split_text_with_regex text separator) []
          else _split_text next more' text
      end
  end.

(** [split_text(text)] with the default separators *)
Definition split_text (text : str) : list str :=
  _split_text [nl; nl] [[nl]; [32%N]; []] text.

End Splitter.

End TextSplitter.

(* ===================================================================== *)
(** * Exercise 2: ingest and answer
      ([exercise2_rag_playground/src]) *)
(* ===================================================================== *)

Module PipelineB.
Import PyStr Py.

Section Ingest.

(** The metadata mapping of a document; it is only carried along. *)
Variable Meta : Type.

(** [langchain_core.documents.Document] *)
Record Document := mkDocument { page_content : str; metadata : Meta }.

(** [TextSplitter.split_documents]: every chunk of a document's text
    becomes a document with a copy of that document's metadata. *)
Definition split_documents (chunk_size chunk_overlap : nat)
  (documents : list Document) : list Document :=
  flat_map
    (fun doc =>
       map (fun chunk => mkDocument chunk (metadata doc))
           (TextSplitter.split_text chunk_size chunk_overlap (page_content doc)))
    documents.

(** [def chunk_documents(documents)]
    ([load_data_to_chroma.py]) *)
Definition chunk_documents (documents : list Document) : list Document :=
  split_documents 1000 200 documents.

(** ** The vector store *)

(** An embedding vector. *)
Variable Emb : Type.

(** The embedding of one text; [None] when the embedding call fails. *)
Variable embed : str -> option Emb.

Record entry := mkEntry {
  entry_id : N;
  entry_doc : Document;
  entry_embedding : Emb
}.

(** The persisted collection [rag_exercise] under [./chroma_data], with
    the source of fresh ids ([uuid4]). *)
Record chroma := mkChroma { rag_exercise : list entry; next_uuid : N }.

Fixpoint embed_documents (texts : list str) : option (list Emb) :=
  match texts with
  | [] => Some []
  | t :: ts =>
      match embed t, embed_documents ts with
      | Some e, Some es => Some (e :: es)
      | _, _ => None
      end
  end.

Fixpoint fresh_entries (next : N) (docs : list Document) (embs : list Emb)
  : list entry :=
  match docs, embs with
  | d :: ds, e :: es => mkEntry next d e :: fresh_entries (next + 1)%N ds es
  | _, _ => []
  end.

(** [Chroma.add_texts]: embed the texts, draw one fresh id per text and
    upsert; the collection refuses an empty batch. *)
Definition add_texts (docs : list Document) : M chroma unit :=
  fun st =>
    match embed_documents (map page_content docs) with
    | None => (Raise EmbeddingError, st)
    | Some embs =>
        match docs with
        | [] => (Raise ValueError, st)
        | _ :: _ =>
            (Ok tt,
             mkChroma (rag_exercise st ++ fresh_entries (next_uuid st) docs embs)
                      (next_uuid st + N.of_nat (length docs))%N)
        end
    end.

(** [Chroma.from_documents(documents=chunks, ..., collection_name="rag_exercise",
    persist_directory="./chroma_data")]: open (or create) the collection
    and add the documents to it. *)
Definition from_documents (docs : list Document) : M chroma unit :=
  match docs with
  | [] => ret tt
  | _ :: _ => add_texts docs
  end.

(** [vector_store.add_documents(chunks)]; the chunks carry no id of their
    own, so fresh ones are drawn. *)
Definition add_documents (docs : list Document) : M chroma unit :=
  add_texts docs.

(** [def add_chunks_to_vector_db(chunks)] *)
Definition add_chunks_to_vector_db (chunks : list Document) : M chroma unit :=
  from_documents chunks ;;;
  add_documents chunks.

(** A stored entry without its id. *)
Definition entry_pair (e : entry) : Document * Emb :=
  (entry_doc e, entry_embedding e).

End Ingest.

Arguments mkDocument {Meta} page_content metadata.
Arguments page_content {Meta} d.
Arguments metadata {Meta} d.
Arguments mkEntry {Meta Emb} entry_id entry_doc entry_embedding.
Arguments entry_id {Meta Emb} e.
Arguments entry_doc {Meta Emb} e.
Arguments entry_embedding {Meta Emb} e.
Arguments mkChroma {Meta Emb} rag_exercise next_uuid.
Arguments rag_exercise {Meta Emb} c.
Arguments next_uuid {Meta Emb} c.
Arguments entry_pair {Meta Emb} e.
Arguments fresh_entries {Meta Emb} next docs embs.
Arguments split_documents {Meta} chunk_size chunk_overlap documents.
Arguments chunk_documents {Meta} documents.
Arguments embed_documents {Emb} embed texts.
Arguments add_texts {Meta Emb} embed docs.
Arguments from_documents {Meta Emb} embed docs.
Arguments add_documents {Meta Emb} embed docs.
Arguments add_chunks_to_vector_db {Meta Emb} embed chunks.

(** ** The interactive loop ([main.py]) *)

Definition quit : str := of_string "quit".
Definition q : str := of_string "q".

(** [question.lower() in ['quit', 'q']] *)
Definition is_quit (question : str) : bool :=
  str_eqb (lower question) quit || str_eqb (lower question) q.

(** [s] spells [word] with each letter in either case ([word] is in
    lower case). *)
Definition any_case (word s : str) : Prop :=
  Forall2 (fun d c => c = d \/ (c + 32 = d)%N) word s.

(** What the loop prints. *)
Inductive output :=
| Banner
| Prompt
| Goodbye
| Answer (response : str)
| Error.

Record session := mkSession {
  (** questions passed to [rag_chain.invoke], in order *)
  asked : list str;
  printed : list output
}.

Definition print (o : output) (c : session) : session :=
  mkSession (asked c) (printed c ++ [o]).

Section Interactive.

(** [rag_chain.invoke(question)] after the given earlier questions;
    [None] when it raises. *)
Variable invoke : list str -> str -> option str.

(** The [try: response = rag_chain.invoke(question) ... except ...] block. *)
Definition answer (question : str) (c : session) : session :=
  let c' := mkSession (asked c ++ [question]) (printed c) in
  match invoke (asked c) question with
  | Some response => print (Answer response) c'
  | None => print Error c'
  end.

(** The [while True] loop of [run_interactive_mode] over the lines that
    standard input still holds; the result carries the unread lines.
    [input] raises [EOFError] at the end of input, outside any [try]. *)
Fixpoint question_loop (lines : list str) (c : session)
  : result unit * (list str * session) :=
  match lines with
  | [] => (Raise EOFError, ([], print Prompt c))
  | line :: rest =>
      let c := print Prompt c in
      let question := strip line in
      if is_quit question then (Ok tt, (rest, print Goodbye c))
      else
        match question with
        | [] => question_loop rest c
        | _ :: _ => question_loop rest (answer question c)
        end
  end.

(** [def run_interactive_mode(rag_chain)]: the banner, then the loop.
    The state is what standard input holds and the session so far. *)
Definition run_interactive_mode : M (list str * session) unit :=
  fun st => question_loop (fst st) (print Banner (snd st)).

(** ** The loop as a state machine *)

Inductive loop_state :=
| AwaitingInput
| Answering (question : str)
| Exited
| Crashed (e : exn).

Record machine := mkMachine {
  state : loop_state;
  unread : list str;
  sess : session
}.

(** One transition: from [AwaitingInput] a line is read and classified;
    from [Answering] the chain is invoked and the loop goes back to the
    prompt. *)
Definition step (m : machine) : machine :=
  match state m with
  | AwaitingInput =>
      match unread m with
      | [] => mkMachine (Crashed EOFError) [] (print Prompt (sess m))
      | line :: rest =>
          let c := print Prompt (sess m) in
          let question := strip line in
          if is_quit question then mkMachine Exited rest (print Goodbye c)
          else
            match question with
            | [] => mkMachine AwaitingInput rest c
            | _ :: _ => mkMachine (Answering question) rest c
            end
      end
  | Answering question =>
      mkMachine AwaitingInput (unread m) (answer question (sess m))
  | Exited => m
  | Crashed _ => m
  end.

Fixpoint steps (n : nat) (m : machine) : machine :=
  match n with
  | O => m
  | S n' => steps n' (step m)
  end.

Definition terminal (s : loop_state) : bool :=
  match s with
  | Exited | Crashed _ => true
  | AwaitingInput | Answering _ => false
  end.

(** The terminal state in which a run of the loop leaves the machine. *)
Definition outcome_state (r : result unit) : loop_state :=
  match r with
  | Ok _ => Exited
  | Raise e => Crashed e
  end.

End Interactive.

End PipelineB.

(* ===================================================================== *)
(** * Vocabulary for further statements about the store *)
(* ===================================================================== *)

Module StoreInvariants.
Import PyStr Py PipelineA.
Local Open Scope N_scope.




(** What [get_stored_companies] returns right after
    [insert_companies_to_db]. *)
Definition listed_after (strptime : str -> option date)
  (companies : list CompanyInfo) (w : world) : list StoredCompanyRow :=
  match get_stored_companies (snd (insert_companies_to_db strptime companies w)) with
  | (Ok listed, _) => listed
  | (Raise _, _) => []
  end.

End StoreInvariants.

(* ===================================================================== *)
(** * Exercise 2: the test queries, and vocabulary for the loop *)
(* ===================================================================== *)

Module Queries.
Import PyStr Py PipelineB.

(** The longest initial segment whose elements satisfy [f]. *)
Fixpoint take_while {A} (f : A -> bool) (l : list A) : list A :=
  match l with
  | [] => []
  | x :: l' => if f x then x :: take_while f l' else []
  end.

(** What is left from the first element that fails [f] on. *)
Fixpoint drop_while {A} (f : A -> bool) (l : list A) : list A :=
  match l with
  | [] => []
  | x :: l' => if f x then drop_while f l' else l
  end.

(** The line is not a quit sentinel. *)
Definition goes_on (line : str) : bool := negb (is_quit (strip line)).

(** The questions in the lines typed before the first quit sentinel: each
    line stripped, blank ones left out. *)
Definition questions_asked (lines : list str) : list str :=
  filter nonempty (map strip (take_while goes_on lines)).

(** The lines after the first quit sentinel. *)
Definition lines_after_quit (lines : list str) : list str :=
  tl (drop_while goes_on lines).

(** ** [run_test_queries] ([main.py]) *)

Definition test_queries : list str :=
  [of_string "What are the main principles in our code of conduct?";
   of_string "What constitutes harassment according to our policy?";
   of_string "Who should I contact for policy violations?";
   of_string "What support is available for workplace issues?"].

(** What [run_test_queries] prints. *)
Inductive test_output :=
| Running
| QueryLine (i : nat) (query : str)
| Rule
| TestAnswer (response : str)
| TestError.

Record test_session := mkTestSession {
  (** queries passed to [rag_chain.invoke], in order *)
  invoked : list str;
  shown : list test_output
}.

Definition show (o : test_output) (c : test_session) : test_session :=
  mkTestSession (invoked c) (shown c ++ [o]).

Section TestQueries.

(** [rag_chain.invoke(query)] after the given earlier queries; [None]
    when it raises. *)
Variable invoke : list str -> str -> option str.

(** The body of [for i, query in enumerate(test_queries, 1)]. *)
Definition test_query (i : nat) (query : str) (c : test_session) : test_session :=
  let c := show Rule (show (QueryLine i query) c) in
  let c' := mkTestSession (invoked c ++ [query]) (shown c) in
  match invoke (invoked c) query with
  | Some response => show (TestAnswer response) c'
  | None => show TestError c'
  end.

Fixpoint test_loop (i : nat) (queries : list str) (c : test_session)
  : test_session :=
  match queries with
  | [] => c
  | query :: rest => test_loop (S i) rest (test_query i query c)
  end.

(** [def run_test_queries(rag_chain)] *)
Definition run_test_queries (c : test_session) : test_session :=
  test_loop 1 test_queries (show Running c).

End TestQueries.

Definition is_query_line (o : test_output) : bool :=
  match o with QueryLine _ _ => true | _ => false end.

(** The heading lines of the queries [qs], numbered from [i]. *)
Fixpoint numbered (i : nat) (qs : list str) : list test_output :=
  match qs with
  | [] => []
  | query :: rest => QueryLine i query :: numbered (S i) rest
  end.

End Queries.

(* ===================================================================== *)
(** * Vocabulary for further statements about chunks and the index *)
(* ===================================================================== *)

Module ChunkVocabulary.
Import PyStr Py TextSplitter PipelineB.

(** A document as one chunk: its text stripped, with its metadata; none
    when the text is blank. *)
Definition whole {Meta} (doc : Document Meta) : list (Document Meta) :=
  match strip (page_content doc) with
  | [] => []
  | c :: text => [mkDocument (c :: text) (metadata doc)]
  end.

(** [n] copies of [l] in a row. *)
Fixpoint copies {A} (n : nat) (l : list A) : list A :=
  match n with
  | O => []
  | S k => l ++ copies k l
  end.

(** [add_chunks_to_vector_db(chunks)] run [n] times in succession, as
    when [load_data_to_chroma.py] is run again on the same documents. *)
Definition ingest_times {Meta Emb} (embed : str -> option Emb) (n : nat)
  (chunks : list (Document Meta)) : M (chroma Meta Emb) unit :=
  for_each (repeat tt n) (fun _ => add_chunks_to_vector_db embed chunks).

(** Every id in the collection was given out by the source of fresh ids. *)
Definition ids_issued {Meta Emb} (st : chroma Meta Emb) : Prop :=
  Forall (fun e => (entry_id e < next_uuid st)%N) (rag_exercise st).

End ChunkVocabulary.

(* ===================================================================== *)
(** * Exercise 2: loading the documents
      ([exercise2_rag_playground/src/load_data_to_chroma.py]) *)
(* ===================================================================== *)

Module Loader.
Import PyStr PipelineB.

(** Exceptions that matter to [load_documents]. *)
Inductive exn :=
| AttributeError
| IndexError
| ImportError
| LoaderError
| ApiError
| OSError.

Inductive outcome (A : Type) :=
| Returned (a : A)
| Raised (e : exn).
Arguments Returned {A} a.
Arguments Raised {A} e.

(** ** Metadata *)

(** A value of a metadata mapping: this code writes strings and [None];
    anything else a loader put there is kept by its [repr]. *)
Inductive pyvalue :=
| PyStr (s : str)
| PyNone
| PyOther (repr : str).

(** A [dict] with string keys, in insertion order, keys distinct. *)
Definition dict := list (str * pyvalue).

Fixpoint dict_get (k : str) (d : dict) : option pyvalue :=
  match d with
  | [] => None
  | (k', v) :: d' => if str_eqb k k' then Some v else dict_get k d'
  end.

(** [d[k] = v] *)
Fixpoint dict_set (k : str) (v : pyvalue) (d : dict) : dict :=
  match d with
  | [] => [(k, v)]
  | (k', v') :: d' =>
      if str_eqb k k' then (k, v) :: d' else (k', v') :: dict_set k v d'
  end.

(** [d.update(items)] *)
Fixpoint dict_update (d : dict) (items : list (str * pyvalue)) : dict :=
  match items with
  | [] => d
  | (k, v) :: items' => dict_update (dict_set k v d) items'
  end.

Definition Doc := Document dict.

(** An environment variable read with [os.environ.get] as a value. *)
Definition env_value (v : option str) : pyvalue :=
  match v with
  | Some s => PyStr s
  | None => PyNone
  end.

(** [doc.metadata.update({'title': file_name, 'id': doc_id,
    'source': 'google_drive_manual', 'mime_type': mime_type})] *)
Definition tag_manual (file_name : str) (doc_id : option str) (mime_type : str)
  (doc : Doc) : Doc :=
  mkDocument (page_content doc)
    (dict_update (metadata doc)
       [(of_string "title", PyStr file_name);
        (of_string "id", env_value doc_id);
        (of_string "source", PyStr (of_string "google_drive_manual"));
        (of_string "mime_type", PyStr mime_type)]).

(** ** The page id *)

(** [CODE_OF_CONDUCT_URL.split('/pages/')[1].split('/')[0]]; the variable
    may be unset. *)
Definition page_id_of_url (url : option str) : outcome str :=
  match url with
  | None => Raised AttributeError
  | Some u =>
      match split (of_string "/pages/") u with
      | _ :: second :: _ =>
          match split (of_string "/") second with
          | first :: _ => Returned first
          | [] => Raised IndexError
          end
      | _ => Raised IndexError
      end
  end.

(** ** State and control *)

(** What [load_documents] works on: its list [documents], and the
    temporary files that exist. *)
Record state := mkState {
  documents : list Doc;
  temp_files : list str
}.

Definition L (A : Type) : Type := state -> outcome A * state.

Definition lret {A} (a : A) : L A := fun st => (Returned a, st).

Definition lraise {A} (e : exn) : L A := fun st => (Raised e, st).

Definition lbind {A B} (m : L A) (k : A -> L B) : L B :=
  fun st => match m st with
            | (Returned a, st') => k a st'
            | (Raised e, st') => (Raised e, st')
            end.

(** [try: body except Exception: handler] *)
Definition ltry {A} (body : L A) (handler : exn -> L A) : L A :=
  fun st => match body st with
            | (Returned a, st') => (Returned a, st')
            | (Raised e, st') => handler e st'
            end.

(** [try: body finally: cleanup], for a [cleanup] that does not raise. *)
Definition lfinally {A} (body : L A) (cleanup : state -> state) : L A :=
  fun st => match body st with
            | (r, st') => (r, cleanup st')
            end.

Fixpoint lfor {X} (xs : list X) (body : X -> L unit) : L unit :=
  match xs with
  | [] => lret tt
  | x :: xs' => lbind (body x) (fun _ => lfor xs' body)
  end.

(** The result of an SDK call, [None] when it raises. *)
Definition call {A} (r : option A) (e : exn) : L A :=
  match r with
  | Some a => lret a
  | None => lraise e
  end.

(** [documents.extend(docs)] *)
Definition extend (docs : list Doc) : L unit :=
  fun st => (Returned tt, mkState (documents st ++ docs) (temp_files st)).

(** [os.unlink(temp_path)] *)
Definition unlink (path : str) (st : state) : state :=
  mkState (documents st) (filter (fun p => negb (str_eqb p path)) (temp_files st)).

(** How writing a temporary file ends. *)
Inductive temp_outcome :=
| Written (path : str)
| CreateFails
| WriteFails (path : str).

(** [with tempfile.NamedTemporaryFile(suffix=..., delete=False) as f:
    f.write(content); temp_path = f.name].  A failed write leaves the
    file behind. *)
Definition write_temp (o : temp_outcome) : L str :=
  fun st =>
    match o with
    | Written path =>
        (Returned path, mkState (documents st) (path :: temp_files st))
    | CreateFails => (Raised OSError, st)
    | WriteFails path =>
        (Raised OSError, mkState (documents st) (path :: temp_files st))
    end.

(** The Drive metadata of a file: the keys [name] and [mimeType], each
    possibly absent. *)
Record file_info := mkFileInfo {
  info_name : option str;
  info_mime : option str
}.

Definition get_default (v : option str) (default : str) : str :=
  match v with
  | Some s => s
  | None => default
  end.

(** A document tagged as loaded by hand for the Drive file [doc_id]. *)
Definition tagged_for (doc_id : option str) (doc : Doc) : Prop :=
  dict_get (of_string "source") (metadata doc)
    = Some (PyStr (of_string "google_drive_manual"))
  /\ dict_get (of_string "id") (metadata doc) = Some (env_value doc_id)
  /\ (exists title, dict_get (of_string "title") (metadata doc) = Some (PyStr title))
  /\ (exists mime, dict_get (of_string "mime_type") (metadata doc) = Some (PyStr mime)).

Section Load.

(** ** The outside world *)

Variable CODE_OF_CONDUCT_URL : option str.
Variable ANTI_HARASSMENT_FILE_ID : option str.
Variable NOMINATION_GUIDELINE_DOC_ID : option str.

(** [ConfluenceLoader(..., page_ids=[page_id]).load()] *)
Variable confluence_load : str -> option (list Doc).

(** [GoogleDriveLoader(document_ids=[...], ...).load()] *)
Variable google_load : list (option str) -> option (list Doc).

(** Whether the imports at the head of the fallback succeed. *)
Variable imports_ok : bool.

(** Whether the credentials load and [build('drive', 'v3', ...)] returns. *)
Variable drive_service : bool.

(** [service.files().get(fileId=doc_id).execute()] *)
Variable files_get : option str -> option file_info.

(** [service.files().get_media(fileId=doc_id).execute()]; the content is
    a string of bytes. *)
Variable get_media : option str -> option str.

(** How the temporary file for a content with a suffix comes out, given
    the temporary files that exist. *)
Variable temp_file : str -> str -> list str -> temp_outcome.

(** [PyPDFLoader(temp_path).load()] and [Docx2txtLoader(temp_path).load()]
    on a file with the given content. *)
Variable pdf_load : str -> str -> option (list Doc).
Variable docx_load : str -> str -> option (list Doc).

(** The [try] block that loads the Confluence page. *)
Definition load_confluence : L unit :=
  ltry
    (lbind (fun st => (page_id_of_url CODE_OF_CONDUCT_URL, st)) (fun page_id =>
     lbind (call (confluence_load page_id) LoaderError) (fun confluence_docs =>
     extend confluence_docs)))
    (fun _ => lret tt).

(** Download to a temporary file, load it, tag what was loaded, and
    remove the file whatever happened after it was written. *)
Definition load_through_temp (suffix : str)
  (load : str -> str -> option (list Doc))
  (doc_id : option str) (file_name mime_type : str) : L unit :=
  lbind (call (get_media doc_id) ApiError) (fun file_content =>
  lbind (fun st => write_temp (temp_file suffix file_content (temp_files st)) st)
        (fun temp_path =>
  lfinally
    (lbind (call (load temp_path file_content) LoaderError) (fun docs =>
     extend (map (tag_manual file_name doc_id mime_type) docs)))
    (unlink temp_path))).

(** The body of [for doc_id in doc_ids], with its [try]. *)
Definition load_manually (doc_id : option str) : L unit :=
  ltry
    (lbind (call (files_get doc_id) ApiError) (fun info =>
     let file_name := get_default (info_name info) (of_string "unknown") in
     let mime_type := get_default (info_mime info) [] in
     if TextSplitter.contains (of_string "pdf") mime_type then
       load_through_temp (of_string ".pdf") pdf_load doc_id file_name mime_type
     else if TextSplitter.contains (of_string "wordprocessingml") mime_type
             || TextSplitter.contains (of_string "document") mime_type then
       load_through_temp (of_string ".docx") docx_load doc_id file_name mime_type
     else lret tt))
    (fun _ => lret tt).

Definition doc_ids : list (option str) :=
  [ANTI_HARASSMENT_FILE_ID; NOMINATION_GUIDELINE_DOC_ID].

(** The handler of the Google Drive [try]: the imports, then the inner
    [try] around the credentials, the service and the loop. *)
Definition manual_fallback : L unit :=
  if imports_ok then
    ltry
      (if drive_service then lfor doc_ids load_manually else lraise ApiError)
      (fun _ => lret tt)
  else lraise ImportError.

(** The [try] block that loads from Google Drive. *)
Definition load_google : L unit :=
  ltry
    (lbind (call (google_load doc_ids) LoaderError) (fun google_docs =>
     extend google_docs))
    (fun _ => manual_fallback).

(** [def load_documents()]: the documents returned, or the exception
    that leaves the function, and the temporary files afterwards. *)
Definition load_documents (temps : list str) : outcome (list Doc) * list str :=
  match lbind load_confluence (fun _ => load_google) (mkState [] temps) with
  | (Returned _, st) => (Returned (documents st), temp_files st)
  | (Raised e, st) => (Raised e, temp_files st)
  end.

(** What the Confluence block contributes. *)
Definition confluence_docs : list Doc :=
  match page_id_of_url CODE_OF_CONDUCT_URL with
  | Returned page_id =>
      match confluence_load page_id with
      | Some docs => docs
      | None => []
      end
  | Raised _ => []
  end.

(** A document as the fallback leaves it: tagged as loaded by hand, for
    one of the two ids. *)
Definition manually_tagged (doc : Doc) : Prop :=
  dict_get (of_string "source") (metadata doc)
    = Some (PyStr (of_string "google_drive_manual"))
  /\ (dict_get (of_string "id") (metadata doc)
        = Some (env_value ANTI_HARASSMENT_FILE_ID)
      \/ dict_get (of_string "id") (metadata doc)
           = Some (env_value NOMINATION_GUIDELINE_DOC_ID))
  /\ (exists title, dict_get (of_string "title") (metadata doc) = Some (PyStr title))
  /\ (exists mime, dict_get (of_string "mime_type") (metadata doc) = Some (PyStr mime)).

(** No write of a temporary file fails half-way. *)
Definition writes_complete : Prop :=
  forall suffix content temps path,
    temp_file suffix content temps <> WriteFails path.

End Load.

End Loader.

(* ===================================================================== *)
(** * Facts about the string operations *)
(* ===================================================================== *)

Module PyStrFacts.
Import PyStr.

Lemma str_eqb_eq a b : str_eqb a b = true <-> a = b.
Proof.
  unfold str_eqb. destruct (list_eq_dec N.eq_dec a b); split; congruence.
Qed.

Lemma all_space_app a b : all_space a -> all_space b -> all_space (a ++ b).
Proof. unfold all_space. intros Ha Hb. apply Forall_app. split; assumption. Qed.

Lemma all_space_rev a : all_space a -> all_space (rev a).
Proof. unfold all_space. apply Forall_rev. Qed.

Lemma lstrip_decomp s : exists g, s = g ++ lstrip s /\ all_space g.
Proof.
  induction s as [|c s IH]; simpl.
  - exists []. split; [reflexivity | constructor].
  - destruct (isspace c) eqn:Hc.
    + destruct IH as [g [Hs Hg]]. exists (c :: g). split.
      * simpl. f_equal. exact Hs.
      * constructor; assumption.
    + exists []. split; [reflexivity | constructor].
Qed.

Lemma lstrip_head s c t : lstrip s = c :: t -> isspace c = false.
Proof.
  induction s as [|a s IH]; simpl; [discriminate|].
  destruct (isspace a) eqn:Ha; [exact IH|].
  intros E. injection E as -> _. exact Ha.
Qed.

Lemma lstrip_fixed s :
  match s with [] => True | c :: _ => isspace c = false end -> lstrip s = s.
Proof. destruct s as [|c s]; simpl; [reflexivity|]. intros ->. reflexivity. Qed.

Lemma lstrip_all_space s : all_space s -> lstrip s = [].
Proof.
  induction 1 as [|c s Hc _ IH]; simpl; [reflexivity|]. rewrite Hc. exact IH.
Qed.

Lemma rstrip_decomp s : exists g, s = rstrip s ++ g /\ all_space g.
Proof.
  unfold rstrip. destruct (lstrip_decomp (rev s)) as [g [Hs Hg]].
  exists (rev g). split.
  - rewrite <- rev_app_distr, <- Hs, rev_involutive. reflexivity.
  - apply all_space_rev. exact Hg.
Qed.

Lemma strip_decomp s :
  exists g1 g2, s = g1 ++ strip s ++ g2 /\ all_space g1 /\ all_space g2.
Proof.
  destruct (lstrip_decomp s) as [g1 [H1 Hg1]].
  destruct (rstrip_decomp (lstrip s)) as [g2 [H2 Hg2]].
  exists g1, g2. unfold strip. rewrite <- H2. auto.
Qed.

Lemma strip_empty_all_space s : strip s = [] -> all_space s.
Proof.
  intros E. destruct (strip_decomp s) as [g1 [g2 [Hs [H1 H2]]]].
  rewrite Hs, E. simpl. apply all_space_app; assumption.
Qed.

Lemma all_space_strip s : all_space s -> strip s = [].
Proof.
  intros H. unfold strip, rstrip. rewrite (lstrip_all_space s H). reflexivity.
Qed.

(** The result of [strip] neither starts nor ends with whitespace. *)
Lemma strip_no_edge_space s : no_edge_space (strip s) = true.
Proof.
  unfold no_edge_space, strip, rstrip.
  rewrite rev_involutive.
  destruct (lstrip_decomp (rev (lstrip s))) as [g [Hs Hg]].
  remember (lstrip (rev (lstrip s))) as k eqn:Hk.
  assert (Hlast : match k with [] => true | c :: _ => negb (isspace c) end = true).
  { destruct k as [|c k]; [reflexivity|].
    symmetry in Hk. apply lstrip_head in Hk. rewrite Hk. reflexivity. }
  rewrite Hlast, andb_true_r.
  assert (Hl : lstrip s = rev k ++ rev g).
  { rewrite <- rev_app_distr, <- Hs, rev_involutive. reflexivity. }
  destruct (rev k) as [|c r] eqn:Hr; [reflexivity|].
  simpl in Hl. apply lstrip_head in Hl. rewrite Hl. reflexivity.
Qed.

Lemma startswith_app p s : startswith p s = true <-> exists t, s = p ++ t.
Proof.
  revert s. induction p as [|a p IH]; intros s; simpl.
  - split; [exists s; reflexivity | reflexivity].
  - destruct s as [|b s].
    + split; [discriminate | intros [t Ht]; discriminate].
    + rewrite andb_true_iff, N.eqb_eq, IH. split.
      * intros [-> [t ->]]. exists t. reflexivity.
      * intros [t Ht]. injection Ht as -> ->. split; [reflexivity | exists t; reflexivity].
Qed.

Lemma startswith_skipn p c s :
  startswith p (c :: s) = true -> p <> [] ->
  c :: s = p ++ skipn (length p - 1) s.
Proof.
  intros H Hp. apply startswith_app in H. destruct H as [t Ht].
  destruct p as [|a p]; [congruence|].
  simpl in Ht. injection Ht as -> ->.
  simpl. rewrite Nat.sub_0_r, skipn_app, Nat.sub_diag, skipn_all. reflexivity.
Qed.

Lemma join_cons sep p ps :
  join sep (p :: ps) = match ps with [] => p | _ :: _ => p ++ sep ++ join sep ps end.
Proof. reflexivity. Qed.

Lemma split_from_nil sep cur : split_from sep cur [] = [rev cur].
Proof. simp split_from. reflexivity. Qed.

Lemma split_from_cons sep cur c s' :
  split_from sep cur (c :: s') =
  if startswith sep (c :: s')
  then rev cur :: split_from sep [] (skipn (length sep - 1) s')
  else split_from sep (c :: cur) s'.
Proof.
  simp split_from. destruct (startswith sep (c :: s')); reflexivity.
Qed.

(** Induction along the scan of [split_from]. *)
Lemma split_from_scan sep (P : str -> str -> list str -> Prop) :
  (forall cur, P cur [] [rev cur]) ->
  (forall cur c s',
      startswith sep (c :: s') = true ->
      P [] (skipn (length sep - 1) s')
        (split_from sep [] (skipn (length sep - 1) s')) ->
      P cur (c :: s')
        (rev cur :: split_from sep [] (skipn (length sep - 1) s'))) ->
  (forall cur c s',
      startswith sep (c :: s') = false ->
      P (c :: cur) s' (split_from sep (c :: cur) s') ->
      P cur (c :: s') (split_from sep (c :: cur) s')) ->
  forall cur s, P cur s (split_from sep cur s).
Proof.
  intros Hnil Hcut Hmove cur s.
  remember (length s) as n eqn:Hn.
  revert cur s Hn.
  induction n as [n IH] using lt_wf_ind.
  intros cur [|c s'] Hn.
  - rewrite split_from_nil. apply Hnil.
  - rewrite split_from_cons.
    destruct (startswith sep (c :: s')) eqn:E.
    + apply Hcut; [exact E|].
      apply (IH (length (skipn (length sep - 1) s'))); [|reflexivity].
      subst n. simpl. rewrite length_skipn. lia.
    + apply Hmove; [exact E|].
      apply (IH (length s')); [|reflexivity].
      subst n. simpl. lia.
Qed.

Lemma split_from_nonempty sep cur s : split_from sep cur s <> [].
Proof.
  apply (split_from_scan sep (fun _ _ out => out <> [])); intros; congruence.
Qed.

(** Joining the pieces with the separator gives the text back. *)
Lemma split_from_join sep cur s :
  sep <> [] -> join sep (split_from sep cur s) = rev cur ++ s.
Proof.
  intros Hsep.
  apply (split_from_scan sep (fun cur s out => join sep out = rev cur ++ s)).
  - intros cur0. simpl. rewrite app_nil_r. reflexivity.
  - intros cur0 c s' E IH.
    rewrite join_cons.
    destruct (split_from sep [] (skipn (length sep - 1) s')) as [|x xs] eqn:Ex.
    + exfalso. exact (split_from_nonempty _ _ _ Ex).
    + rewrite IH. simpl. rewrite (startswith_skipn _ _ _ E Hsep). reflexivity.
  - intros cur0 c s' E IH. rewrite IH. simpl. rewrite <- app_assoc. reflexivity.
Qed.

Lemma split_join sep s : sep <> [] -> join sep (split sep s) = s.
Proof. intros H. unfold split. rewrite split_from_join by exact H. reflexivity. Qed.

Lemma none_begins_no_occurrence sep pre s :
  sep <> [] -> none_begins_in sep pre s -> ~ occurs sep pre.
Proof.
  intros Hsep Hpre [a [b Hab]].
  assert (Hb : sep ++ b <> []) by (destruct sep; [congruence | discriminate]).
  specialize (Hpre a (sep ++ b) Hab Hb).
  assert (Ht : startswith sep ((sep ++ b) ++ s) = true).
  { apply startswith_app. exists (b ++ s). rewrite app_assoc. reflexivity. }
  congruence.
Qed.

Lemma none_begins_snoc sep cur c s' :
  none_begins_in sep (rev cur) (c :: s') ->
  startswith sep (c :: s') = false ->
  none_begins_in sep (rev (c :: cur)) s'.
Proof.
  intros Hpre E a b Hab Hb. simpl in Hab.
  destruct (exists_last Hb) as [b' [x Hx]]. subst b.
  rewrite app_assoc in Hab. apply app_inj_tail in Hab. destruct Hab as [Hcur ->].
  rewrite <- app_assoc. simpl.
  destruct b' as [|y b'].
  - simpl. exact E.
  - apply (Hpre a (y :: b')); [exact Hcur | discriminate].
Qed.

(** No piece of a split contains the separator. *)
Lemma split_from_pieces_free sep cur s :
  sep <> [] -> none_begins_in sep (rev cur) s ->
  Forall (fun piece => ~ occurs sep piece) (split_from sep cur s).
Proof.
  intros Hsep.
  apply (split_from_scan sep
    (fun cur s out => none_begins_in sep (rev cur) s ->
                      Forall (fun piece => ~ occurs sep piece) out)).
  - intros cur0 Hpre. constructor; [|constructor].
    exact (none_begins_no_occurrence _ _ _ Hsep Hpre).
  - intros cur0 c s' E IH Hpre. constructor.
    + exact (none_begins_no_occurrence _ _ _ Hsep Hpre).
    + apply IH. intros a b Hab Hb. simpl in Hab.
      destruct a; destruct b; try discriminate. congruence.
  - intros cur0 c s' E IH Hpre. apply IH.
    apply none_begins_snoc; assumption.
Qed.

Lemma split_pieces_free sep s :
  sep <> [] -> Forall (fun piece => ~ occurs sep piece) (split sep s).
Proof.
  intros Hsep. unfold split. apply split_from_pieces_free; [exact Hsep|].
  intros a b Hab Hb. simpl in Hab.
  destruct a; destruct b; try discriminate. congruence.
Qed.

Lemma occurs_inside sep a p b : occurs sep p -> occurs sep (a ++ p ++ b).
Proof.
  intros [x [y ->]]. exists (a ++ x), (y ++ b).
  repeat rewrite <- app_assoc. reflexivity.
Qed.

Lemma laid_out_gap gap ps text :
  all_space gap -> laid_out ps text -> laid_out ps (gap ++ text).
Proof.
  intros Hg H. destruct H as [g Hg'|g p ps rest Hg' Hrest].
  - constructor. apply all_space_app; assumption.
  - rewrite app_assoc. constructor; [apply all_space_app; assumption | exact Hrest].
Qed.

End PyStrFacts.

(* ===================================================================== *)
(** * The paragraph splitter *)
(* ===================================================================== *)

Module ParagraphFacts.
Import PyStr PyStrFacts PipelineA.

Lemma newlines_are_space : all_space [nl; nl].
Proof. repeat constructor. Qed.

Lemma blank_line_sep_nonempty : [nl; nl] <> [].
Proof. discriminate. Qed.

(** The kept pieces, stripped, lie in the joined text in order. *)
Lemma laid_out_pieces sep pieces :
  all_space sep ->
  laid_out (map strip (filter (fun p => nonempty (strip p)) pieces))
           (join sep pieces).
Proof.
  intros Hsep. induction pieces as [|p ps IH].
  - simpl. constructor. constructor.
  - assert (Hrest : laid_out (map strip (filter (fun p => nonempty (strip p)) ps))
                              (match ps with [] => [] | _ :: _ => sep ++ join sep ps end)).
    { destruct ps as [|p' ps']; [exact IH|]. apply laid_out_gap; assumption. }
    rewrite join_cons.
    assert (Hjoin : match ps with [] => p | _ :: _ => p ++ sep ++ join sep ps end
                    = p ++ match ps with [] => [] | _ :: _ => sep ++ join sep ps end).
    { destruct ps; [rewrite app_nil_r|]; reflexivity. }
    rewrite Hjoin. clear Hjoin IH.
    simpl. destruct (nonempty (strip p)) eqn:Hp.
    + destruct (strip_decomp p) as [g1 [g2 [Hd [H1 H2]]]].
      simpl. rewrite Hd at 2. repeat rewrite <- app_assoc.
      constructor; [exact H1|]. apply laid_out_gap; assumption.
    + apply laid_out_gap; [|exact Hrest].
      apply strip_empty_all_space. destruct (strip p); [reflexivity | discriminate].
Qed.

Lemma all_space_join_pieces sep pieces :
  all_space (join sep pieces) -> Forall all_space pieces.
Proof.
  induction pieces as [|p ps IH]; intros H; [constructor|].
  rewrite join_cons in H. destruct ps as [|p' ps'].
  - constructor; [exact H | constructor].
  - unfold all_space in H. apply Forall_app in H. destruct H as [Hp H].
    apply Forall_app in H. destruct H as [_ H].
    constructor; [exact Hp | apply IH; exact H].
Qed.

(** An essay of whitespace only has no paragraph. *)
Lemma paragraphs_blank text : all_space text -> paragraphs text = [].
Proof.
  intros H. unfold paragraphs.
  assert (Hp : Forall all_space (split [nl; nl] text)).
  { apply (all_space_join_pieces [nl; nl]).
    rewrite split_join by exact blank_line_sep_nonempty. exact H. }
  induction Hp as [|p ps Hp _ IH]; [reflexivity|].
  simpl. rewrite (all_space_strip p Hp). simpl. exact IH.
Qed.

Lemma paragraphs_laid_out text : laid_out (paragraphs text) text.
Proof.
  unfold paragraphs.
  rewrite <- (split_join [nl; nl] text blank_line_sep_nonempty) at 2.
  apply laid_out_pieces. exact newlines_are_space.
Qed.

(** Three newlines in a row are one boundary; a line of spaces is not
    a boundary; a blank tail gives nothing. *)
Example paragraphs_sample :
  paragraphs ([32; 97; 32; 98; 32] ++ [nl; nl; nl] ++ [32; 99; nl; 32; nl; 100]
              ++ [nl; nl] ++ [32; 32] ++ [nl; nl])%N
  = [[97; 32; 98]; [99; nl; 32; nl; 100]]%N.
Proof. reflexivity. Qed.

Example split_sample :
  split [nl; nl] [nl; nl; nl] = [[]; [nl]] /\ split [nl; nl] [] = [[]].
Proof. split; reflexivity. Qed.

(** ** Where the cuts fall *)

Lemma cut_pieces sep pieces :
  all_space sep ->
  cut_at sep (map strip (filter (fun p => nonempty (strip p)) pieces))
         (join sep pieces).
Proof.
  intros Hsep. induction pieces as [|x [|y ys] IH].
  - simpl. constructor.
  - simpl join. simpl filter.
    destruct (strip_decomp x) as [g1 [g2 [Hd [Hg1 Hg2]]]].
    destruct (nonempty (strip x)) eqn:Hx; simpl.
    + exists g1, g2. split; [exact Hd|]. split; [exact Hg1|].
      constructor. exact Hg2.
    + apply strip_empty_all_space. destruct (strip x); [reflexivity|discriminate].
  - rewrite join_cons.
    destruct (strip_decomp x) as [g1 [g2 [Hd [Hg1 Hg2]]]].
    cbn [filter]. cbn [filter] in IH.
    destruct (nonempty (strip x)) eqn:Hx.
    + cbn [map]. exists g1, (g2 ++ sep ++ join sep (y :: ys)).
      split; [rewrite Hd at 1; rewrite <- !app_assoc; reflexivity|].
      split; [exact Hg1|].
      remember (map strip (if nonempty (strip y)
                           then y :: filter (fun p => nonempty (strip p)) ys
                           else filter (fun p => nonempty (strip p)) ys)) as ps' eqn:Eps.
      destruct ps' as [|p ps'']; cbn [cut_at] in IH.
      * constructor. apply all_space_app; [exact Hg2|].
        apply all_space_app; [exact Hsep | exact IH].
      * destruct IH as [gap [rest [Ht [Hgap Hrest]]]].
        rewrite Ht.
        replace (g2 ++ sep ++ gap ++ p ++ rest)
          with ((g2 ++ sep ++ gap) ++ p ++ rest)
          by (rewrite <- !app_assoc; reflexivity).
        constructor.
        -- apply all_space_app; [exact Hg2|].
           apply all_space_app; [exact Hsep | exact Hgap].
        -- exists g2, gap. reflexivity.
        -- exact Hrest.
    + assert (Hxs : all_space x).
      { apply strip_empty_all_space. destruct (strip x); [reflexivity|discriminate]. }
      remember (map strip (if nonempty (strip y)
                           then y :: filter (fun p => nonempty (strip p)) ys
                           else filter (fun p => nonempty (strip p)) ys)) as ps' eqn:Eps.
      destruct ps' as [|p ps'']; cbn [cut_at] in IH |- *.
      * apply all_space_app; [exact Hxs|].
        apply all_space_app; [exact Hsep | exact IH].
      * destruct IH as [gap [rest [Ht [Hgap Hrest]]]].
        exists (x ++ sep ++ gap), rest. split; [|split].
        -- rewrite Ht, <- !app_assoc. reflexivity.
        -- apply all_space_app; [exact Hxs|].
           apply all_space_app; [exact Hsep | exact Hgap].
        -- exact Hrest.
Qed.

Lemma paragraphs_cut text : cut_at [nl; nl] (paragraphs text) text.
Proof.
  unfold paragraphs.
  rewrite <- (split_join [nl; nl] text blank_line_sep_nonempty) at 2.
  apply cut_pieces. exact newlines_are_space.
Qed.

Lemma paragraphs_trimmed text : Forall (trimmed_piece [nl; nl]) (paragraphs text).
Proof.
  unfold paragraphs. apply Forall_forall. intros p Hin.
  apply in_map_iff in Hin. destruct Hin as [piece [<- Hin]].
  apply filter_In in Hin. destruct Hin as [Hin Hne].
  split; [exact Hne|]. split; [apply strip_no_edge_space|].
  intros Hocc.
  pose proof (split_pieces_free [nl; nl] text blank_line_sep_nonempty) as Hfree.
  rewrite Forall_forall in Hfree. apply (Hfree piece Hin).
  destruct (strip_decomp piece) as [g1 [g2 [Hd _]]].
  rewrite Hd. apply occurs_inside. exact Hocc.
Qed.

(** *** The cuts are determined by the text *)

Lemma trimmed_head sep p :
  trimmed_piece sep p -> exists c t, p = c :: t /\ isspace c = false.
Proof.
  intros (Hne & Hedge & _). destruct p as [|c t]; [discriminate|].
  exists c, t. split; [reflexivity|].
  unfold no_edge_space in Hedge. apply andb_true_iff in Hedge.
  destruct Hedge as [Hfirst _]. apply negb_true_iff in Hfirst. exact Hfirst.
Qed.

Lemma trimmed_last sep p l :
  trimmed_piece sep p -> l <> [] -> (exists a, p = a ++ l) -> ~ all_space l.
Proof.
  intros (_ & Hedge & _) Hl [a ->] Hall.
  destruct (exists_last Hl) as [l0 [c ->]].
  unfold no_edge_space in Hedge. apply andb_true_iff in Hedge.
  destruct Hedge as [_ Hlast].
  rewrite app_assoc, rev_app_distr in Hlast. simpl in Hlast.
  apply negb_true_iff in Hlast.
  unfold all_space in Hall. apply Forall_app in Hall. destruct Hall as [_ Hc].
  inversion Hc as [|? ? Hsp _]; subst. congruence.
Qed.

Lemma space_then_text g r :
  all_space (g ++ r) -> (exists c t, r = c :: t /\ isspace c = false) -> False.
Proof.
  intros Hall [c [t [-> Hc]]].
  unfold all_space in Hall. apply Forall_app in Hall. destruct Hall as [_ Hr].
  inversion Hr as [|? ? Hsp _]; subst. congruence.
Qed.

(** The whitespace before the first character that is not whitespace is
    determined. *)
Lemma leading_gap_unique g :
  forall g' r r',
    all_space g -> all_space g' ->
    (exists c t, r = c :: t /\ isspace c = false) ->
    (exists c t, r' = c :: t /\ isspace c = false) ->
    g ++ r = g' ++ r' -> g = g' /\ r = r'.
Proof.
  induction g as [|x g IH]; intros g' r r' Hg Hg' Hr Hr' E.
  - destruct g' as [|x' g']; [split; [reflexivity | exact E]|].
    exfalso. destruct Hr as [c [t [-> Hc]]]. simpl in E. injection E as -> _.
    inversion Hg' as [|? ? Hsp _]; subst. congruence.
  - destruct g' as [|x' g'].
    + exfalso. destruct Hr' as [c [t [-> Hc]]]. simpl in E. injection E as -> _.
      inversion Hg as [|? ? Hsp _]; subst. congruence.
    + simpl in E. injection E as -> E.
      inversion Hg; subst. inversion Hg'; subst.
      destruct (IH g' r r') as [-> ->]; auto.
Qed.

Lemma cut_after_nil_inv sep X : cut_after sep [] X -> all_space X.
Proof. intros H. inversion H; subst. assumption. Qed.

Lemma cut_after_cons_inv sep p ps X :
  cut_after sep (p :: ps) X ->
  exists gap rest,
    X = gap ++ p ++ rest /\ all_space gap /\ occurs sep gap
    /\ cut_after sep ps rest.
Proof. intros H. inversion H; subst. eauto 6. Qed.

(** A paragraph cannot go on past the end of another that begins where it
    begins. *)
Lemma no_longer_paragraph sep p q l ps X Y :
  trimmed_piece sep q -> q = p ++ l -> l <> [] ->
  cut_after sep ps X -> X = l ++ Y -> False.
Proof.
  intros Hq Hql Hl Hcut HX.
  assert (Hnot : ~ all_space l).
  { apply (trimmed_last sep q l Hq Hl). exists p. exact Hql. }
  destruct Hcut as [gap Hgap | gap p2 ps2 rest Hgap Hocc Hrest].
  - subst gap. apply Hnot. unfold all_space in *. apply Forall_app in Hgap. tauto.
  - apply app_eq_app in HX.
    destruct HX as [l' [[-> E]|[-> E]]].
    + apply Hnot. unfold all_space in *. apply Forall_app in Hgap. tauto.
    + destruct Hq as (_ & _ & Hfree). apply Hfree.
      destruct Hocc as [a [b ->]].
      exists (p ++ a), (b ++ l'). rewrite Hql, <- !app_assoc. reflexivity.
Qed.

Lemma same_paragraph sep p q ps qs X Y :
  trimmed_piece sep p -> trimmed_piece sep q ->
  cut_after sep ps X -> cut_after sep qs Y ->
  p ++ X = q ++ Y -> p = q /\ X = Y.
Proof.
  intros Hp Hq HX HY E. apply app_eq_app in E.
  destruct E as [l [[-> E]|[-> E]]].
  - destruct l as [|c l].
    + rewrite app_nil_r. simpl in E. auto.
    + exfalso.
      apply (no_longer_paragraph sep q (q ++ c :: l) (c :: l) qs Y X Hp eq_refl
               ltac:(discriminate) HY E).
  - destruct l as [|c l].
    + rewrite app_nil_r. simpl in E. auto.
    + exfalso.
      apply (no_longer_paragraph sep p (p ++ c :: l) (c :: l) ps X Y Hq eq_refl
               ltac:(discriminate) HX E).
Qed.

Lemma gap_then_paragraph sep gap p rest :
  trimmed_piece sep p -> ~ all_space (gap ++ p ++ rest).
Proof.
  intros Hp Hall. apply (space_then_text gap (p ++ rest) Hall).
  destruct (trimmed_head sep p Hp) as [c [t [-> Hc]]].
  exists c, (t ++ rest). auto.
Qed.

Lemma paragraph_begins sep p rest :
  trimmed_piece sep p -> exists c t, p ++ rest = c :: t /\ isspace c = false.
Proof.
  intros Hp. destruct (trimmed_head sep p Hp) as [c [t [-> Hc]]].
  exists c, (t ++ rest). auto.
Qed.

Lemma cut_after_unique sep ps :
  forall qs X,
    Forall (trimmed_piece sep) ps -> Forall (trimmed_piece sep) qs ->
    cut_after sep ps X -> cut_after sep qs X -> ps = qs.
Proof.
  induction ps as [|p ps IH]; intros qs X Hps Hqs Hcp Hcq.
  - apply cut_after_nil_inv in Hcp.
    destruct qs as [|q qs]; [reflexivity|]. exfalso.
    apply cut_after_cons_inv in Hcq.
    destruct Hcq as [gap [rest [-> _]]].
    inversion Hqs as [|? ? Hq _]; subst.
    exact (gap_then_paragraph sep gap q rest Hq Hcp).
  - inversion Hps as [|? ? Hp Hps']; subst.
    apply cut_after_cons_inv in Hcp.
    destruct Hcp as [gap [rest [-> [Hgap [_ Hrest]]]]].
    destruct qs as [|q qs].
    + exfalso. apply cut_after_nil_inv in Hcq.
      exact (gap_then_paragraph sep gap p rest Hp Hcq).
    + inversion Hqs as [|? ? Hq Hqs']; subst.
      apply cut_after_cons_inv in Hcq.
      destruct Hcq as [gap' [rest' [E [Hgap' [_ Hrest']]]]].
      destruct (leading_gap_unique gap gap' (p ++ rest) (q ++ rest') Hgap Hgap'
                  (paragraph_begins sep p rest Hp)
                  (paragraph_begins sep q rest' Hq) E) as [_ E'].
      destruct (same_paragraph sep p q ps qs rest rest' Hp Hq Hrest Hrest' E')
        as [-> ->].
      f_equal. apply (IH qs rest'); assumption.
Qed.

Lemma cut_at_unique sep ps qs text :
  Forall (trimmed_piece sep) ps -> Forall (trimmed_piece sep) qs ->
  cut_at sep ps text -> cut_at sep qs text -> ps = qs.
Proof.
  intros Hps Hqs Hcp Hcq.
  destruct ps as [|p ps], qs as [|q qs]; cbn [cut_at] in *.
  - reflexivity.
  - exfalso. destruct Hcq as [gap [rest [-> [Hgap _]]]].
    inversion Hqs as [|? ? Hq _]; subst.
    exact (gap_then_paragraph sep gap q rest Hq Hcp).
  - exfalso. destruct Hcp as [gap [rest [-> [Hgap _]]]].
    inversion Hps as [|? ? Hp _]; subst.
    exact (gap_then_paragraph sep gap p rest Hp Hcq).
  - destruct Hcp as [gap [rest [-> [Hgap Hrest]]]].
    destruct Hcq as [gap' [rest' [E [Hgap' Hrest']]]].
    inversion Hps as [|? ? Hp Hps']; subst.
    inversion Hqs as [|? ? Hq Hqs']; subst.
    destruct (leading_gap_unique gap gap' (p ++ rest) (q ++ rest') Hgap Hgap'
                (paragraph_begins sep p rest Hp)
                (paragraph_begins sep q rest' Hq) E) as [_ E'].
    destruct (same_paragraph sep p q ps qs rest rest' Hp Hq Hrest Hrest' E')
      as [-> ->].
    f_equal. apply (cut_after_unique sep ps qs rest'); assumption.
Qed.

(** C4.  For every essay text, each paragraph the splitter returns is a
    trimmed piece between blank-line boundaries: it is not empty, has no
    whitespace at either end and holds no ['\n\n']; the paragraphs lie in
    the text in output order with only whitespace around them, and the
    whitespace between two consecutive paragraphs holds ['\n\n'], so the
    text is cut at blank-line boundaries only; no other list of such
    pieces cuts the text in this way; and the empty text gives no
    paragraph. *)
Theorem paragraphs_spec (essay_text : str) :
  Forall (fun p => nonempty p = true
                   /\ no_edge_space p = true
                   /\ ~ occurs [nl; nl] p)
         (paragraphs essay_text)
  /\ laid_out (paragraphs essay_text) essay_text
  /\ cut_at [nl; nl] (paragraphs essay_text) essay_text
  /\ (forall ps,
        Forall (fun p => nonempty p = true
                         /\ no_edge_space p = true
                         /\ ~ occurs [nl; nl] p) ps ->
        cut_at [nl; nl] ps essay_text ->
        ps = paragraphs essay_text)
  /\ paragraphs [] = [].
Proof.
  split; [|split; [|split; [|split]]].
  - exact (paragraphs_trimmed essay_text).
  - apply paragraphs_laid_out.
  - apply paragraphs_cut.
  - intros ps Hps Hcut.
    apply (cut_at_unique [nl; nl] ps (paragraphs essay_text) essay_text).
    + exact Hps.
    + exact (paragraphs_trimmed essay_text).
    + exact Hcut.
    + apply paragraphs_cut.
  - apply paragraphs_blank. constructor.
Qed.

(** The essays without a paragraph are exactly those of whitespace
    only. *)
Theorem no_paragraph_iff_blank (essay_text : str) :
  paragraphs essay_text = [] <-> all_space essay_text.
Proof.
  split; [|apply paragraphs_blank].
  intros H. pose proof (paragraphs_laid_out essay_text) as Hl.
  rewrite H in Hl. inversion Hl. assumption.
Qed.

End ParagraphFacts.

(* ===================================================================== *)
(** * The company store *)
(* ===================================================================== *)

Module StoreFacts.
Import PyStr Py PipelineA.
Local Open Scope N_scope.

(** ** Dates and [ORDER BY] *)

Ltac date_cases :=
  unfold date_leb, date_compare;
  repeat match goal with
         | |- context [(?x ?= ?y)%N] =>
             destruct (N.compare_spec x y); try discriminate; try lia
         | H : context [(?x ?= ?y)%N] |- _ =>
             destruct (N.compare_spec x y); try discriminate; try lia
         end;
  try reflexivity; try discriminate.

Lemma date_leb_total a b : date_leb a b = false -> date_leb b a = true.
Proof. destruct a, b; simpl. date_cases. Qed.

Lemma date_le_trans a b c : date_le a b -> date_le b c -> date_le a c.
Proof. unfold date_le. destruct a, b, c; simpl. date_cases. Qed.

Lemma insert_by_date_perm r l : Permutation (r :: l) (insert_by_date r l).
Proof.
  induction l as [|x l IH]; simpl; [reflexivity|].
  destruct (date_leb (founded_in r) (founded_in x)).
  - reflexivity.
  - rewrite perm_swap. constructor. exact IH.
Qed.

Lemma insert_by_date_ascending r l : ascending l -> ascending (insert_by_date r l).
Proof.
  unfold ascending. induction 1 as [|x l Hl IH Hx]; simpl.
  - repeat constructor.
  - destruct (date_leb (founded_in r) (founded_in x)) eqn:E.
    + constructor; [constructor; assumption|].
      constructor; [exact E|].
      eapply Forall_impl; [|exact Hx].
      intros y Hy. eapply date_le_trans; [exact E | exact Hy].
    + apply date_leb_total in E.
      constructor; [exact IH|].
      rewrite <- (insert_by_date_perm r l). constructor; [exact E | exact Hx].
Qed.

Lemma order_by_perm l : Permutation l (order_by_founded_in l).
Proof.
  induction l as [|r l IH]; simpl; [constructor|].
  rewrite <- insert_by_date_perm. constructor. exact IH.
Qed.

Lemma order_by_ascending l : ascending (order_by_founded_in l).
Proof.
  induction l as [|r l IH]; simpl; [constructor|].
  apply insert_by_date_ascending. exact IH.
Qed.

Lemma copy_rows l :
  map (fun row => mkRow (id row) (stored_name row) (founded_in row) (founded_by row)) l = l.
Proof.
  induction l as [|[i n d f] l IH]; simpl; [reflexivity|]. rewrite IH. reflexivity.
Qed.

Example strptime_ascii_samples :
  strptime_ascii (of_string "2020-02-29") = Some (mkDate 2020 2 29)
  /\ strptime_ascii (of_string "2021-02-29") = None
  /\ strptime_ascii (of_string "1999-1-5") = Some (mkDate 1999 1 5)
  /\ strptime_ascii (of_string "1999-12-35") = None
  /\ strptime_ascii (of_string "1999-12") = None
  /\ strptime_ascii (of_string "May 8, 1886") = None.
Proof. repeat split; reflexivity. Qed.

Example varchar_samples :
  varchar 3 (of_string "abc") = Some (of_string "abc")
  /\ varchar 3 (of_string "abc  ") = Some (of_string "abc")
  /\ varchar 3 (of_string "abcd") = None.
Proof. repeat split; reflexivity. Qed.

(** ** Running the primitives *)

Lemma bind_run {W A B} (m : Py.M W A) (k : A -> Py.M W B) w :
  bind m k w = match m w with
               | (Ok a, w') => k a w'
               | (Raise e, w') => (Raise e, w')
               end.
Proof. reflexivity. Qed.

Lemma for_each_app {W X} (a b : list X) (body : X -> Py.M W unit) w :
  for_each (a ++ b) body w =
  match for_each a body w with
  | (Ok _, w1) => for_each b body w1
  | (Raise e, w1) => (Raise e, w1)
  end.
Proof.
  revert w. induction a as [|x a IH]; intros w; simpl; [reflexivity|].
  rewrite !bind_run. destruct (body x w) as [[[]|e] w1]; [apply IH | reflexivity].
Qed.

(** A body that raises ends the loop there. *)
Lemma for_each_abort {W X} (before after : list X) c (body : X -> Py.M W unit) w w1 e w2 :
  for_each before body w = (Ok tt, w1) ->
  body c w1 = (Raise e, w2) ->
  for_each (before ++ c :: after) body w = (Raise e, w2).
Proof.
  intros Hb Hc. rewrite for_each_app, Hb. simpl. rewrite bind_run, Hc. reflexivity.
Qed.

(** A [try] whose handler returns never raises. *)
Lemma try_except_returns {W A} (body : Py.M W A) (a : A) w :
  exists r w', try_except body (fun _ => ret a) w = (Ok r, w').
Proof.
  unfold try_except, ret. destruct (body w) as [[r|e] w']; eexists; eexists; reflexivity.
Qed.

Lemma connect_run db fs lg ll :
  connect (mkWorld db fs lg ll) =
  (if hd false fs then Raise OSError else Ok tt,
   mkWorld db (tl fs) (lg ++ [PgConnect]) ll).
Proof. destruct fs as [|[] fs]; reflexivity. Qed.

Lemma close_run db fs lg ll :
  close (mkWorld db fs lg ll) =
  (if hd false fs then Raise OSError else Ok tt,
   mkWorld db (tl fs) (lg ++ [PgClose]) ll).
Proof. destruct fs as [|[] fs]; reflexivity. Qed.

Lemma execute_create_table_run db fs lg ll :
  execute_create_table (mkWorld db fs lg ll) =
  if hd false fs
  then (Raise OSError, mkWorld db (tl fs) (lg ++ [PgCreateTable]) ll)
  else (Ok tt, mkWorld (create_table_if_not_exists db) (tl fs)
                       (lg ++ [PgCreateTable]) ll).
Proof. destruct fs as [|[] fs]; reflexivity. Qed.

Lemma fetch_ordered_run db fs lg ll :
  fetch_ordered (mkWorld db fs lg ll) =
  if hd false fs
  then (Raise OSError, mkWorld db (tl fs) (lg ++ [PgSelectOrdered]) ll)
  else match db with
       | None => (Raise PostgresError, mkWorld db (tl fs) (lg ++ [PgSelectOrdered]) ll)
       | Some t => (Ok (order_by_founded_in (rows t)),
                    mkWorld db (tl fs) (lg ++ [PgSelectOrdered]) ll)
       end.
Proof. destruct fs as [|[] fs]; destruct db; reflexivity. Qed.

Lemma execute_insert_run name d by_whom db fs lg ll :
  execute_insert name d by_whom (mkWorld db fs lg ll) =
  let lg' := lg ++ [PgInsert name d by_whom] in
  if sendable name && forallb sendable by_whom then
    if hd false fs then (Raise OSError, mkWorld db (tl fs) lg' ll)
    else
      match db with
      | None => (Raise PostgresError, mkWorld None (tl fs) lg' ll)
      | Some t =>
          match varchar 255 name with
          | None =>
              (Raise PostgresError,
               mkWorld (Some (mkTable (rows t) (next_id t + 1))) (tl fs) lg' ll)
          | Some name' =>
              (Ok tt,
               mkWorld (Some (mkTable (rows t ++ [mkRow (next_id t) name' d by_whom])
                                      (next_id t + 1)))
                       (tl fs) lg' ll)
          end
      end
  else (Raise UnicodeEncodeError, mkWorld db fs lg' ll).
Proof.
  unfold execute_insert. rewrite !bind_run. simpl.
  destruct (sendable name && forallb sendable by_whom); simpl; [|reflexivity].
  destruct fs as [|[] fs]; simpl; try reflexivity;
    destruct db as [t|]; simpl; try reflexivity;
    destruct (varchar 255 name); reflexivity.
Qed.

Lemma no_fault_step fs :
  no_fault fs = true -> hd false fs = false /\ no_fault (tl fs) = true.
Proof.
  destruct fs as [|[] fs]; simpl; intros H; try discriminate; auto.
Qed.

Lemma no_fault_skipn n fs : no_fault fs = true -> no_fault (skipn n fs) = true.
Proof.
  revert fs. induction n as [|n IH]; intros fs H; [exact H|].
  destruct fs as [|f fs]; [exact H|]. simpl. apply IH.
  simpl in H. apply andb_true_iff in H. apply H.
Qed.

Lemma connects_app a b : connects (a ++ b) = (connects a + connects b)%nat.
Proof. unfold connects. rewrite filter_app, length_app. reflexivity. Qed.

Section StoreRuns.

Variable strptime : str -> option date.

Lemma insert_one_run c db fs lg ll :
  insert_one strptime c (mkWorld db fs lg ll) =
  match strptime (founding_date c) with
  | Some d => execute_insert (company_name c) d (founders c) (mkWorld db fs lg ll)
  | None => (Raise ValueError, mkWorld db fs lg ll)
  end.
Proof.
  unfold insert_one. rewrite bind_run.
  destruct (strptime (founding_date c)); reflexivity.
Qed.

(** Whatever its outcome, the insert of one record logs its call, if it
    has one, and nothing else. *)
Lemma insert_one_log c w :
  pg_log (snd (insert_one strptime c w)) = pg_log w ++ insert_call strptime c.
Proof.
  destruct w as [db fs lg ll]. rewrite insert_one_run. unfold insert_call.
  destruct (strptime (founding_date c)) as [d|]; simpl.
  - rewrite execute_insert_run. cbv zeta.
    destruct (sendable (company_name c) && forallb sendable (founders c));
      [|reflexivity].
    destruct (hd false fs); [reflexivity|].
    destruct db as [t|]; [|reflexivity].
    destruct (varchar 255 (company_name c)); reflexivity.
  - rewrite app_nil_r. reflexivity.
Qed.

Lemma for_each_insert_log cs w :
  exists calls,
    pg_log (snd (for_each cs (insert_one strptime) w)) = pg_log w ++ calls
    /\ prefix_of calls (flat_map (insert_call strptime) cs)
    /\ (fst (for_each cs (insert_one strptime) w) = Ok tt ->
        calls = flat_map (insert_call strptime) cs).
Proof.
  revert w. induction cs as [|c cs IH]; intros w.
  - exists []. simpl. rewrite app_nil_r. repeat split. exists []. reflexivity.
  - simpl. rewrite bind_run.
    pose proof (insert_one_log c w) as Hlog.
    destruct (insert_one strptime c w) as [[[]|e] w1]; simpl in Hlog.
    + destruct (IH w1) as [calls [Hc [[rest Hp] Hok]]].
      exists (insert_call strptime c ++ calls). split; [|split].
      * rewrite Hc, Hlog, app_assoc. reflexivity.
      * exists rest. rewrite Hp, app_assoc. reflexivity.
      * intros H. rewrite (Hok H). reflexivity.
    + exists (insert_call strptime c). simpl. split; [exact Hlog|]. split.
      * exists (flat_map (insert_call strptime) cs). reflexivity.
      * discriminate.
Qed.

Lemma stored_form_parts c name d by_whom :
  stored_form strptime c = Some (name, d, by_whom) ->
  strptime (founding_date c) = Some d
  /\ sendable (company_name c) && forallb sendable (founders c) = true
  /\ varchar 255 (company_name c) = Some name
  /\ by_whom = founders c.
Proof.
  unfold stored_form.
  destruct (strptime (founding_date c)) as [d'|]; [|discriminate].
  destruct (sendable (company_name c) && forallb sendable (founders c));
    [|discriminate].
  destruct (varchar 255 (company_name c)) as [n|]; [|discriminate].
  intros E. injection E as <- <- <-. auto.
Qed.

(** The founders of the stored values are those of the records, in the
    same order. *)
Lemma stored_forms_founders cs values :
  stored_forms strptime cs = Some values ->
  map snd values = map founders cs.
Proof.
  revert values. induction cs as [|c cs IH]; simpl; intros values H.
  - injection H as <-. reflexivity.
  - destruct (stored_form strptime c) as [[[n d] f]|] eqn:Ec; [|discriminate].
    destruct (stored_forms strptime cs) as [vs|]; [|discriminate].
    injection H as <-. simpl. rewrite (IH vs eq_refl).
    apply stored_form_parts in Ec. destruct Ec as (_ & _ & _ & ->). reflexivity.
Qed.

Lemma stored_forms_length cs values :
  stored_forms strptime cs = Some values -> length values = length cs.
Proof.
  intros H. apply stored_forms_founders in H.
  rewrite <- (length_map snd values), H, length_map. reflexivity.
Qed.

(** With no failure ahead and storable records, the loop appends one row
    per record, in order. *)
Lemma for_each_insert_ok cs :
  forall values t fs lg ll,
    no_fault fs = true ->
    stored_forms strptime cs = Some values ->
    for_each cs (insert_one strptime) (mkWorld (Some t) fs lg ll) =
    (Ok tt,
     mkWorld (Some (mkTable (rows t ++ number_rows (next_id t) values)
                            (next_id t + N.of_nat (length values))))
             (skipn (length cs) fs)
             (lg ++ flat_map (insert_call strptime) cs) ll).
Proof.
  induction cs as [|c cs IH]; intros values t fs lg ll Hf Hv; simpl in *.
  - injection Hv as <-. simpl. rewrite !app_nil_r, N.add_0_r.
    destruct t. reflexivity.
  - destruct (stored_form strptime c) as [[[n d] f]|] eqn:Ec; [|discriminate].
    destruct (stored_forms strptime cs) as [vs|] eqn:Evs; [|discriminate].
    injection Hv as <-.
    apply stored_form_parts in Ec. destruct Ec as (Hd & Hs & Hn & ->).
    destruct (no_fault_step fs Hf) as [Hhd Htl].
    rewrite bind_run, insert_one_run, Hd, execute_insert_run. cbv zeta.
    rewrite Hs, Hhd, Hn.
    rewrite (IH vs _ (tl fs) _ ll Htl eq_refl). simpl rows. simpl next_id.
    unfold insert_call at 2. rewrite Hd.
    f_equal. f_equal.
    + f_equal. f_equal.
      * rewrite <- app_assoc. reflexivity.
      * simpl length. lia.
    + destruct fs; [simpl; rewrite skipn_nil; reflexivity | reflexivity].
    + rewrite <- app_assoc. reflexivity.
Qed.

Lemma connects_batch_calls cs : connects (batch_calls strptime cs) = 0%nat.
Proof.
  unfold batch_calls. rewrite !connects_app. simpl.
  assert (H : connects (flat_map (insert_call strptime) cs) = 0%nat).
  { induction cs as [|c cs IH]; [reflexivity|]. simpl. rewrite connects_app, IH.
    unfold insert_call. destruct (strptime (founding_date c)); reflexivity. }
  rewrite H. reflexivity.
Qed.

Lemma connects_prefix calls full :
  prefix_of calls full -> connects full = 0%nat -> connects calls = 0%nat.
Proof.
  intros [rest ->]. rewrite connects_app. lia.
Qed.

(** The insert coroutine returns in every world, and its driver calls
    are one [connect] followed by an initial segment of the batch. *)
Lemma insert_total cs w :
  exists b w' calls,
    insert_companies_to_db strptime cs w = (Ok b, w')
    /\ pg_log w' = pg_log w ++ PgConnect :: calls
    /\ prefix_of calls (batch_calls strptime cs).
Proof.
  destruct w as [db fs lg ll].
  unfold insert_companies_to_db, try_except, insert_companies_body, batch_calls.
  rewrite bind_run, connect_run.
  destruct (hd false fs).
  { exists false. eexists. exists []. simpl. repeat split.
    eexists. reflexivity. }
  rewrite bind_run, execute_create_table_run.
  destruct (hd false (tl fs)).
  { exists false. eexists. exists [PgCreateTable]. simpl. repeat split.
    - rewrite <- app_assoc. reflexivity.
    - eexists. reflexivity. }
  rewrite bind_run.
  match goal with |- context [for_each cs _ ?w2] =>
    destruct (for_each_insert_log cs w2) as [calls [Hlog [[rest Hpre] Hok]]];
    destruct (for_each cs (insert_one strptime) w2) as [[[]|e] w3]
  end; simpl in Hlog, Hok.
  - specialize (Hok eq_refl). subst calls.
    destruct w3 as [db3 fs3 lg3 ll3]. simpl in Hlog. subst lg3.
    rewrite bind_run, close_run.
    exists (if hd false fs3 then false else true). eexists.
    exists ([PgCreateTable] ++ flat_map (insert_call strptime) cs ++ [PgClose]).
    split; [destruct (hd false fs3); reflexivity|]. split.
    + simpl. repeat rewrite <- app_assoc. reflexivity.
    + exists []. rewrite app_nil_r. reflexivity.
  - exists false, w3, (PgCreateTable :: calls). split; [reflexivity|]. split.
    + rewrite Hlog. simpl. repeat rewrite <- app_assoc. reflexivity.
    + exists (rest ++ [PgClose]). simpl. rewrite Hpre, <- app_assoc. reflexivity.
Qed.

(** With no failure ahead and storable records the batch runs to its
    end. *)
Lemma insert_ok cs values t db fs lg ll :
  create_table_if_not_exists db = Some t ->
  no_fault fs = true ->
  stored_forms strptime cs = Some values ->
  insert_companies_to_db strptime cs (mkWorld db fs lg ll) =
  (Ok true,
   mkWorld (Some (mkTable (rows t ++ number_rows (next_id t) values)
                          (next_id t + N.of_nat (length values))))
           (tl (skipn (length cs) (tl (tl fs))))
           (lg ++ PgConnect :: batch_calls strptime cs) ll).
Proof.
  intros Ht Hf Hv.
  destruct (no_fault_step fs Hf) as [H1 Hf1].
  destruct (no_fault_step _ Hf1) as [H2 Hf2].
  unfold insert_companies_to_db, try_except, insert_companies_body, batch_calls.
  rewrite bind_run, connect_run, H1.
  rewrite bind_run, execute_create_table_run, H2, Ht.
  rewrite bind_run, (for_each_insert_ok cs values t _ _ ll Hf2 Hv).
  rewrite bind_run, close_run.
  assert (Hf3 : no_fault (skipn (length cs) (tl (tl fs))) = true)
    by (apply no_fault_skipn; exact Hf2).
  destruct (no_fault_step _ Hf3) as [H3 _]. rewrite H3.
  unfold ret. simpl. repeat rewrite <- app_assoc. reflexivity.
Qed.

End StoreRuns.

Lemma get_stored_run db fs lg ll :
  get_stored_companies (mkWorld db fs lg ll) =
  if hd false fs
  then (Ok [], mkWorld db (tl fs) (lg ++ [PgConnect]) ll)
  else if hd false (tl fs)
  then (Ok [], mkWorld db (tl (tl fs)) ((lg ++ [PgConnect]) ++ [PgSelectOrdered]) ll)
  else match db with
       | None =>
           (Ok [], mkWorld db (tl (tl fs)) ((lg ++ [PgConnect]) ++ [PgSelectOrdered]) ll)
       | Some t =>
           (Ok (if hd false (tl (tl fs)) then [] else order_by_founded_in (rows t)),
            mkWorld db (tl (tl (tl fs)))
                    (((lg ++ [PgConnect]) ++ [PgSelectOrdered]) ++ [PgClose]) ll)
       end.
Proof.
  unfold get_stored_companies, try_except, get_stored_body.
  rewrite bind_run, connect_run.
  destruct (hd false fs); [reflexivity|].
  rewrite bind_run, fetch_ordered_run.
  destruct (hd false (tl fs)); [reflexivity|].
  destruct db as [t|]; [|reflexivity].
  rewrite bind_run, close_run.
  destruct (hd false (tl (tl fs))); [reflexivity|].
  unfold ret. rewrite copy_rows. reflexivity.
Qed.

Lemma no_fault_firstn3 fs :
  no_fault (firstn 3 fs) =
  negb (hd false fs) && negb (hd false (tl fs)) && negb (hd false (tl (tl fs))).
Proof. destruct fs as [|[] [|[] [|[] fs]]]; reflexivity. Qed.

Lemma row_values_number_rows n values :
  map row_values (number_rows n values) = values.
Proof.
  revert n. induction values as [|[[name d] f] values IH]; intros n; simpl;
    [reflexivity|]. rewrite IH. reflexivity.
Qed.

(** ** The claims about the store *)

(** C1.  For every sequence of records and every state of the server,
    inserting the records and then listing returns (without raising) a
    sequence in ascending order of [founded_in], whatever the order of
    insertion; when no driver call fails and every record can be stored,
    the insert reports success and the listing holds exactly the rows
    that were there plus one row per inserted record. *)
Theorem insert_then_list_ascending
  (strptime : str -> option date) (companies : list CompanyInfo) (w : world) :
  exists ok w1 listed w2,
    insert_companies_to_db strptime companies w = (Ok ok, w1)
    /\ get_stored_companies w1 = (Ok listed, w2)
    /\ ascending listed
    /\ (forall t values,
          create_table_if_not_exists (pg w) = Some t ->
          no_fault (faults w) = true ->
          stored_forms strptime companies = Some values ->
          ok = true
          /\ Permutation (map row_values (rows t) ++ values)
                         (map row_values listed)).
Proof.
  destruct (insert_total strptime companies w) as [ok [w1 [calls [Hi _]]]].
  exists ok, w1.
  destruct w1 as [db1 fs1 lg1 ll1] eqn:Ew1.
  pose proof (get_stored_run db1 fs1 lg1 ll1) as Hg.
  assert (Hlisted : exists listed w2,
             get_stored_companies (mkWorld db1 fs1 lg1 ll1) = (Ok listed, w2)
             /\ (listed = []
                 \/ exists t, db1 = Some t /\ no_fault (firstn 3 fs1) = true
                              /\ listed = order_by_founded_in (rows t))).
  { rewrite Hg, no_fault_firstn3.
    destruct (hd false fs1); [eauto 6|].
    destruct (hd false (tl fs1)); [eauto 6|].
    destruct db1 as [t|]; [|eauto 6].
    destruct (hd false (tl (tl fs1))); [eauto 6|].
    eexists. eexists. split; [reflexivity|]. right. exists t. auto. }
  destruct Hlisted as [listed [w2 [Hl Hshape]]].
  exists listed, w2. split; [exact Hi|]. split; [exact Hl|]. split.
  - destruct Hshape as [->|[t [_ [_ ->]]]]; [constructor | apply order_by_ascending].
  - intros t values Ht Hf Hv.
    destruct w as [db fs lg ll]. simpl in Ht, Hf.
    rewrite (insert_ok strptime companies values t db fs lg ll Ht Hf Hv) in Hi.
    injection Hi as <- <- <- <- <-. split; [reflexivity|].
    rewrite Hg in Hl.
    assert (Hf' : no_fault (tl (skipn (length companies) (tl (tl fs)))) = true).
    { destruct (no_fault_step fs Hf) as [_ H1].
      destruct (no_fault_step _ H1) as [_ H2].
      apply (no_fault_skipn (length companies)) in H2.
      destruct (no_fault_step _ H2) as [_ H3]. exact H3. }
    destruct (no_fault_step _ Hf') as [Ha Hf1]. rewrite Ha in Hl.
    destruct (no_fault_step _ Hf1) as [Hb Hf2]. rewrite Hb in Hl.
    destruct (no_fault_step _ Hf2) as [Hc _]. rewrite Hc in Hl.
    injection Hl as <- _.
    rewrite <- (order_by_perm (rows t ++ number_rows (next_id t) values)).
    rewrite map_app, row_values_number_rows. reflexivity.
Qed.

(** A fresh database, three records inserted out of date order. *)
Lemma insert_then_list_ascending_witness :
  exists w1 listed w2 values,
    insert_companies_to_db strptime_ascii [stripe; coca_cola; sony] fresh_world
      = (Ok true, w1)
    /\ get_stored_companies w1 = (Ok listed, w2)
    /\ ascending listed
    /\ stored_forms strptime_ascii [stripe; coca_cola; sony] = Some values
    /\ Permutation values (map row_values listed).
Proof.
  destruct (insert_then_list_ascending strptime_ascii [stripe; coca_cola; sony]
                                       fresh_world)
    as [ok [w1 [listed [w2 [Hi [Hl [Hs Hc]]]]]]].
  edestruct (Hc (mkTable [] 1)) as [Hok Hperm];
    [reflexivity | reflexivity | vm_compute; reflexivity |].
  subst ok. exists w1, listed, w2. eexists.
  split; [exact Hi|]. split; [exact Hl|]. split; [exact Hs|].
  split; [vm_compute; reflexivity | exact Hperm].
Defined.

(** C2.  For every sequence of records and every world, the insert
    coroutine returns a boolean and never raises; it opens exactly one
    connection, and what follows on it is an initial segment of: the
    schema statement, one [INSERT] per record in order, [close].  When no
    call fails and every record can be stored it returns [True], the table
    gains one row per record in order, and each row keeps the founders in
    the order given.  When the insert of one record raises (for any
    reason) after the records before it went through, the function
    returns [False] in the world of that failure: nothing after it is
    attempted.  A founding date that does not parse is such a failure. *)
Theorem insert_companies_to_db_spec
  (strptime : str -> option date) (companies : list CompanyInfo) (w : world) :
  (exists b w' calls,
      insert_companies_to_db strptime companies w = (Ok b, w')
      /\ pg_log w' = pg_log w ++ PgConnect :: calls
      /\ prefix_of calls (batch_calls strptime companies)
      /\ connects (pg_log w') = (connects (pg_log w) + 1)%nat)
  /\ (forall t values,
        create_table_if_not_exists (pg w) = Some t ->
        no_fault (faults w) = true ->
        stored_forms strptime companies = Some values ->
        exists w',
          insert_companies_to_db strptime companies w = (Ok true, w')
          /\ pg w' = Some (mkTable (rows t ++ number_rows (next_id t) values)
                                   (next_id t + N.of_nat (length values)))
          /\ map snd values = map founders companies
          /\ pg_log w' = pg_log w ++ PgConnect :: batch_calls strptime companies)
  /\ (forall before c after w0 w1 e w2,
        companies = before ++ c :: after ->
        (connect ;;; execute_create_table) w = (Ok tt, w0) ->
        for_each before (insert_one strptime) w0 = (Ok tt, w1) ->
        insert_one strptime c w1 = (Raise e, w2) ->
        insert_companies_to_db strptime companies w = (Ok false, w2))
  /\ (forall c w1,
        strptime (founding_date c) = None ->
        insert_one strptime c w1 = (Raise ValueError, w1)).
Proof.
  split; [|split; [|split]].
  - destruct (insert_total strptime companies w) as [b [w' [calls [Hi [Hlog Hpre]]]]].
    exists b, w', calls. repeat split; try assumption.
    rewrite Hlog, connects_app. change (PgConnect :: calls) with ([PgConnect] ++ calls).
    rewrite connects_app.
    rewrite (connects_prefix calls _ Hpre (connects_batch_calls strptime companies)).
    reflexivity.
  - intros t values Ht Hf Hv. destruct w as [db fs lg ll]. simpl in Ht, Hf.
    eexists. split; [exact (insert_ok strptime companies values t db fs lg ll Ht Hf Hv)|].
    simpl. split; [reflexivity|]. split; [|reflexivity].
    exact (stored_forms_founders strptime companies values Hv).
  - intros before c after w0 w1 e w2 -> H0 H1 Hc.
    unfold insert_companies_to_db, try_except, insert_companies_body.
    rewrite bind_run in H0. rewrite bind_run.
    destruct (connect w) as [[[]|e0] wc]; [|discriminate].
    rewrite bind_run. rewrite H0.
    rewrite bind_run, (for_each_abort before after c _ w0 w1 e w2 H1 Hc).
    reflexivity.
  - intros c w1 H. unfold insert_one. rewrite bind_run, H. reflexivity.
Qed.

(** A batch of three whose second record has no parsable date: the first
    is stored, the third is never sent.  Without that record the batch
    goes through. *)
Lemma insert_companies_to_db_spec_witness :
  (exists w2 row,
      insert_companies_to_db strptime_ascii [coca_cola; undated; sony] fresh_world
        = (Ok false, w2)
      /\ pg w2 = Some (mkTable [row] 2)
      /\ stored_name row = company_name coca_cola
      /\ founded_by row = founders coca_cola
      /\ pg_log w2 = [PgConnect; PgCreateTable;
                      PgInsert (company_name coca_cola) (mkDate 1886 5 8)
                               (founders coca_cola)])
  /\ (exists w2,
        insert_companies_to_db strptime_ascii [coca_cola; sony] fresh_world
          = (Ok true, w2)
        /\ pg w2 = Some (mkTable
                           [mkRow 1 (company_name coca_cola) (mkDate 1886 5 8)
                                  (founders coca_cola);
                            mkRow 2 (company_name sony) (mkDate 1946 5 7)
                                  (founders sony)] 3)).
Proof.
  split.
  - destruct (insert_companies_to_db_spec strptime_ascii
                [coca_cola; undated; sony] fresh_world) as (_ & _ & Habort & Hdate).
    eexists. eexists. split.
    + eapply (Habort [coca_cola] undated [sony]).
      * reflexivity.
      * vm_compute. reflexivity.
      * vm_compute. reflexivity.
      * apply Hdate. vm_compute. reflexivity.
    + vm_compute. repeat split.
  - destruct (insert_companies_to_db_spec strptime_ascii
                [coca_cola; sony] fresh_world) as (_ & Hok & _).
    edestruct (Hok (mkTable [] 1)) as [w2 [Hrun [Hpg _]]];
      [reflexivity | reflexivity | vm_compute; reflexivity |].
    exists w2. split; [exact Hrun | exact Hpg].
Defined.

(** C3.  In every world the listing returns a sequence and does not
    raise.  The sequence is in ascending order of [founded_in]; when the
    table exists and none of the three driver calls fails it holds all
    rows of the table; it is empty when the table is empty, when the
    table does not exist, and when the connection, the query or the close
    fails.  The stored rows are left as they were. *)
Theorem get_stored_companies_spec (w : world) :
  exists listed w',
    get_stored_companies w = (Ok listed, w')
    /\ ascending listed
    /\ (forall t, pg w = Some t -> no_fault (firstn 3 (faults w)) = true ->
                  Permutation (rows t) listed)
    /\ (forall t, pg w = Some t -> rows t = [] -> listed = [])
    /\ (pg w = None -> listed = [])
    /\ (no_fault (firstn 3 (faults w)) = false -> listed = [])
    /\ pg w' = pg w.
Proof.
  destruct w as [db fs lg ll]. cbn [pg faults].
  rewrite get_stored_run, no_fault_firstn3.
  destruct (hd false fs).
  { eexists. eexists. split; [reflexivity|]. simpl.
    repeat split; try constructor; try discriminate. }
  destruct (hd false (tl fs)).
  { eexists. eexists. split; [reflexivity|]. simpl.
    repeat split; try constructor; try discriminate. }
  destruct db as [t|].
  - destruct (hd false (tl (tl fs))).
    + eexists. eexists. split; [reflexivity|]. simpl.
      repeat split; try constructor; try discriminate.
    + eexists. eexists. split; [reflexivity|]. simpl.
      split; [apply order_by_ascending|].
      split; [intros t0 E _; injection E as <-; apply order_by_perm|].
      split; [intros t0 E Hr; injection E as <-; rewrite Hr; reflexivity|].
      repeat split; discriminate.
  - eexists. eexists. split; [reflexivity|]. simpl.
    repeat split; try constructor; try discriminate.
Qed.

(** A table of two rows stored out of date order, on a healthy server. *)
Lemma get_stored_companies_spec_witness :
  exists listed w',
    get_stored_companies
      (mkWorld (Some (mkTable [mkRow 1 (company_name sony) (mkDate 1946 5 7)
                                     (founders sony);
                               mkRow 2 (company_name coca_cola) (mkDate 1886 5 8)
                                     (founders coca_cola)] 3))
               [] [] []) = (Ok listed, w')
    /\ map id listed = [2; 1]
    /\ Permutation [mkRow 1 (company_name sony) (mkDate 1946 5 7) (founders sony);
                    mkRow 2 (company_name coca_cola) (mkDate 1886 5 8)
                          (founders coca_cola)] listed.
Proof.
  match goal with |- context [get_stored_companies ?w] =>
    destruct (get_stored_companies_spec w) as [listed [w' [Hl [_ [Hall _]]]]]
  end.
  exists listed, w'. split; [exact Hl|]. split.
  - vm_compute in Hl. injection Hl as <- _. reflexivity.
  - apply (Hall _ eq_refl). reflexivity.
Defined.

Lemma create_table_idem db :
  create_table_if_not_exists (create_table_if_not_exists db)
  = create_table_if_not_exists db.
Proof. destruct db; reflexivity. Qed.

(** A batch without records only ensures the schema. *)
Lemma insert_nothing strptime t db fs lg ll :
  create_table_if_not_exists db = Some t ->
  no_fault fs = true ->
  insert_companies_to_db strptime [] (mkWorld db fs lg ll) =
  (Ok true,
   mkWorld (Some t) (tl (tl (tl fs)))
           (lg ++ [PgConnect; PgCreateTable; PgClose]) ll).
Proof.
  intros Ht Hf.
  rewrite (insert_ok strptime [] [] t db fs lg ll Ht Hf eq_refl).
  simpl. rewrite app_nil_r, N.add_0_r. destruct t. reflexivity.
Qed.

(** C7.  Executing the schema statement any number of times in
    succession never alters a table that already exists; the database
    afterwards is the one before or the one a single execution gives;
    and when no call fails every execution succeeds and, for one or more
    executions, the result is that of a single one.  Through the only
    caller of the statement: two runs of [insert_companies_to_db] without
    records both succeed, and the second leaves the database as the first
    left it. *)
Theorem ensure_schema_idempotent (n : nat) (w : world) :
  (exists r w',
    ensure_schema_times n w = (r, w')
    /\ (forall t, pg w = Some t -> pg w' = Some t)
    /\ (pg w' = pg w \/ pg w' = create_table_if_not_exists (pg w))
    /\ (no_fault (faults w) = true ->
        r = Ok tt
        /\ (n <> 0%nat -> pg w' = create_table_if_not_exists (pg w))
        /\ pg_log w' = pg_log w ++ repeat PgCreateTable n)
    /\ create_table_if_not_exists (create_table_if_not_exists (pg w))
       = create_table_if_not_exists (pg w))
  /\ (no_fault (faults w) = true ->
      forall strptime,
      exists w1 w2,
        insert_companies_to_db strptime [] w = (Ok true, w1)
        /\ insert_companies_to_db strptime [] w1 = (Ok true, w2)
        /\ pg w1 = create_table_if_not_exists (pg w)
        /\ pg w2 = pg w1).
Proof.
  split.
  2:{ intros Hf strptime. destruct w as [db fs lg ll]. simpl in Hf. simpl pg.
      assert (Ht : exists t, create_table_if_not_exists db = Some t)
        by (destruct db; eexists; reflexivity).
      destruct Ht as [t Ht].
      rewrite (insert_nothing strptime t db fs lg ll Ht Hf).
      eexists. eexists. split; [reflexivity|].
      rewrite (insert_nothing strptime t (Some t) _ _ ll eq_refl).
      - split; [reflexivity|]. simpl. rewrite Ht. split; reflexivity.
      - apply (no_fault_skipn 3 fs) in Hf.
        destruct fs as [|f1 [|f2 [|f3 fs']]]; try reflexivity. exact Hf. }
  unfold ensure_schema_times.
  revert w. induction n as [|n IH]; intros [db fs lg ll]; simpl.
  - exists (Ok tt). eexists. split; [reflexivity|]. simpl.
    rewrite app_nil_r. repeat split; auto; try congruence.
    destruct db; reflexivity.
  - rewrite bind_run, execute_create_table_run.
    destruct (hd false fs) eqn:Hhd.
    + eexists. eexists. split; [reflexivity|]. simpl.
      split; [auto|]. split; [auto|]. split.
      * intros Hf. destruct (no_fault_step fs Hf) as [Hh _]. congruence.
      * destruct db; reflexivity.
    + match goal with |- context [for_each _ _ ?w1] =>
        destruct (IH w1) as [r [w' [Hrun [Hkeep [Hor [Hok Hidem]]]]]]
      end.
      simpl in Hkeep, Hor, Hok, Hidem.
      exists r, w'. split; [exact Hrun|].
      split.
      { intros t ->. apply Hkeep. reflexivity. }
      split.
      { right. destruct Hor as [->| ->]; [reflexivity | apply create_table_idem]. }
      split.
      { intros Hf. destruct (no_fault_step fs Hf) as [_ Htl].
        destruct (Hok Htl) as [Hr [Hpg Hlog]].
        split; [exact Hr|]. split.
        - intros _. destruct n as [|n'].
          + simpl in Hrun. injection Hrun as _ <-. reflexivity.
          + rewrite Hpg by discriminate. apply create_table_idem.
        - rewrite Hlog, <- app_assoc. reflexivity. }
      apply create_table_idem.
Qed.

(** Twice on a table that holds one row. *)
Lemma ensure_schema_idempotent_witness :
  exists w',
    ensure_schema_times 2
      (mkWorld (Some (mkTable [mkRow 1 (company_name sony) (mkDate 1946 5 7)
                                     (founders sony)] 2)) [] [] [])
      = (Ok tt, w')
    /\ pg w' = Some (mkTable [mkRow 1 (company_name sony) (mkDate 1946 5 7)
                                    (founders sony)] 2)
    /\ pg_log w' = [PgCreateTable; PgCreateTable].
Proof.
  match goal with |- context [ensure_schema_times 2 ?w] =>
    destruct (ensure_schema_idempotent 2 w) as [[r [w' [Hrun [Hkeep [_ [Hok _]]]]]] _]
  end.
  destruct (Hok eq_refl) as [-> [_ Hlog]].
  exists w'. split; [exact Hrun|]. split; [apply Hkeep; reflexivity | exact Hlog].
Defined.

End StoreFacts.

(* ===================================================================== *)
(** * The extraction pipeline *)
(* ===================================================================== *)

Module ExtractionFacts.
Import PyStr Py PipelineA StoreFacts.

Section Loop.

Variable ainvoke : list str -> str -> option ExtractedCompanies.

Lemma harvest_app history a b :
  harvest ainvoke history (a ++ b) =
  harvest ainvoke history a ++ harvest ainvoke (history ++ a) b.
Proof.
  revert history. induction a as [|p a IH]; intros history; simpl.
  - rewrite app_nil_r. reflexivity.
  - rewrite IH, <- !app_assoc. reflexivity.
Qed.

Lemma extract_loop_run ps :
  forall acc db fs lg ll,
    extract_loop ainvoke ps acc (mkWorld db fs lg ll) =
    (Ok (acc ++ harvest ainvoke ll ps), mkWorld db fs lg (ll ++ ps)).
Proof.
  induction ps as [|p ps IH]; intros acc db fs lg ll; simpl.
  - rewrite !app_nil_r. reflexivity.
  - rewrite bind_run. unfold try_except at 1. rewrite bind_run.
    unfold chain_ainvoke at 1. cbn [pg faults pg_log llm_log].
    destruct (ainvoke ll p) as [result|].
    + unfold ret at 1. rewrite IH, <- !app_assoc. reflexivity.
    + unfold ret at 1. rewrite IH, <- !app_assoc. reflexivity.
Qed.

(** C6.  For every sequence of paragraphs the loop returns: each
    paragraph is sent to the chain exactly once, in order, and the result
    is what was collected before followed by the answers in order, a
    paragraph whose call raised contributing nothing.  So when the call
    for [p] raises, the records are those of the paragraphs before [p]
    followed by those of the paragraphs after it. *)
Theorem extract_loop_tolerates_failure
  (ps : list str) (all_companies : list CompanyInfo) (w : world) :
  extract_loop ainvoke ps all_companies w =
    (Ok (all_companies ++ harvest ainvoke (llm_log w) ps),
     mkWorld (pg w) (faults w) (pg_log w) (llm_log w ++ ps))
  /\ (forall before p after,
        ps = before ++ p :: after ->
        ainvoke (llm_log w ++ before) p = None ->
        harvest ainvoke (llm_log w) ps =
          harvest ainvoke (llm_log w) before
          ++ harvest ainvoke (llm_log w ++ before ++ [p]) after).
Proof.
  split.
  - destruct w as [db fs lg ll]. apply extract_loop_run.
  - intros before p after -> Hp.
    rewrite harvest_app. simpl. rewrite Hp. simpl.
    rewrite <- app_assoc. reflexivity.
Qed.

End Loop.

(** A chain that fails on the second of three paragraphs. *)
Lemma extract_loop_tolerates_failure_witness :
  let chain := fun (history : list str) (p : str) =>
                 if str_eqb p (of_string "two") then None
                 else if str_eqb p (of_string "one")
                 then Some (mkExtractedCompanies [coca_cola])
                 else Some (mkExtractedCompanies [sony; stripe]) in
  extract_loop chain [of_string "one"; of_string "two"; of_string "three"] []
               fresh_world
  = (Ok [coca_cola; sony; stripe],
     mkWorld None [] [] [of_string "one"; of_string "two"; of_string "three"]).
Proof.
  intros chain.
  destruct (extract_loop_tolerates_failure chain
              [of_string "one"; of_string "two"; of_string "three"] []
              fresh_world) as [Hrun Hfail].
  rewrite Hrun.
  rewrite (Hfail [of_string "one"] (of_string "two") [of_string "three"]
                 eq_refl eq_refl).
  reflexivity.
Defined.

(** C5.  For every essay that is empty or holds only whitespace, under
    any parser, any chain and any state of the server: there is no
    paragraph, the loop collects no record, and the pipeline returns the
    empty list in an unchanged world, that is, without a call to the
    chain and without a call on the database driver. *)
Theorem blank_essay_stores_nothing
  (strptime : str -> option date)
  (chain_built : option str -> bool)
  (ainvoke : list str -> str -> option ExtractedCompanies)
  (essay_text : str) (openai_api_key : option str) (w : world) :
  all_space essay_text ->
  paragraphs essay_text = []
  /\ extract_loop ainvoke (paragraphs essay_text) [] w = (Ok [], w)
  /\ extract_and_store_companies strptime chain_built ainvoke
       essay_text openai_api_key w = (Ok [], w).
Proof.
  intros Hblank.
  pose proof (ParagraphFacts.paragraphs_blank essay_text Hblank) as Hp.
  split; [exact Hp|]. split.
  - rewrite Hp. reflexivity.
  - unfold extract_and_store_companies, try_except, extract_and_store_body.
    rewrite bind_run. destruct (chain_built openai_api_key).
    + unfold ret at 1. rewrite bind_run, Hp. reflexivity.
    + reflexivity.
Qed.

(** The pipeline returns in every world, for every essay, key, parser
    and chain: no exception leaves [extract_and_store_companies]. *)
Theorem extract_and_store_returns
  (strptime : str -> option date)
  (chain_built : option str -> bool)
  (ainvoke : list str -> str -> option ExtractedCompanies)
  (essay_text : str) (openai_api_key : option str) (w : world) :
  exists stored w',
    extract_and_store_companies strptime chain_built ainvoke
      essay_text openai_api_key w = (Ok stored, w').
Proof.
  unfold extract_and_store_companies. apply try_except_returns.
Qed.

(** Spaces, a blank line, a tab and a newline. *)
Lemma blank_essay_stores_nothing_witness :
  extract_and_store_companies strptime_ascii (fun _ => true)
    (fun _ _ => Some (mkExtractedCompanies [coca_cola])) [32; nl; nl; 9; nl]%N None fresh_world
  = (Ok [], fresh_world).
Proof.
  apply (blank_essay_stores_nothing strptime_ascii (fun _ => true)
           (fun _ _ => Some (mkExtractedCompanies [coca_cola])) [32; nl; nl; 9; nl]%N None fresh_world).
  repeat constructor.
Defined.

End ExtractionFacts.

(* ===================================================================== *)
(** * The vector index *)
(* ===================================================================== *)

Module IndexFacts.
Import PyStr Py PipelineB.

Section Index.

Variable Meta : Type.
Variable Emb : Type.
Variable embed : str -> option Emb.

Lemma embed_documents_length texts embs :
  embed_documents embed texts = Some embs -> length embs = length texts.
Proof.
  revert embs. induction texts as [|t ts IH]; simpl; intros embs H.
  - injection H as <-. reflexivity.
  - destruct (embed t); [|discriminate].
    destruct (embed_documents embed ts) as [es|]; [|discriminate].
    injection H as <-. simpl. rewrite (IH es eq_refl). reflexivity.
Qed.

Lemma seq_shift_add_0 n len :
  map (fun k => (n + k)%nat) (seq 0 len) = seq n len.
Proof.
  revert n. induction len as [|len IH]; intros n; simpl; [reflexivity|].
  rewrite Nat.add_0_r. f_equal.
  rewrite <- seq_shift, map_map, <- (IH (S n)).
  apply map_ext. intros k. lia.
Qed.

Lemma fresh_entries_pairs next (docs : list (Document Meta)) (embs : list Emb) :
  map entry_pair (fresh_entries next docs embs) = combine docs embs.
Proof.
  revert next embs. induction docs as [|d docs IH]; intros next [|e embs];
    simpl; try reflexivity.
  rewrite IH. reflexivity.
Qed.

Lemma fresh_entries_ids next (docs : list (Document Meta)) (embs : list Emb) :
  length embs = length docs ->
  map entry_id (fresh_entries next docs embs)
  = map (fun k => (next + N.of_nat k)%N) (seq 0 (length docs)).
Proof.
  revert next embs. induction docs as [|d docs IH]; intros next [|e embs] H;
    simpl in *; try discriminate; [reflexivity|].
  rewrite N.add_0_r. f_equal.
  rewrite IH by lia. rewrite <- seq_shift, map_map.
  apply map_ext. intros k. lia.
Qed.

(** C10.  For every non-empty sequence of chunks whose texts can be
    embedded, and every state of the collection, one run of
    [add_chunks_to_vector_db] returns and leaves in [rag_exercise] what
    was there followed by the (chunk, embedding) pairs of the chunks,
    followed by the same pairs once more; the two copies carry ids that
    differ from each other. *)
Theorem add_chunks_stores_two_copies
  (chunks : list (Document Meta)) (embs : list Emb) (st : chroma Meta Emb) :
  chunks <> [] ->
  embed_documents embed (map page_content chunks) = Some embs ->
  exists st',
    add_chunks_to_vector_db embed chunks st = (Ok tt, st')
    /\ map entry_pair (rag_exercise st')
       = map entry_pair (rag_exercise st)
         ++ combine chunks embs ++ combine chunks embs
    /\ length (rag_exercise st')
       = (length (rag_exercise st) + 2 * length chunks)%nat
    /\ map entry_id (skipn (length (rag_exercise st)) (rag_exercise st'))
       = map (fun k => (next_uuid st + N.of_nat k)%N)
             (seq 0 (2 * length chunks)).
Proof.
  intros Hne Hemb.
  pose proof (embed_documents_length _ _ Hemb) as Hlen.
  rewrite length_map in Hlen.
  destruct st as [coll next].
  destruct chunks as [|ch chunks']; [congruence|].
  remember (ch :: chunks') as chunks eqn:Hch.
  unfold add_chunks_to_vector_db. rewrite StoreFacts.bind_run.
  assert (Hadd : forall coll0 next0,
             add_texts embed chunks (mkChroma coll0 next0)
             = (Ok tt, mkChroma (coll0 ++ fresh_entries next0 chunks embs)
                                (next0 + N.of_nat (length chunks))%N)).
  { intros coll0 next0. unfold add_texts. rewrite Hemb.
    cbn [rag_exercise next_uuid]. rewrite Hch. reflexivity. }
  assert (Hfrom : from_documents embed chunks = add_texts embed chunks)
    by (rewrite Hch; reflexivity).
  rewrite Hfrom, Hadd. unfold add_documents. rewrite Hadd.
  eexists. split; [reflexivity|]. cbn [rag_exercise next_uuid].
  split; [|split].
  - rewrite !map_app, !fresh_entries_pairs, <- app_assoc. reflexivity.
  - rewrite !length_app.
    rewrite <- !(length_map entry_pair (fresh_entries _ chunks embs)).
    rewrite !fresh_entries_pairs, !length_combine, Hlen. lia.
  - rewrite <- app_assoc, skipn_app, Nat.sub_diag, skipn_all. simpl skipn.
    rewrite app_nil_l, map_app, !fresh_entries_ids by exact Hlen.
    replace (2 * length chunks)%nat with (length chunks + length chunks)%nat by lia.
    rewrite seq_app, map_app. f_equal.
    rewrite <- (seq_shift_add_0 (0 + length chunks)), map_map.
    apply map_ext. intros k. lia.
Qed.

End Index.

(** Two chunks of one document, into an empty collection; the
    embedding of a text stands for its length here. *)
Lemma add_chunks_stores_two_copies_witness :
  let embed := fun t : str => Some (N.of_nat (length t)) in
  let a := mkDocument (of_string "alpha") (of_string "handbook") in
  let b := mkDocument (of_string "be") (of_string "handbook") in
  exists st',
    add_chunks_to_vector_db embed [a; b] (mkChroma [] 0%N) = (Ok tt, st')
    /\ map entry_pair (rag_exercise st')
       = [(a, 5%N); (b, 2%N); (a, 5%N); (b, 2%N)]
    /\ map entry_id (rag_exercise st') = [0; 1; 2; 3]%N.
Proof.
  intros embed a b.
  destruct (add_chunks_stores_two_copies str N embed [a; b] [5; 2]%N (mkChroma [] 0%N))
    as [st' [Hrun [Hpairs [_ Hids]]]]; [discriminate | reflexivity |].
  exists st'. split; [exact Hrun|]. split; [exact Hpairs | exact Hids].
Defined.

End IndexFacts.

(* ===================================================================== *)
(** * The interactive loop *)
(* ===================================================================== *)

Module LoopFacts.
Import PyStr Py PipelineB.

Lemma any_case_quit s : any_case quit s -> is_quit s = true.
Proof.
  unfold any_case, quit. simpl. intros H.
  repeat match goal with
         | H : Forall2 _ (_ :: _) _ |- _ => inversion H; subst; clear H
         | H : Forall2 _ [] _ |- _ => inversion H; subst; clear H
         end.
  repeat match goal with
         | H : _ \/ _ |- _ => destruct H as [H|H]
         end;
    repeat match goal with
           | H : (?c + 32 = ?d)%N |- _ =>
               assert (c = (d - 32)%N) by lia; clear H; subst c
           | H : ?c = _ |- _ => subst c
           end; reflexivity.
Qed.

Lemma any_case_q s : any_case q s -> is_quit s = true.
Proof.
  unfold any_case, q. simpl. intros H.
  repeat match goal with
         | H : Forall2 _ (_ :: _) _ |- _ => inversion H; subst; clear H
         | H : Forall2 _ [] _ |- _ => inversion H; subst; clear H
         end.
  repeat match goal with
         | H : _ \/ _ |- _ => destruct H as [H|H]
         end;
    repeat match goal with
           | H : (?c + 32 = ?d)%N |- _ =>
               assert (c = (d - 32)%N) by lia; clear H; subst c
           | H : ?c = _ |- _ => subst c
           end; reflexivity.
Qed.

Section Loop.

Variable invoke : list str -> str -> option str.

(** The loop of the source and the machine end in the same place. *)
Lemma question_loop_machine lines :
  forall c,
  exists n,
    (n <= 2 * length lines + 1)%nat
    /\ steps invoke n (mkMachine AwaitingInput lines c)
       = mkMachine (outcome_state (fst (question_loop invoke lines c)))
                   (fst (snd (question_loop invoke lines c)))
                   (snd (snd (question_loop invoke lines c))).
Proof.
  induction lines as [|line rest IH]; intros c.
  - exists 1%nat. split; [simpl; lia | reflexivity].
  - cbn [question_loop].
    destruct (is_quit (strip line)) eqn:Hq.
    + exists 1%nat. split; [simpl; lia|].
      cbn [steps step state unread sess]. rewrite Hq. reflexivity.
    + destruct (strip line) as [|ch question] eqn:Hs.
      * destruct (IH (print Prompt c)) as [n [Hn Hrun]].
        exists (S n). split; [simpl; lia|].
        cbn [steps step state unread sess]. rewrite Hs, Hq. exact Hrun.
      * destruct (IH (answer invoke (ch :: question) (print Prompt c)))
          as [n [Hn Hrun]].
        exists (S (S n)). split; [simpl; lia|].
        cbn [steps step state unread sess]. rewrite Hs, Hq.
        cbn [step state unread sess]. exact Hrun.
Qed.

Lemma steps_terminal n m :
  terminal (state m) = true -> steps invoke n m = m.
Proof.
  revert m. induction n as [|n IH]; intros m H; [reflexivity|].
  simpl. assert (Hm : step invoke m = m).
  { unfold step. destruct (state m); try discriminate; reflexivity. }
  rewrite Hm. apply IH. exact H.
Qed.

Lemma question_loop_outcome lines :
  forall c,
    fst (question_loop invoke lines c) = Ok tt
    \/ fst (question_loop invoke lines c) = Raise EOFError.
Proof.
  induction lines as [|line rest IH]; intros c; cbn [question_loop].
  - right. reflexivity.
  - destruct (is_quit (strip line)); [left; reflexivity|].
    destruct (strip line); apply IH.
Qed.

(** C9, as the code has it.  From [AwaitingInput], for every session and
    every content of standard input:
    - a line that, once stripped, spells [quit] or [q] in any letter case
      leads to [Exited], and the loop of the source returns there;
    - a line of whitespace only leads back to [AwaitingInput] with the
      list of questions asked unchanged;
    - any other line leads to [Answering] with the stripped line, and from
      there, the chain invoked once with it, back to [AwaitingInput];
    - at the end of input, [input] raises [EOFError], which nothing
      catches: the machine ends in [Crashed EOFError], not in [Exited];
    - every run reaches, in at most two transitions per line and one
      more, the terminal state that the loop of the source ends in, which
      is [Exited] or [Crashed EOFError]. *)
Theorem interactive_loop_spec (c : session) :
  (forall line rest,
      any_case quit (strip line) \/ any_case q (strip line) ->
      step invoke (mkMachine AwaitingInput (line :: rest) c)
        = mkMachine Exited rest (print Goodbye (print Prompt c))
      /\ question_loop invoke (line :: rest) c
         = (Ok tt, (rest, print Goodbye (print Prompt c))))
  /\ (forall line rest,
        all_space line ->
        step invoke (mkMachine AwaitingInput (line :: rest) c)
          = mkMachine AwaitingInput rest (print Prompt c)
        /\ asked (print Prompt c) = asked c
        /\ question_loop invoke (line :: rest) c
           = question_loop invoke rest (print Prompt c))
  /\ (forall line rest,
        is_quit (strip line) = false ->
        strip line <> [] ->
        step invoke (mkMachine AwaitingInput (line :: rest) c)
          = mkMachine (Answering (strip line)) rest (print Prompt c)
        /\ step invoke (mkMachine (Answering (strip line)) rest (print Prompt c))
           = mkMachine AwaitingInput rest
                       (answer invoke (strip line) (print Prompt c))
        /\ asked (answer invoke (strip line) (print Prompt c))
           = asked c ++ [strip line]
        /\ question_loop invoke (line :: rest) c
           = question_loop invoke rest
                           (answer invoke (strip line) (print Prompt c)))
  /\ (step invoke (mkMachine AwaitingInput [] c)
        = mkMachine (Crashed EOFError) [] (print Prompt c)
      /\ question_loop invoke [] c = (Raise EOFError, ([], print Prompt c)))
  /\ (forall lines,
      exists n,
        (n <= 2 * length lines + 1)%nat
        /\ steps invoke n (mkMachine AwaitingInput lines c)
           = mkMachine (outcome_state (fst (question_loop invoke lines c)))
                       (fst (snd (question_loop invoke lines c)))
                       (snd (snd (question_loop invoke lines c)))
        /\ (fst (question_loop invoke lines c) = Ok tt
            \/ fst (question_loop invoke lines c) = Raise EOFError)).
Proof.
  split; [|split; [|split; [|split]]].
  - intros line rest Hq.
    assert (Hquit : is_quit (strip line) = true).
    { destruct Hq; [apply any_case_quit | apply any_case_q]; assumption. }
    cbn [step state unread sess question_loop]. rewrite Hquit. auto.
  - intros line rest Hblank.
    pose proof (PyStrFacts.all_space_strip line Hblank) as Hs.
    cbn [step state unread sess question_loop]. rewrite Hs.
    change (is_quit []) with false. cbv iota. auto.
  - intros line rest Hq Hne.
    cbn [step state unread sess question_loop]. rewrite Hq.
    destruct (strip line) as [|ch question] eqn:Hs; [congruence|].
    repeat split.
    unfold answer. destruct (invoke (asked (print Prompt c)) (ch :: question));
      reflexivity.
  - split; reflexivity.
  - intros lines. destruct (question_loop_machine lines c) as [n [Hn Hrun]].
    exists n. split; [exact Hn|]. split; [exact Hrun|].
    apply question_loop_outcome.
Qed.

End Loop.

(** A session: a blank line, a question the chain answers, [QUIT]. *)
Lemma interactive_loop_spec_witness :
  let chain := fun (_ : list str) (_ : str) => Some (of_string "42") in
  question_loop chain
    [of_string "   "; of_string " why? "; of_string "QUIT"; of_string "never read"]
    (mkSession [] [])
  = (Ok tt,
     ([of_string "never read"],
      mkSession [of_string "why?"]
                [Prompt; Prompt; Answer (of_string "42"); Prompt; Goodbye])).
Proof.
  intros chain.
  destruct (interactive_loop_spec chain (mkSession [] [])) as (_ & Hblank & _).
  destruct (Hblank (of_string "   ")
                   [of_string " why? "; of_string "QUIT"; of_string "never read"])
    as (_ & _ & ->); [repeat constructor|].
  destruct (interactive_loop_spec chain (print Prompt (mkSession [] [])))
    as (_ & _ & Hask & _).
  destruct (Hask (of_string " why? ") [of_string "QUIT"; of_string "never read"])
    as (_ & _ & _ & ->); [reflexivity | vm_compute; discriminate |].
  destruct (interactive_loop_spec chain
              (answer chain (strip (of_string " why? "))
                      (print Prompt (print Prompt (mkSession [] [])))))
    as (Hquit & _).
  destruct (Hquit (of_string "QUIT") [of_string "never read"]) as (_ & ->).
  - left. vm_compute.
    repeat first [apply Forall2_nil | apply Forall2_cons; [right; reflexivity|]].
  - reflexivity.
Defined.

(** C9 as stated fails at the end of input: with nothing to read,
    [run_interactive_mode] ends by raising [EOFError], and the machine is
    in [Crashed EOFError] after one transition and never in [Exited]. *)
Lemma end_of_input_raises :
  run_interactive_mode (fun _ _ => None) ([], mkSession [] [])
    = (Raise EOFError, ([], mkSession [] [Banner; Prompt]))
  /\ state (step (fun _ _ => None) (mkMachine AwaitingInput [] (mkSession [] [])))
     = Crashed EOFError
  /\ (forall n,
        state (steps (fun _ _ => None) n
                     (mkMachine AwaitingInput [] (mkSession [] [])))
        <> Exited).
Proof.
  split; [reflexivity|]. split; [reflexivity|].
  intros [|n]; [discriminate|].
  cbn [steps]. rewrite steps_terminal by reflexivity. discriminate.
Qed.

End LoopFacts.

(* ===================================================================== *)
(** * The chunker *)
(* ===================================================================== *)

Module ChunkerFacts.
Import PyStr PyStrFacts TextSplitter PipelineB.

Lemma occurs_refl s : occurs s s.
Proof. exists [], []. rewrite app_nil_r. reflexivity. Qed.

Lemma occurs_trans a b c : occurs a b -> occurs b c -> occurs a c.
Proof.
  intros H [x [y ->]]. apply occurs_inside. exact H.
Qed.

Lemma occurs_left a b s : occurs s a -> occurs s (a ++ b).
Proof.
  intros H. apply (occurs_inside s [] a b) in H. exact H.
Qed.

Lemma occurs_right a b s : occurs s b -> occurs s (a ++ b).
Proof.
  intros H. apply (occurs_inside s a b []) in H.
  rewrite app_nil_r in H. exact H.
Qed.

Lemma strip_occurs s : occurs (strip s) s.
Proof.
  destruct (strip_decomp s) as [g1 [g2 [H _]]]. exists g1, g2. exact H.
Qed.

Lemma strip_length s : length (strip s) <= length s.
Proof.
  destruct (strip_decomp s) as [g1 [g2 [H _]]].
  rewrite H at 2. rewrite !length_app. lia.
Qed.

Lemma total_len_snoc docs d : total_len (docs ++ [d]) = total_len docs + length d.
Proof.
  unfold total_len. rewrite concat_app, length_app. simpl.
  rewrite app_nil_r. reflexivity.
Qed.

Lemma total_len_cons d docs : total_len (d :: docs) = length d + total_len docs.
Proof. unfold total_len. simpl. rewrite length_app. reflexivity. Qed.

Lemma emit_join_occurs docs c : In c (emit (join_docs docs)) -> occurs c (concat docs).
Proof.
  unfold join_docs. pose proof (strip_occurs (concat docs)) as H.
  destruct (strip (concat docs)) as [|x text]; simpl; [tauto|].
  intros [<-|[]]. exact H.
Qed.

Lemma emit_join_length docs c :
  In c (emit (join_docs docs)) -> length c <= total_len docs.
Proof.
  unfold join_docs, total_len. pose proof (strip_length (concat docs)) as H.
  destruct (strip (concat docs)) as [|x text]; simpl; [tauto|].
  intros [<-|[]]. exact H.
Qed.

(** The pieces of the regex split, put together, are the text. *)
Lemma concat_filter_nonempty (l : list str) : concat (filter nonempty l) = concat l.
Proof.
  induction l as [|[|c p] l IH]; simpl; [reflexivity | exact IH |].
  rewrite IH. reflexivity.
Qed.

Lemma concat_keep_separator sep ps :
  concat (map (fun p => sep ++ p) ps)
  = match ps with [] => [] | _ :: _ => sep ++ join sep ps end.
Proof.
  induction ps as [|p ps IH]; [reflexivity|].
  simpl map. simpl concat. rewrite IH, join_cons.
  destruct ps; [rewrite app_nil_r|rewrite <- app_assoc]; reflexivity.
Qed.

Lemma split_text_with_regex_concat text sep :
  concat (split_text_with_regex text sep) = text.
Proof.
  unfold split_text_with_regex. rewrite concat_filter_nonempty.
  destruct sep as [|c sep].
  - induction text as [|x text IH]; simpl; [reflexivity|]. rewrite IH. reflexivity.
  - pose proof (split_join (c :: sep) text ltac:(discriminate)) as Hj.
    destruct (split (c :: sep) text) as [|p0 ps]; [exact Hj|].
    rewrite concat_cons, concat_keep_separator.
    rewrite join_cons in Hj. destruct ps; [rewrite app_nil_r|]; exact Hj.
Qed.

Section Bounds.

Variable chunk_size : nat.
Variable chunk_overlap : nat.

(** What is kept of the window is an end of it. *)
Lemma pop_overlap_suffix len_d cur total :
  exists dropped, cur = dropped ++ fst (pop_overlap chunk_size chunk_overlap len_d cur total).
Proof.
  revert total. induction cur as [|first others IH]; intros total; simpl.
  - exists []. reflexivity.
  - destruct ((chunk_overlap <? total)
              || (chunk_size <? total + len_d) && (0 <? total)).
    + destruct (IH (total - length first)) as [dropped H].
      exists (first :: dropped). simpl. f_equal. exact H.
    + exists []. reflexivity.
Qed.

(** The kept pieces are no longer than the overlap, and leave room for
    the piece to come. *)
Lemma pop_overlap_bound len_d cur :
  forall total,
    total = total_len cur ->
    snd (pop_overlap chunk_size chunk_overlap len_d cur total) = total_len (fst (pop_overlap chunk_size chunk_overlap len_d cur total))
    /\ total_len (fst (pop_overlap chunk_size chunk_overlap len_d cur total)) <= chunk_overlap
    /\ (total_len (fst (pop_overlap chunk_size chunk_overlap len_d cur total)) + len_d <= chunk_size
        \/ total_len (fst (pop_overlap chunk_size chunk_overlap len_d cur total)) = 0).
Proof.
  induction cur as [|first others IH]; intros total Ht; simpl.
  - subst total. unfold total_len. simpl. repeat split; try lia.
  - destruct ((chunk_overlap <? total)
              || (chunk_size <? total + len_d) && (0 <? total)) eqn:E.
    + apply IH. rewrite Ht, total_len_cons. lia.
    + simpl. apply orb_false_iff in E. destruct E as [E1 E2].
      apply Nat.ltb_ge in E1. split; [exact Ht|]. rewrite <- Ht.
      split; [exact E1|].
      apply andb_false_iff in E2. destruct E2 as [E2|E2].
      * apply Nat.ltb_ge in E2. left. exact E2.
      * apply Nat.ltb_ge in E2. right. lia.
Qed.

Lemma merge_loop_occurs splits :
  forall cur total c,
    In c (merge_loop chunk_size chunk_overlap splits cur total) -> occurs c (concat cur ++ concat splits).
Proof.
  induction splits as [|d rest IH]; intros cur total c Hin; simpl in Hin.
  - rewrite app_nil_r. apply emit_join_occurs. exact Hin.
  - destruct (chunk_size <? total + length d).
    + destruct cur as [|x cur'].
      * apply IH in Hin. simpl in Hin. rewrite app_nil_r in Hin. exact Hin.
      * remember (x :: cur') as cur eqn:Hcur.
        destruct (pop_overlap_suffix (length d) cur total) as [dropped Hd].
        destruct (pop_overlap chunk_size chunk_overlap (length d) cur total) as [kept total'].
        simpl in Hd. apply in_app_or in Hin. destruct Hin as [Hin|Hin].
        -- apply occurs_left. apply emit_join_occurs. exact Hin.
        -- apply IH in Hin. rewrite Hd, concat_app, <- app_assoc.
           apply occurs_right.
           rewrite concat_app in Hin. simpl in Hin.
           rewrite app_nil_r, <- app_assoc in Hin. exact Hin.
    + apply IH in Hin. rewrite concat_app in Hin. simpl in Hin.
      rewrite app_nil_r, <- app_assoc in Hin. exact Hin.
Qed.

Lemma merge_loop_length splits :
  forall cur total c,
    Forall (fun s => length s < chunk_size) splits ->
    total = total_len cur ->
    total <= chunk_size ->
    In c (merge_loop chunk_size chunk_overlap splits cur total) -> length c <= chunk_size.
Proof.
  induction splits as [|d rest IH]; intros cur total c Hs Ht Hle Hin;
    simpl in Hin.
  - apply emit_join_length in Hin. lia.
  - inversion Hs as [|d' rest' Hd Hrest]; subst d' rest'.
    destruct (chunk_size <? total + length d) eqn:E.
    + apply Nat.ltb_lt in E.
      destruct cur as [|x cur'].
      * unfold total_len in Ht. simpl in Ht. lia.
      * remember (x :: cur') as cur eqn:Hcur.
        destruct (pop_overlap_bound (length d) cur total Ht) as [Hsnd [_ Hroom]].
        destruct (pop_overlap chunk_size chunk_overlap (length d) cur total) as [kept total'].
        simpl in Hsnd, Hroom. apply in_app_or in Hin. destruct Hin as [Hin|Hin].
        -- apply emit_join_length in Hin. lia.
        -- apply (IH (kept ++ [d]) (total' + length d) c Hrest); [| |exact Hin].
           ++ rewrite total_len_snoc. lia.
           ++ lia.
    + apply Nat.ltb_ge in E.
      apply (IH (cur ++ [d]) (total + length d) c Hrest); [| |exact Hin].
      * rewrite total_len_snoc. lia.
      * exact E.
Qed.

Lemma flush_occurs good c :
  In c (flush chunk_size chunk_overlap good) -> occurs c (concat good).
Proof.
  unfold flush, merge_splits. destruct good as [|g good']; [intros []|].
  intros H. apply merge_loop_occurs in H. exact H.
Qed.

Lemma flush_length good c :
  Forall (fun s => length s < chunk_size) good ->
  In c (flush chunk_size chunk_overlap good) -> length c <= chunk_size.
Proof.
  unfold flush, merge_splits. destruct good as [|g good']; [intros _ []|].
  intros Hg H.
  apply (merge_loop_length (g :: good') [] 0 c Hg); [reflexivity | lia | exact H].
Qed.

Lemma split_loop_occurs recurse :
  (forall f, recurse = Some f -> forall s c, In c (f s) -> occurs c s) ->
  forall splits good c,
    In c (split_loop chunk_size chunk_overlap recurse splits good) ->
    occurs c (concat good ++ concat splits).
Proof.
  intros Hrec. induction splits as [|s rest IH]; intros good c Hin; simpl in Hin.
  - rewrite app_nil_r. apply flush_occurs. exact Hin.
  - simpl concat. destruct (length s <? chunk_size).
    + apply IH in Hin. rewrite concat_app in Hin. simpl in Hin.
      rewrite app_nil_r, <- app_assoc in Hin. exact Hin.
    + apply in_app_or in Hin. destruct Hin as [Hin|Hin].
      * apply occurs_left. apply flush_occurs. exact Hin.
      * apply occurs_right. apply in_app_or in Hin. destruct Hin as [Hin|Hin].
        -- apply occurs_left. destruct recurse as [f|].
           ++ exact (Hrec f eq_refl s c Hin).
           ++ destruct Hin as [<-|[]]. apply occurs_refl.
        -- apply occurs_right. apply IH in Hin. exact Hin.
Qed.

Lemma split_loop_length recurse :
  (forall f, recurse = Some f -> forall s c, In c (f s) -> length c <= chunk_size) ->
  forall splits good c,
    (recurse = None -> Forall (fun s => length s < chunk_size) splits) ->
    Forall (fun s => length s < chunk_size) good ->
    In c (split_loop chunk_size chunk_overlap recurse splits good) ->
    length c <= chunk_size.
Proof.
  intros Hrec. induction splits as [|s rest IH]; intros good c Hsmall Hgood Hin;
    simpl in Hin.
  - exact (flush_length good c Hgood Hin).
  - assert (Hrest : recurse = None -> Forall (fun s => length s < chunk_size) rest).
    { intros E. specialize (Hsmall E). inversion Hsmall. assumption. }
    destruct (length s <? chunk_size) eqn:E.
    + apply Nat.ltb_lt in E. apply (IH (good ++ [s]) c Hrest); [|exact Hin].
      apply Forall_app. split; [exact Hgood | constructor; [exact E | constructor]].
    + apply Nat.ltb_ge in E.
      apply in_app_or in Hin. destruct Hin as [Hin|Hin].
      * exact (flush_length good c Hgood Hin).
      * apply in_app_or in Hin. destruct Hin as [Hin|Hin].
        -- destruct recurse as [f|].
           ++ exact (Hrec f eq_refl s c Hin).
           ++ specialize (Hsmall eq_refl). inversion Hsmall. lia.
        -- apply (IH [] c Hrest); [constructor | exact Hin].
Qed.

(** Every chunk is a contiguous part of the text it was cut from. *)
Lemma _split_text_occurs more :
  forall separator text c,
    In c (_split_text chunk_size chunk_overlap separator more text) ->
    occurs c text.
Proof.
  induction more as [|next more' IH]; intros separator text c Hin.
  - assert (H : In c (split_loop chunk_size chunk_overlap None
                        (split_text_with_regex text separator) [])).
    { destruct separator; exact Hin. }
    apply split_loop_occurs in H; [|discriminate].
    simpl in H. rewrite split_text_with_regex_concat in H. exact H.
  - destruct separator as [|x separator'].
    + simpl in Hin. apply split_loop_occurs in Hin; [|discriminate].
      simpl in Hin. rewrite split_text_with_regex_concat in Hin. exact Hin.
    + simpl in Hin. destruct (contains (x :: separator') text).
      * apply split_loop_occurs in Hin.
        -- simpl in Hin. rewrite split_text_with_regex_concat in Hin. exact Hin.
        -- intros f E s c' Hc. injection E as <-. exact (IH next s c' Hc).
      * exact (IH next text c Hin).
Qed.

Lemma char_splits_small text :
  1 < chunk_size ->
  Forall (fun s => length s < chunk_size) (split_text_with_regex text []).
Proof.
  intros Hsize. unfold split_text_with_regex.
  apply Forall_forall. intros s Hs. apply filter_In in Hs. destruct Hs as [Hs _].
  apply in_map_iff in Hs. destruct Hs as [ch [<- _]]. simpl. exact Hsize.
Qed.

(** With the empty separator last, no chunk is longer than the chunk
    size. *)
Lemma _split_text_length more :
  1 < chunk_size ->
  forall separator text c,
    last (separator :: more) [] = [] ->
    In c (_split_text chunk_size chunk_overlap separator more text) ->
    length c <= chunk_size.
Proof.
  intros Hsize. induction more as [|next more' IH]; intros separator text c Hlast Hin.
  - simpl in Hlast. subst separator. simpl in Hin.
    apply (split_loop_length None) in Hin; [exact Hin | discriminate | | constructor].
    intros _. apply char_splits_small. exact Hsize.
  - destruct separator as [|x separator'].
    + simpl in Hin.
      apply (split_loop_length None) in Hin; [exact Hin | discriminate | | constructor].
      intros _. apply char_splits_small. exact Hsize.
    + simpl in Hin.
      assert (Hlast' : last (next :: more') [] = []) by exact Hlast.
      destruct (contains (x :: separator') text).
      * apply (split_loop_length (Some (_split_text chunk_size chunk_overlap next more')))
          in Hin; [exact Hin | | discriminate | constructor].
        intros f E s c' Hc. injection E as <-. exact (IH next s c' Hlast' Hc).
      * exact (IH next text c Hlast' Hin).
Qed.

End Bounds.

(** ** Where the chunks lie in the text *)

Lemma lies_at_end pos (w text : str) :
  lies_at pos w text -> pos + length w <= length text.
Proof.
  intros [a [b [-> <-]]]. rewrite !length_app. lia.
Qed.

Lemma lies_at_shift (a b : str) pos (w text : str) :
  lies_at pos w text -> lies_at (length a + pos) w (a ++ text ++ b).
Proof.
  intros [x [y [-> <-]]]. exists (a ++ x), (y ++ b). split.
  - rewrite <- !app_assoc. reflexivity.
  - rewrite length_app. reflexivity.
Qed.

Lemma lies_at_more (b : str) pos (w text : str) :
  lies_at pos w text -> lies_at pos w (text ++ b).
Proof.
  intros H. apply (lies_at_shift [] b) in H. exact H.
Qed.

Lemma overlap_cons n (x : nat * str) rest :
  Forall (fun y => fst x <= fst y /\ fst x + length (snd x) <= fst y + n) rest ->
  overlap_at_most n rest -> overlap_at_most n (x :: rest).
Proof.
  intros Hrest Ho. cbn [overlap_at_most]. split; [|exact Ho].
  destruct rest as [|y rest']; [exact I|].
  inversion Hrest; subst. assumption.
Qed.

Lemma overlap_app n mid (ws1 ws2 : list (nat * str)) :
  Forall (fun w => fst w + length (snd w) <= mid) ws1 ->
  Forall (fun w => mid <= fst w) ws2 ->
  overlap_at_most n ws1 -> overlap_at_most n ws2 ->
  overlap_at_most n (ws1 ++ ws2).
Proof.
  induction ws1 as [|x ws1 IH]; intros H1 H2 O1 O2; [exact O2|].
  inversion H1 as [|? ? Hx H1']; subst.
  cbn [overlap_at_most] in O1. destruct O1 as [Hhead O1].
  change ((x :: ws1) ++ ws2) with (x :: (ws1 ++ ws2)).
  cbn [overlap_at_most]. split; [|apply IH; assumption].
  destruct ws1 as [|y ws1']; [|exact Hhead].
  simpl app. destruct ws2 as [|z ws2']; [exact I|].
  inversion H2 as [|? ? Hz _]; subst. unfold str, char in *. split; lia.
Qed.

Lemma overlap_shift n k (ws : list (nat * str)) :
  overlap_at_most n ws ->
  overlap_at_most n (map (fun w => (k + fst w, snd w)) ws).
Proof.
  induction ws as [|x ws IH]; [exact (fun H => H)|].
  cbn [overlap_at_most map]. intros [Hhead Ho]. split; [|apply IH; exact Ho].
  destruct ws as [|y ws']; [exact I|]. simpl. lia.
Qed.

(** *** From the windows to the chunks *)

Lemma leading_space_decomp (w : str) :
  exists g g2,
    w = g ++ strip w ++ g2 /\ all_space g /\ length g = leading_space w.
Proof.
  destruct (lstrip_decomp w) as [g [Hw Hg]].
  destruct (rstrip_decomp (lstrip w)) as [g2 [Hl _]].
  exists g, g2. split; [|split; [exact Hg|]].
  - unfold strip. rewrite <- Hl. exact Hw.
  - unfold leading_space. rewrite Hw at 1. rewrite length_app. lia.
Qed.

Lemma lies_at_strip pos (w text : str) :
  lies_at pos w text ->
  lies_at (pos + leading_space w) (strip w) text
  /\ leading_space w + length (strip w) <= length w.
Proof.
  intros [a [b [-> <-]]].
  destruct (leading_space_decomp w) as [g [g2 [Hw [_ Hlen]]]]. split.
  - exists (a ++ g), (g2 ++ b). split.
    + rewrite Hw at 1. rewrite <- !app_assoc. reflexivity.
    + rewrite length_app, Hlen. reflexivity.
  - rewrite Hw at 3. rewrite !length_app. lia.
Qed.

Lemma strip_begins (w : str) :
  nonempty (strip w) = true ->
  exists c t, strip w = c :: t /\ isspace c = false.
Proof.
  intros Hne. pose proof (strip_no_edge_space w) as Hedge.
  destruct (strip w) as [|c t]; [discriminate|].
  exists c, t. split; [reflexivity|].
  unfold no_edge_space in Hedge. apply andb_true_iff in Hedge.
  destruct Hedge as [Hfirst _]. apply negb_true_iff in Hfirst. exact Hfirst.
Qed.

(** A window that begins later has its first character that is not
    whitespace no earlier. *)
Lemma chunk_starts_ordered (text : str) p1 (w1 : str) p2 (w2 : str) :
  lies_at p1 w1 text -> lies_at p2 w2 text -> p1 <= p2 ->
  nonempty (strip w2) = true ->
  p1 + leading_space w1 <= p2 + leading_space w2.
Proof.
  intros [a1 [b1 [E1 L1]]] [a2 [b2 [E2 L2]]] Hle Hne.
  destruct (leading_space_decomp w1) as [g1 [h1 [Hw1 [Hg1 Hlen1]]]].
  destruct (leading_space_decomp w2) as [g2 [h2 [Hw2 [_ Hlen2]]]].
  destruct (strip_begins w2 Hne) as [c [t [Hc Hsp]]].
  destruct (le_lt_dec (p1 + leading_space w1) (p2 + leading_space w2))
    as [Hok|Hbad]; [exact Hok|]. exfalso.
  assert (Et2 : text = (a2 ++ g2) ++ c :: (t ++ h2 ++ b2)).
  { rewrite E2. rewrite Hw2 at 1. rewrite Hc, <- !app_assoc. reflexivity. }
  assert (Et1 : text = a1 ++ g1 ++ (strip w1 ++ h1 ++ b1)).
  { rewrite E1. rewrite Hw1 at 1. rewrite <- !app_assoc. reflexivity. }
  remember (p2 + leading_space w2) as q eqn:Eq.
  assert (Hq2 : nth_error text q = Some c).
  { rewrite Et2.
    rewrite nth_error_app2 by (rewrite length_app; unfold str, char in *; lia).
    replace (q - length (a2 ++ g2)) with 0
      by (rewrite length_app; unfold str, char in *; lia).
    reflexivity. }
  assert (Hq1 : nth_error text q = nth_error g1 (q - p1)).
  { rewrite Et1.
    rewrite nth_error_app2 by (unfold str, char in *; lia). rewrite L1.
    rewrite nth_error_app1 by (unfold str, char in *; lia). reflexivity. }
  rewrite Hq1 in Hq2. apply nth_error_In in Hq2.
  unfold all_space in Hg1. rewrite Forall_forall in Hg1.
  specialize (Hg1 c Hq2). congruence.
Qed.

Lemma windows_to_chunks n (text : str) (ws : list (nat * str)) :
  Forall (fun w => lies_at (fst w) (snd w) text
                   /\ nonempty (strip (snd w)) = true) ws ->
  overlap_at_most n ws ->
  Forall (fun c => lies_at (fst c) (snd c) text)
         (map (fun w => (fst w + leading_space (snd w), strip (snd w))) ws)
  /\ overlap_at_most n
       (map (fun w => (fst w + leading_space (snd w), strip (snd w))) ws).
Proof.
  induction ws as [|w1 ws IH]; intros F O.
  - split; [constructor | exact I].
  - inversion F as [|? ? [Hl1 Hn1] F']; subst.
    cbn [overlap_at_most] in O. destruct O as [Hhead O].
    destruct (IH F' O) as [IHl IHo]. cbn [map]. split.
    + constructor; [|exact IHl]. cbn [fst snd].
      apply lies_at_strip. exact Hl1.
    + cbn [overlap_at_most]. split; [|exact IHo].
      destruct ws as [|w2 ws']; [exact I|]. cbn [map fst snd].
      inversion F' as [|? ? [Hl2 Hn2] _]; subst.
      destruct Hhead as [Hord Hover].
      pose proof (chunk_starts_ordered text _ _ _ _ Hl1 Hl2 Hord Hn2) as Hstart.
      destruct (lies_at_strip _ _ _ Hl1) as [_ Hin1].
      unfold str, char in *. split; lia.
Qed.

Section Placement.

Variable chunk_size : nat.
Variable chunk_overlap : nat.

Local Abbreviation windows_of := (windows_of chunk_overlap).

Lemma windows_of_text (chunks : list str) lo (text text' : str) ws :
  text = text' -> windows_of chunks lo text ws -> windows_of chunks lo text' ws.
Proof. intros ->. exact (fun H => H). Qed.

Lemma emit_join_windows (docs : list str) (pre after : str) :
  exists ws,
    windows_of (emit (join_docs docs)) (length pre) (pre ++ concat docs ++ after) ws
    /\ (ws = [] \/ ws = [(length pre, concat docs)]).
Proof.
  unfold windows_of, join_docs.
  destruct (strip (concat docs)) as [|c s] eqn:E.
  - exists []. split; [|left; reflexivity].
    split; [reflexivity|]. split; [constructor | exact I].
  - exists [(length pre, concat docs)]. split; [|right; reflexivity].
    split; [simpl; rewrite E; reflexivity|]. split.
    + constructor; [|constructor]. simpl. rewrite E.
      split; [exists pre, after; auto | split; [lia | reflexivity]].
    + simpl. auto.
Qed.

Lemma pop_overlap_run len_d (cur : list str) :
  exists dropped kept,
    pop_overlap chunk_size chunk_overlap len_d cur (total_len cur)
    = (kept, total_len kept)
    /\ cur = dropped ++ kept
    /\ total_len kept <= chunk_overlap.
Proof.
  destruct (pop_overlap_suffix chunk_size chunk_overlap len_d cur (total_len cur))
    as [dropped Hd].
  destruct (pop_overlap_bound chunk_size chunk_overlap len_d cur (total_len cur) eq_refl)
    as (Hsnd & Hle & _).
  destruct (pop_overlap chunk_size chunk_overlap len_d cur (total_len cur))
    as [kept total'].
  simpl in *. subst total'. exists dropped, kept. auto.
Qed.

Lemma merge_loop_windows (splits : list str) :
  forall (cur : list str) (pre : str),
    exists ws,
      windows_of (merge_loop chunk_size chunk_overlap splits cur (total_len cur))
                 (length pre) (pre ++ concat cur ++ concat splits) ws.
Proof.
  induction splits as [|d rest IH]; intros cur pre.
  - cbn [merge_loop concat].
    destruct (emit_join_windows cur pre []) as [ws [Hws _]]. exists ws. exact Hws.
  - cbn [merge_loop].
    destruct (chunk_size <? total_len cur + length d) eqn:Ebig.
    + destruct cur as [|c cs].
      * destruct (IH [d] pre) as [ws Hws]. exists ws.
        replace (total_len [] + length d) with (total_len [d])
          by (unfold total_len; simpl; rewrite app_nil_r; reflexivity).
        eapply windows_of_text; [|exact Hws].
        simpl. rewrite app_nil_r. reflexivity.
      * remember (c :: cs) as cur eqn:Ecur.
        destruct (pop_overlap_run (length d) cur)
          as [dropped [kept [Epop [Hcur Hkept]]]].
        rewrite Epop.
        destruct (IH (kept ++ [d]) (pre ++ concat dropped)) as [ws' Hws'].
        destruct (emit_join_windows cur pre (concat (d :: rest)))
          as [ws0 [Hws0 Hat]].
        rewrite total_len_snoc in Hws'.
        assert (Etext : (pre ++ concat dropped) ++ concat (kept ++ [d]) ++ concat rest
                        = pre ++ concat cur ++ concat (d :: rest)).
        { rewrite Hcur, !concat_app. simpl. rewrite <- !app_assoc.
          simpl. reflexivity. }
        apply (windows_of_text _ _ _ _ _ Etext) in Hws'.
        destruct Hws0 as (E0 & F0 & O0). destruct Hws' as (E' & F' & O').
        exists (ws0 ++ ws'). split; [|split].
        -- rewrite map_app, <- E0, <- E'. reflexivity.
        -- apply Forall_app. split; [exact F0|].
           eapply Forall_impl; [|exact F'].
           intros w (Hl & Hlo & Hne). repeat split; try assumption.
           rewrite length_app in Hlo. lia.
        -- assert (Hlen : length (concat cur)
                          = length (concat dropped) + total_len kept).
           { rewrite Hcur, concat_app, length_app. reflexivity. }
           destruct Hat as [->| ->]; [exact O'|].
           simpl app. apply overlap_cons; [|exact O'].
           eapply Forall_impl; [|exact F'].
           intros w (_ & Hlo & _). rewrite length_app in Hlo.
           cbn [fst snd]. unfold str, char in *. lia.
    + destruct (IH (cur ++ [d]) pre) as [ws Hws]. exists ws.
      rewrite total_len_snoc in Hws.
      eapply windows_of_text; [|exact Hws].
      rewrite concat_app. simpl. rewrite <- !app_assoc. simpl. reflexivity.
Qed.

Lemma flush_windows (good : list str) (pre : str) :
  exists ws,
    windows_of (flush chunk_size chunk_overlap good) (length pre)
               (pre ++ concat good) ws.
Proof.
  destruct good as [|g good'].
  - exists []. split; [reflexivity|]. split; [constructor | exact I].
  - remember (g :: good') as good eqn:Egood.
    destruct (merge_loop_windows good [] pre) as [ws Hws].
    exists ws. unfold flush. rewrite Egood. rewrite <- Egood.
    unfold merge_splits. exact Hws.
Qed.

(** Windows of a text stay windows when the text is extended on both
    sides, and all end within the text they were found in. *)
Lemma windows_of_inside (chunks : list str) lo (text a b : str) ws :
  windows_of chunks lo text ws ->
  windows_of chunks (length a + lo) (a ++ text ++ b)
             (map (fun w => (length a + fst w, snd w)) ws)
  /\ Forall (fun w => fst w + length (snd w) <= length a + length text)
            (map (fun w => (length a + fst w, snd w)) ws).
Proof.
  intros (E & F & O). split; [split; [|split]|].
  - rewrite E, map_map. reflexivity.
  - apply Forall_forall. intros w Hw. apply in_map_iff in Hw.
    destruct Hw as [w0 [<- Hw0]]. rewrite Forall_forall in F.
    destruct (F w0 Hw0) as (Hl & Hlo & Hne). cbn [fst snd].
    split; [apply lies_at_shift; exact Hl|]. split; [lia | exact Hne].
  - apply overlap_shift. exact O.
  - apply Forall_forall. intros w Hw. apply in_map_iff in Hw.
    destruct Hw as [w0 [<- Hw0]]. rewrite Forall_forall in F.
    destruct (F w0 Hw0) as (Hl & _). cbn [fst snd].
    apply lies_at_end in Hl. unfold str, char in *. lia.
Qed.

Lemma windows_of_ends (chunks : list str) lo (text : str) ws :
  windows_of chunks lo text ws ->
  Forall (fun w => fst w + length (snd w) <= length text) ws.
Proof.
  intros (_ & F & _). eapply Forall_impl; [|exact F].
  intros w (Hl & _). apply lies_at_end. exact Hl.
Qed.

Lemma windows_of_more (chunks : list str) lo (text b : str) ws :
  windows_of chunks lo text ws -> windows_of chunks lo (text ++ b) ws.
Proof.
  intros (E & F & O). split; [exact E|]. split; [|exact O].
  eapply Forall_impl; [|exact F].
  intros w (Hl & Hlo & Hne). split; [apply lies_at_more; exact Hl|]. auto.
Qed.

(** Windows found in consecutive parts of a text, put one after the
    other. *)
Lemma windows_of_app (c1 c2 : list str) lo mid (text : str) ws1 ws2 :
  windows_of c1 lo text ws1 ->
  Forall (fun w => fst w + length (snd w) <= mid) ws1 ->
  windows_of c2 mid text ws2 ->
  lo <= mid ->
  windows_of (c1 ++ c2) lo text (ws1 ++ ws2).
Proof.
  intros (E1 & F1 & O1) Hend (E2 & F2 & O2) Hlo. split; [|split].
  - rewrite E1, E2, map_app. reflexivity.
  - apply Forall_app. split; [exact F1|].
    eapply Forall_impl; [|exact F2]. intros w (Hl & Hm & Hne).
    split; [exact Hl|]. split; [lia | exact Hne].
  - apply (overlap_app chunk_overlap mid); try assumption.
    eapply Forall_impl; [|exact F2]. intros w (_ & Hm & _). exact Hm.
Qed.

Lemma split_loop_windows recurse :
  (forall f, recurse = Some f ->
             forall s, exists ws, windows_of (f s) 0 s ws) ->
  forall (splits good : list str) (pre : str),
    (recurse = None -> Forall (fun s => length s < chunk_size) splits) ->
    exists ws,
      windows_of (split_loop chunk_size chunk_overlap recurse splits good)
                 (length pre) (pre ++ concat good ++ concat splits) ws.
Proof.
  intros Hrec. induction splits as [|s rest IH]; intros good pre Hsmall.
  - cbn [split_loop concat]. rewrite app_nil_r. apply flush_windows.
  - cbn [split_loop].
    destruct (length s <? chunk_size) eqn:Es.
    + destruct (IH (good ++ [s]) pre) as [ws Hws].
      { intros E. specialize (Hsmall E). inversion Hsmall; assumption. }
      exists ws. eapply windows_of_text; [|exact Hws].
      rewrite concat_app. simpl. rewrite <- !app_assoc. simpl. reflexivity.
    + destruct recurse as [f|].
      2:{ exfalso. specialize (Hsmall eq_refl). inversion Hsmall as [|? ? Hs _]; subst.
          apply Nat.ltb_ge in Es. lia. }
      destruct (flush_windows good pre) as [ws1 H1].
      destruct (Hrec f eq_refl s) as [ws2 H2].
      destruct (IH [] (pre ++ concat good ++ s)) as [ws3 H3]; [discriminate|].
      pose proof (windows_of_ends _ _ _ _ H1) as Hend1.
      destruct (windows_of_inside _ _ _ (pre ++ concat good) (concat rest) _ H2)
        as [H2' Hend2].
      exists (ws1 ++ map (fun w => (length (pre ++ concat good) + fst w, snd w)) ws2
              ++ ws3).
      apply windows_of_app with (mid := length (pre ++ concat good)).
      * pose proof (windows_of_more _ _ _ (s ++ concat rest) _ H1) as H1'.
        eapply windows_of_text; [|exact H1'].
        simpl. rewrite <- !app_assoc. reflexivity.
      * exact Hend1.
      * apply windows_of_app with (mid := length (pre ++ concat good ++ s)).
        -- eapply windows_of_text; [|rewrite Nat.add_0_r in H2'; exact H2'].
           simpl. rewrite <- !app_assoc. reflexivity.
        -- eapply Forall_impl; [|exact Hend2]. intros w Hw.
           rewrite !length_app in *. unfold str, char in *. lia.
        -- eapply windows_of_text; [|exact H3].
           simpl. rewrite <- !app_assoc. reflexivity.
        -- rewrite !length_app. lia.
      * rewrite length_app. lia.
Qed.

Lemma _split_text_windows more :
  1 < chunk_size ->
  forall separator (text : str),
    last (separator :: more) [] = [] ->
    exists ws,
      windows_of (_split_text chunk_size chunk_overlap separator more text) 0 text ws.
Proof.
  intros Hsize.
  assert (Hchars : forall text : str,
             exists ws,
               windows_of (split_loop chunk_size chunk_overlap None
                             (split_text_with_regex text []) []) 0 text ws).
  { intros text.
    destruct (split_loop_windows None ltac:(discriminate)
                (split_text_with_regex text []) [] [])
      as [ws Hws].
    - intros _. apply char_splits_small. exact Hsize.
    - exists ws. eapply windows_of_text; [|exact Hws].
      simpl. apply split_text_with_regex_concat. }
  induction more as [|next more' IH]; intros separator text Hlast.
  - simpl in Hlast. subst separator. simpl. apply Hchars.
  - destruct separator as [|x separator'].
    + simpl. apply Hchars.
    + simpl.
      assert (Hlast' : last (next :: more') [] = []) by exact Hlast.
      destruct (contains (x :: separator') text).
      * destruct (split_loop_windows
                    (Some (_split_text chunk_size chunk_overlap next more')))
          with (splits := split_text_with_regex text (x :: separator'))
               (good := @nil str) (pre := @nil char)
          as [ws Hws].
        -- intros f E s. injection E as <-. apply IH. exact Hlast'.
        -- discriminate.
        -- exists ws. eapply windows_of_text; [|exact Hws].
           simpl. apply split_text_with_regex_concat.
      * apply IH. exact Hlast'.
Qed.

End Placement.

(** The chunks of a text, with offsets at which they lie in it. *)
Lemma split_text_placed chunk_size chunk_overlap (text : str) :
  1 < chunk_size ->
  exists placed : list (nat * str),
    map snd placed = split_text chunk_size chunk_overlap text
    /\ Forall (fun c => lies_at (fst c) (snd c) text) placed
    /\ overlap_at_most chunk_overlap placed.
Proof.
  intros Hsize.
  destruct (_split_text_windows chunk_size chunk_overlap [[nl]; [32%N]; []] Hsize
              [nl; nl] text eq_refl) as [ws (E & F & O)].
  destruct (windows_to_chunks chunk_overlap text ws) as [Hl Ho].
  - eapply Forall_impl; [|exact F]. intros w (Hl & _ & Hne). auto.
  - exact O.
  - exists (map (fun w => (fst w + leading_space (snd w), strip (snd w))) ws).
    split; [|split; assumption].
    unfold split_text. rewrite E, map_map. reflexivity.
Qed.

(** Small sizes show the three regimes: pieces merged up to the size
    with no overlap to carry, a text without separators cut by characters
    with the full overlap, paragraphs kept whole. *)
Example split_text_samples :
  split_text 10 3 (of_string "aaaa bbbb cccc dddd eeee")
    = [of_string "aaaa bbbb"; of_string "cccc dddd"; of_string "eeee"]
  /\ split_text 10 3 (repeat 97%N 25)
     = [repeat 97%N 10; repeat 97%N 10; repeat 97%N 10; repeat 97%N 4]
  /\ split_text 10 3 (repeat 97%N 7 ++ [nl; nl] ++ repeat 98%N 7)
     = [repeat 97%N 7; repeat 98%N 7].
Proof. repeat split; reflexivity. Qed.

(** C8, as the splitter has it.  For every sequence of documents, every
    chunk that [chunk_documents] returns has at most 1000 characters,
    comes from the splitting of one of the documents, is a contiguous
    part of that document's text, and carries that document's metadata.
    The chunks of the sequence are the chunks of each document, one
    document after the other; and the chunks of a document can be placed
    in its text, each where it occurs, so that they begin in order and
    each begins at most 200 characters before the end of the chunk
    before it: consecutive chunks overlap by at most 200 characters. *)
Theorem chunk_documents_spec (Meta : Type) (documents : list (Document Meta)) :
  Forall (fun chunk =>
            length (page_content chunk) <= 1000
            /\ exists doc,
                 In doc documents
                 /\ metadata chunk = metadata doc
                 /\ In (page_content chunk)
                       (split_text 1000 200 (page_content doc))
                 /\ occurs (page_content chunk) (page_content doc))
         (chunk_documents documents)
  /\ chunk_documents documents
     = flat_map (fun doc => chunk_documents [doc]) documents
  /\ (forall doc : Document Meta,
        exists placed : list (nat * str),
          map snd placed = map page_content (chunk_documents [doc])
          /\ Forall (fun c => lies_at (fst c) (snd c) (page_content doc)) placed
          /\ overlap_at_most 200 placed).
Proof.
  split; [|split].
  - apply Forall_forall. intros chunk Hin.
    unfold chunk_documents, split_documents in Hin.
    apply in_flat_map in Hin. destruct Hin as [doc [Hdoc Hin]].
    apply in_map_iff in Hin. destruct Hin as [text [<- Htext]]. simpl.
    split.
    + apply (_split_text_length 1000 200 [[nl]; [32%N]; []] ltac:(lia)
                                [nl; nl] (page_content doc) text eq_refl Htext).
    + exists doc. repeat split; try assumption.
      exact (_split_text_occurs 1000 200 _ _ _ _ Htext).
  - unfold chunk_documents, split_documents.
    apply flat_map_ext. intros doc. cbn [flat_map].
    rewrite app_nil_r. reflexivity.
  - intros doc.
    destruct (split_text_placed 1000 200 (page_content doc) ltac:(lia))
      as [placed (E & F & O)].
    exists placed. split; [|split; assumption].
    rewrite E. unfold chunk_documents, split_documents. cbn [flat_map].
    rewrite app_nil_r, map_map. cbn [page_content]. rewrite map_id. reflexivity.
Qed.

(** C8 as stated fails on a document of three paragraphs of 600
    characters: the chunks are the three paragraphs, and the first two
    share nothing. *)
Lemma overlap_is_not_exact :
  map page_content
      (chunk_documents
         [mkDocument (repeat 97%N 600 ++ [nl; nl] ++ repeat 98%N 600
                      ++ [nl; nl] ++ repeat 99%N 600) tt])
  = [repeat 97%N 600; repeat 98%N 600; repeat 99%N 600]
  /\ consecutive_overlap 200
       (map page_content
            (chunk_documents
               [mkDocument (repeat 97%N 600 ++ [nl; nl] ++ repeat 98%N 600
                            ++ [nl; nl] ++ repeat 99%N 600) tt]))
     = false.
Proof. split; vm_compute; reflexivity. Qed.

End ChunkerFacts.

(* ===================================================================== *)
(** * The store only appends *)
(* ===================================================================== *)

Module StoreInvariantFacts.
Import PyStr Py PipelineA StoreInvariants StoreFacts.
Local Open Scope N_scope.







Section Batch.

Variable strptime : str -> option date.




End Batch.



End StoreInvariantFacts.

(* ===================================================================== *)
(** * The listing does not depend on the order of insertion *)
(* ===================================================================== *)

Module ListingOrderFacts.
Import PyStr Py PipelineA StoreInvariants StoreFacts.
Local Open Scope N_scope.

Lemma date_le_antisym a b : date_le a b -> date_le b a -> a = b.
Proof.
  unfold date_le. destruct a as [y1 m1 d1], b as [y2 m2 d2]; simpl.
  unfold date_leb, date_compare; simpl.
  destruct (N.compare_spec y1 y2); destruct (N.compare_spec y2 y1);
    try discriminate; try lia;
    destruct (N.compare_spec m1 m2); destruct (N.compare_spec m2 m1);
      try discriminate; try lia;
      destruct (N.compare_spec d1 d2); destruct (N.compare_spec d2 d1);
        try discriminate; try lia.
  intros _ _. subst. reflexivity.
Qed.

Lemma date_le_refl a : date_le a a.
Proof.
  unfold date_le, date_leb, date_compare.
  rewrite !N.compare_refl. reflexivity.
Qed.

(** Two ascending lists of dates with the same elements are equal. *)
Lemma ascending_dates_unique (l1 l2 : list date) :
  StronglySorted date_le l1 -> StronglySorted date_le l2 ->
  Permutation l1 l2 -> l1 = l2.
Proof.
  revert l2. induction l1 as [|a l1 IH]; intros l2 H1 H2 Hp.
  - apply Permutation_nil in Hp. subst. reflexivity.
  - destruct l2 as [|b l2].
    + symmetry in Hp. apply Permutation_nil in Hp. discriminate.
    + inversion H1 as [|a' l1' Hs1 Ha]; subst.
      inversion H2 as [|b' l2' Hs2 Hb]; subst.
      assert (Hab : a = b).
      { assert (Hin_a : In a (b :: l2))
          by (apply (Permutation_in a Hp); left; reflexivity).
        assert (Hin_b : In b (a :: l1))
          by (apply (Permutation_in b (Permutation_sym Hp)); left; reflexivity).
        rewrite Forall_forall in Ha, Hb.
        destruct Hin_a as [E|Hin_a]; [symmetry; exact E|].
        destruct Hin_b as [E|Hin_b]; [exact E|].
        apply date_le_antisym; [apply Ha; exact Hin_b | apply Hb; exact Hin_a]. }
      subst b. f_equal. apply IH; try assumption.
      exact (Permutation_cons_inv Hp).
Qed.

Lemma ascending_dates rows_ :
  ascending rows_ -> StronglySorted date_le (map founded_in rows_).
Proof.
  unfold ascending. induction 1 as [|r l Hl IH Hr]; simpl; constructor.
  - exact IH.
  - apply Forall_forall. intros d Hd. apply in_map_iff in Hd.
    destruct Hd as [x [<- Hx]]. rewrite Forall_forall in Hr. exact (Hr x Hx).
Qed.

Section Order.

Variable strptime : str -> option date.

Lemma stored_forms_perm cs cs' :
  Permutation cs cs' ->
  forall values,
    stored_forms strptime cs = Some values ->
    exists values',
      stored_forms strptime cs' = Some values' /\ Permutation values values'.
Proof.
  induction 1 as [|c l l' Hp IH|c1 c2 l|l l' l'' Hp1 IH1 Hp2 IH2]; intros values Hv.
  - exists values. split; [exact Hv|]. simpl in Hv. injection Hv as <-. constructor.
  - simpl in Hv |- *.
    destruct (stored_form strptime c) as [v|]; [|discriminate].
    destruct (stored_forms strptime l) as [vs|]; [|discriminate].
    injection Hv as <-. destruct (IH vs eq_refl) as [vs' [E Hperm]].
    rewrite E. exists (v :: vs'). split; [reflexivity | constructor; exact Hperm].
  - simpl in Hv |- *.
    destruct (stored_form strptime c1) as [v1|];
      destruct (stored_form strptime c2) as [v2|];
      destruct (stored_forms strptime l) as [vs|]; try discriminate.
    injection Hv as <-. exists (v1 :: v2 :: vs). split; [reflexivity | constructor].
  - destruct (IH1 values Hv) as [v1 [E1 P1]].
    destruct (IH2 v1 E1) as [v2 [E2 P2]].
    exists v2. split; [exact E2 | exact (Permutation_trans P1 P2)].
Qed.

(** Without failures and with storable records, the listing after the
    insert is the sorted table. *)
Lemma listed_after_ok cs values t w :
  create_table_if_not_exists (pg w) = Some t ->
  no_fault (faults w) = true ->
  stored_forms strptime cs = Some values ->
  listed_after strptime cs w
  = order_by_founded_in (rows t ++ number_rows (next_id t) values).
Proof.
  intros Ht Hf Hv. destruct w as [db fs lg ll]. simpl in Ht, Hf.
  unfold listed_after.
  rewrite (insert_ok strptime cs values t db fs lg ll Ht Hf Hv). cbn [snd].
  rewrite get_stored_run.
  assert (Hf' : no_fault (tl (skipn (length cs) (tl (tl fs)))) = true).
  { destruct (no_fault_step fs Hf) as [_ H1].
    destruct (no_fault_step _ H1) as [_ H2].
    apply (no_fault_skipn (length cs)) in H2.
    destruct (no_fault_step _ H2) as [_ H3]. exact H3. }
  destruct (no_fault_step _ Hf') as [Ha Hf1]. rewrite Ha.
  destruct (no_fault_step _ Hf1) as [Hb Hf2]. rewrite Hb.
  destruct (no_fault_step _ Hf2) as [Hc _]. rewrite Hc.
  reflexivity.
Qed.

End Order.

(** X4.  When no driver call fails and every record can be stored, the
    order in which the records are passed to [insert_companies_to_db]
    does not show in the listing that follows: for two orders of the same
    records the listings hold the same row values, and their sequences of
    [founded_in] dates are equal. *)
Theorem listing_ignores_insertion_order
  (strptime : str -> option date) (companies companies' : list CompanyInfo)
  (values : list (str * date * list str)) (w : world) :
  Permutation companies companies' ->
  no_fault (faults w) = true ->
  stored_forms strptime companies = Some values ->
  map founded_in (listed_after strptime companies w)
    = map founded_in (listed_after strptime companies' w)
  /\ Permutation (map row_values (listed_after strptime companies w))
                 (map row_values (listed_after strptime companies' w)).
Proof.
  intros Hp Hf Hv.
  destruct (stored_forms_perm strptime companies companies' Hp values Hv)
    as [values' [Hv' Hperm]].
  assert (Ht : exists t, create_table_if_not_exists (pg w) = Some t)
    by (destruct (pg w); eexists; reflexivity).
  destruct Ht as [t Ht].
  rewrite (listed_after_ok strptime companies values t w Ht Hf Hv).
  rewrite (listed_after_ok strptime companies' values' t w Ht Hf Hv').
  assert (Hvals : Permutation
            (map row_values (order_by_founded_in (rows t ++ number_rows (next_id t) values)))
            (map row_values (order_by_founded_in (rows t ++ number_rows (next_id t) values')))).
  { rewrite <- !order_by_perm, !map_app, !row_values_number_rows.
    apply Permutation_app_head. exact Hperm. }
  split; [|exact Hvals].
  apply ascending_dates_unique.
  - apply ascending_dates, order_by_ascending.
  - apply ascending_dates, order_by_ascending.
  - assert (E : forall l, map founded_in l = map (fun v => snd (fst v)) (map row_values l)).
    { intros l. rewrite map_map. reflexivity. }
    rewrite !E. apply Permutation_map. exact Hvals.
Qed.

(** Three records, forwards and in another order, into a fresh
    database. *)
Lemma listing_ignores_insertion_order_witness :
  map founded_in (listed_after strptime_ascii [stripe; coca_cola; sony] fresh_world)
    = map founded_in (listed_after strptime_ascii [sony; stripe; coca_cola] fresh_world)
  /\ map founded_in (listed_after strptime_ascii [stripe; coca_cola; sony] fresh_world)
     = [mkDate 1886 5 8; mkDate 1946 5 7; mkDate 2010 1 1].
Proof.
  split.
  - eapply (listing_ignores_insertion_order strptime_ascii
              [stripe; coca_cola; sony] [sony; stripe; coca_cola]).
    + apply Permutation_sym.
      apply (Permutation_cons_app [stripe; coca_cola] []). reflexivity.
    + reflexivity.
    + vm_compute. reflexivity.
  - vm_compute. reflexivity.
Defined.

End ListingOrderFacts.

(* ===================================================================== *)
(** * The pipeline of exercise 1, end to end *)
(* ===================================================================== *)

Module PipelineFacts.
Import PyStr Py PipelineA StoreInvariants StoreFacts ExtractionFacts.
Local Open Scope N_scope.

Section Pipeline.

Variable strptime : str -> option date.
Variable chain_built : option str -> bool.
Variable ainvoke : list str -> str -> option ExtractedCompanies.

Lemma get_stored_returns w :
  exists listed w', get_stored_companies w = (Ok listed, w').
Proof. unfold get_stored_companies. apply try_except_returns. Qed.

(** The pipeline when the chain cannot be built. *)
Lemma pipeline_without_chain essay_text key w :
  chain_built key = false ->
  extract_and_store_companies strptime chain_built ainvoke essay_text key w
  = (Ok [], w).
Proof.
  intros Hb.
  unfold extract_and_store_companies, try_except, extract_and_store_body.
  rewrite bind_run, Hb. reflexivity.
Qed.

(** The pipeline when the chain is built: the loop, then the store only
    if something was collected, then the listing only if the insert
    reported success. *)
Lemma pipeline_with_chain essay_text key db fs lg ll :
  chain_built key = true ->
  extract_and_store_companies strptime chain_built ainvoke essay_text key
    (mkWorld db fs lg ll)
  = match harvest ainvoke ll (paragraphs essay_text) with
    | [] => (Ok [], mkWorld db fs lg (ll ++ paragraphs essay_text))
    | c :: cs =>
        match insert_companies_to_db strptime (c :: cs)
                (mkWorld db fs lg (ll ++ paragraphs essay_text)) with
        | (Ok true, w2) => get_stored_companies w2
        | (_, w2) => (Ok [], w2)
        end
    end.
Proof.
  intros Hb.
  unfold extract_and_store_companies, try_except, extract_and_store_body.
  rewrite bind_run, Hb. unfold ret at 1.
  rewrite bind_run, extract_loop_run, app_nil_l.
  destruct (harvest ainvoke ll (paragraphs essay_text)) as [|c cs]; [reflexivity|].
  cbv beta iota. rewrite bind_run.
  match goal with |- context [insert_companies_to_db strptime ?l ?w1] =>
    destruct (insert_total strptime l w1) as [b [w2 [calls [Hi _]]]]
  end.
  rewrite Hi. destruct b; [|reflexivity].
  destruct (get_stored_returns w2) as [listed [w3 Hg]]. rewrite Hg. reflexivity.
Qed.

End Pipeline.

(** X5.  When the chain cannot be built, or no paragraph yields a record
    (every call failed or returned an empty list), the pipeline returns
    the empty list and the database side of the world is as before: no
    connection is opened and nothing is stored. *)
Theorem nothing_extracted_nothing_stored
  (strptime : str -> option date)
  (chain_built : option str -> bool)
  (ainvoke : list str -> str -> option ExtractedCompanies)
  (essay_text : str) (openai_api_key : option str) (w : world) :
  chain_built openai_api_key = false
  \/ harvest ainvoke (llm_log w) (paragraphs essay_text) = [] ->
  exists w',
    extract_and_store_companies strptime chain_built ainvoke
      essay_text openai_api_key w = (Ok [], w')
    /\ pg w' = pg w
    /\ pg_log w' = pg_log w
    /\ faults w' = faults w.
Proof.
  intros H. destruct (chain_built openai_api_key) eqn:Hb.
  - destruct H as [H|H]; [discriminate|].
    destruct w as [db fs lg ll]. simpl in H.
    rewrite (pipeline_with_chain _ _ _ _ _ _ _ _ _ Hb), H.
    eexists. split; [reflexivity|]. simpl. auto.
  - rewrite (pipeline_without_chain _ _ _ _ _ _ Hb).
    exists w. auto.
Qed.

(** Two paragraphs, a chain that fails on one and finds nothing in the
    other. *)
Lemma nothing_extracted_nothing_stored_witness :
  exists w',
    extract_and_store_companies strptime_ascii (fun _ => true)
      (fun _ p => if str_eqb p (of_string "one") then None
                  else Some (mkExtractedCompanies []))
      (of_string "one" ++ [nl; nl] ++ of_string "two") None fresh_world
    = (Ok [], w')
    /\ pg_log w' = []
    /\ llm_log w' = [of_string "one"; of_string "two"].
Proof.
  match goal with |- context [extract_and_store_companies ?p ?b ?a ?t ?k ?w] =>
    destruct (nothing_extracted_nothing_stored p b a t k w) as [w' [Hrun [_ [Hlog _]]]]
  end.
  - right. vm_compute. reflexivity.
  - exists w'. split; [exact Hrun|]. split; [exact Hlog|].
    vm_compute in Hrun. injection Hrun as <-. reflexivity.
Defined.

(** X6.  When records were collected and [insert_companies_to_db] reports
    failure, the pipeline returns the empty list in the very world the
    insert left: [get_stored_companies] is not called, and whatever rows
    the batch had stored before it failed stay stored. *)
Theorem failed_insert_is_not_listed
  (strptime : str -> option date)
  (chain_built : option str -> bool)
  (ainvoke : list str -> str -> option ExtractedCompanies)
  (essay_text : str) (openai_api_key : option str) (w w2 : world) :
  chain_built openai_api_key = true ->
  harvest ainvoke (llm_log w) (paragraphs essay_text) <> [] ->
  insert_companies_to_db strptime
    (harvest ainvoke (llm_log w) (paragraphs essay_text))
    (mkWorld (pg w) (faults w) (pg_log w) (llm_log w ++ paragraphs essay_text))
  = (Ok false, w2) ->
  extract_and_store_companies strptime chain_built ainvoke
    essay_text openai_api_key w = (Ok [], w2).
Proof.
  intros Hb Hne Hi. destruct w as [db fs lg ll]. simpl in Hne, Hi.
  rewrite (pipeline_with_chain _ _ _ _ _ _ _ _ _ Hb).
  destruct (harvest ainvoke ll (paragraphs essay_text)) as [|c cs]; [congruence|].
  rewrite Hi. reflexivity.
Qed.

(** One paragraph with two records, the second without a parsable date:
    the first is stored, the pipeline returns the empty list, and the
    log shows no query. *)
Lemma failed_insert_is_not_listed_witness :
  exists w2 row,
    extract_and_store_companies strptime_ascii (fun _ => true)
      (fun _ _ => Some (mkExtractedCompanies [coca_cola; undated]))
      (of_string "one") None fresh_world
    = (Ok [], w2)
    /\ pg w2 = Some (mkTable [row] 2)
    /\ stored_name row = company_name coca_cola
    /\ pg_log w2 = [PgConnect; PgCreateTable;
                    PgInsert (company_name coca_cola) (mkDate 1886 5 8)
                             (founders coca_cola)].
Proof.
  eexists. eexists. split.
  - apply (failed_insert_is_not_listed strptime_ascii (fun _ => true)
             (fun _ _ => Some (mkExtractedCompanies [coca_cola; undated]))
             (of_string "one") None fresh_world).
    + reflexivity.
    + vm_compute. discriminate.
    + vm_compute. reflexivity.
  - vm_compute. repeat split.
Defined.

(** X7.  When the chain is built, records were collected, every one of
    them can be stored and no driver call fails, the pipeline returns the
    whole table in ascending order of [founded_in]: the rows that were
    there and one row per collected record.  It opens two connections,
    one for the batch and one for the listing. *)
Theorem pipeline_stores_and_lists
  (strptime : str -> option date)
  (chain_built : option str -> bool)
  (ainvoke : list str -> str -> option ExtractedCompanies)
  (essay_text : str) (openai_api_key : option str) (w : world)
  (t : table) (values : list (str * date * list str)) :
  chain_built openai_api_key = true ->
  harvest ainvoke (llm_log w) (paragraphs essay_text) <> [] ->
  stored_forms strptime (harvest ainvoke (llm_log w) (paragraphs essay_text))
    = Some values ->
  no_fault (faults w) = true ->
  create_table_if_not_exists (pg w) = Some t ->
  exists listed w',
    extract_and_store_companies strptime chain_built ainvoke
      essay_text openai_api_key w = (Ok listed, w')
    /\ ascending listed
    /\ Permutation (map row_values (rows t) ++ values) (map row_values listed)
    /\ pg w' = Some (mkTable (rows t ++ number_rows (next_id t) values)
                             (next_id t + N.of_nat (length values)))
    /\ pg_log w'
       = pg_log w
         ++ PgConnect
            :: batch_calls strptime
                 (harvest ainvoke (llm_log w) (paragraphs essay_text))
         ++ [PgConnect; PgSelectOrdered; PgClose].
Proof.
  intros Hb Hne Hv Hf Ht. destruct w as [db fs lg ll]. simpl in *.
  rewrite (pipeline_with_chain _ _ _ _ _ _ _ _ _ Hb).
  destruct (harvest ainvoke ll (paragraphs essay_text)) as [|c cs] eqn:Hh;
    [congruence|].
  rewrite (insert_ok strptime (c :: cs) values t db fs lg _ Ht Hf Hv).
  rewrite get_stored_run.
  assert (Hf' : no_fault (tl (skipn (length (c :: cs)) (tl (tl fs)))) = true).
  { destruct (no_fault_step fs Hf) as [_ H1].
    destruct (no_fault_step _ H1) as [_ H2].
    apply (no_fault_skipn (length (c :: cs))) in H2.
    destruct (no_fault_step _ H2) as [_ H3]. exact H3. }
  destruct (no_fault_step _ Hf') as [Ha Hf1]. rewrite Ha.
  destruct (no_fault_step _ Hf1) as [Hc Hf2]. rewrite Hc.
  destruct (no_fault_step _ Hf2) as [Hd _]. rewrite Hd.
  eexists. eexists. split; [reflexivity|]. cbn [rows next_id pg pg_log].
  split; [apply order_by_ascending|]. split.
  - rewrite <- order_by_perm, map_app, row_values_number_rows. reflexivity.
  - split; [reflexivity|].
    unfold batch_calls. repeat (rewrite <- app_assoc; simpl). reflexivity.
Qed.

(** An essay of two paragraphs, one record each, into a fresh
    database. *)
Lemma pipeline_stores_and_lists_witness :
  exists listed w',
    extract_and_store_companies strptime_ascii (fun _ => true)
      (fun _ p => if str_eqb p (of_string "one")
                  then Some (mkExtractedCompanies [sony])
                  else Some (mkExtractedCompanies [coca_cola]))
      (of_string "one" ++ [nl; nl] ++ of_string "two") None fresh_world
    = (Ok listed, w')
    /\ map stored_name listed = [company_name coca_cola; company_name sony]
    /\ map id listed = [2; 1].
Proof.
  match goal with |- context [extract_and_store_companies ?p ?b ?a ?e ?k ?w] =>
    edestruct (pipeline_stores_and_lists p b a e k w (mkTable [] 1))
      as [listed [w' [Hrun _]]]
  end.
  - reflexivity.
  - vm_compute. discriminate.
  - vm_compute. reflexivity.
  - reflexivity.
  - reflexivity.
  - exists listed, w'. split; [exact Hrun|].
    vm_compute in Hrun. injection Hrun as <- _. split; reflexivity.
Defined.

End PipelineFacts.

(* ===================================================================== *)
(** * Questions asked by the loops of exercise 2 *)
(* ===================================================================== *)

Module QueryFacts.
Import PyStr Py PipelineB Queries LoopFacts.

Lemma lower_char_cases c d :
  lower_char c = d -> c = d \/ (c + 32 = d)%N.
Proof.
  unfold lower_char. destruct ((65 <=? c) && (c <=? 90))%N; intros <-; auto.
Qed.

Lemma lower_any_case word s : lower s = word -> any_case word s.
Proof.
  unfold any_case, lower. revert word.
  induction s as [|c s IH]; intros word H; simpl in H; subst word.
  - constructor.
  - constructor; [apply lower_char_cases; reflexivity | apply IH; reflexivity].
Qed.

(** X9.  The loop takes a stripped line for a quit sentinel exactly when
    it spells [quit] or [q], each letter in either case; no other input
    ends the loop through the quit branch. *)
Theorem is_quit_iff_sentinel (question : str) :
  is_quit question = true <-> any_case quit question \/ any_case q question.
Proof.
  split.
  - unfold is_quit. intros H. apply orb_true_iff in H.
    destruct H as [H|H]; apply PyStrFacts.str_eqb_eq in H;
      [left | right]; apply lower_any_case; exact H.
  - intros [H|H]; [apply any_case_quit | apply any_case_q]; exact H.
Qed.

Section Asked.

Variable invoke : list str -> str -> option str.

Lemma asked_answer question c :
  asked (answer invoke question c) = asked c ++ [question].
Proof.
  unfold answer. destruct (invoke (asked c) question); reflexivity.
Qed.

(** X8.  For every chain, session and content of standard input, the
    loop of [run_interactive_mode] passes to the chain exactly the lines
    typed before the first quit sentinel, stripped, blank ones left out,
    each once and in order, whether or not the chain raises on some of
    them; it returns when there is a quit sentinel, leaving the lines
    after it unread, and ends by [EOFError] when there is none. *)
Theorem question_loop_asks_each_line_once (lines : list str) (c : session) :
  asked (snd (snd (question_loop invoke lines c)))
    = asked c ++ questions_asked lines
  /\ fst (snd (question_loop invoke lines c)) = lines_after_quit lines
  /\ fst (question_loop invoke lines c)
     = (if forallb goes_on lines then Raise EOFError else Ok tt).
Proof.
  revert c. induction lines as [|line rest IH]; intros c.
  - simpl. rewrite app_nil_r. auto.
  - cbn [question_loop].
    unfold questions_asked, lines_after_quit, goes_on in *.
    cbn [take_while drop_while forallb].
    destruct (is_quit (strip line)) eqn:Hq; cbn [negb andb].
    + simpl. rewrite app_nil_r. auto.
    + cbn [map filter].
      destruct (strip line) as [|ch question] eqn:Hs; cbn [nonempty].
      * destruct (IH (print Prompt c)) as (Ha & Hu & Hr).
        rewrite Ha, Hu, Hr. auto.
      * destruct (IH (answer invoke (ch :: question) (print Prompt c)))
          as (Ha & Hu & Hr).
        rewrite Ha, Hu, Hr, asked_answer. simpl.
        rewrite <- app_assoc. auto.
Qed.

End Asked.

Section Tests.

Variable invoke : list str -> str -> option str.

Lemma test_query_effect i query c :
  invoked (test_query invoke i query c) = invoked c ++ [query]
  /\ exists last,
       shown (test_query invoke i query c)
       = shown c ++ [QueryLine i query; Rule; last]
       /\ is_query_line last = false.
Proof.
  unfold test_query. cbn [show invoked shown].
  destruct (invoke (invoked c) query) as [response|]; cbn [show invoked shown].
  - split; [reflexivity|]. exists (TestAnswer response).
    repeat rewrite <- app_assoc. split; reflexivity.
  - split; [reflexivity|]. exists TestError.
    repeat rewrite <- app_assoc. split; reflexivity.
Qed.

Lemma test_loop_effect queries :
  forall i c,
    invoked (test_loop invoke i queries c) = invoked c ++ queries
    /\ length (shown (test_loop invoke i queries c))
       = length (shown c) + 3 * length queries
    /\ filter is_query_line (shown (test_loop invoke i queries c))
       = filter is_query_line (shown c) ++ numbered i queries.
Proof.
  induction queries as [|query rest IH]; intros i c.
  - simpl. rewrite !app_nil_r. auto.
  - cbn [test_loop].
    destruct (test_query_effect i query c) as [Hi [last [Hs Hl]]].
    destruct (IH (S i) (test_query invoke i query c)) as (H1 & H2 & H3).
    rewrite H1, H2, H3, Hi, Hs. split; [|split].
    + rewrite <- app_assoc. reflexivity.
    + rewrite length_app. simpl. lia.
    + rewrite filter_app. simpl. rewrite Hl, <- app_assoc. reflexivity.
Qed.

(** X10.  For every chain, [run_test_queries] passes each of its four
    queries to the chain exactly once, in the order written, whether or
    not earlier ones raised; it prints one heading per query, numbered
    from 1, and thirteen lines in all. *)
Theorem run_test_queries_asks_all (c : test_session) :
  invoked (run_test_queries invoke c) = invoked c ++ test_queries
  /\ length (shown (run_test_queries invoke c)) = length (shown c) + 13
  /\ filter is_query_line (shown (run_test_queries invoke c))
     = filter is_query_line (shown c) ++ numbered 1 test_queries.
Proof.
  unfold run_test_queries.
  destruct (test_loop_effect test_queries 1 (show Running c)) as (H1 & H2 & H3).
  rewrite H1, H2, H3. cbn [show invoked shown].
  split; [reflexivity|]. split.
  - rewrite length_app. simpl. lia.
  - rewrite filter_app. simpl. rewrite app_nil_r. reflexivity.
Qed.

End Tests.

End QueryFacts.

(* ===================================================================== *)
(** * More about the chunker *)
(* ===================================================================== *)

Module ChunkShapeFacts.
Import PyStr PyStrFacts TextSplitter PipelineB ChunkVocabulary ChunkerFacts.

Lemma join_docs_concat docs docs' :
  concat docs = concat docs' -> join_docs docs = join_docs docs'.
Proof. unfold join_docs. intros ->. reflexivity. Qed.

Lemma total_len_app a b : total_len (a ++ b) = total_len a + total_len b.
Proof. unfold total_len. rewrite concat_app, length_app. reflexivity. Qed.

Lemma total_len_zero pieces :
  Forall (fun s => nonempty s = true) pieces -> total_len pieces = 0 -> pieces = [].
Proof.
  intros H. destruct H as [|s rest Hs _]; [reflexivity|].
  rewrite total_len_cons. destruct s; [discriminate|]. simpl. lia.
Qed.

Lemma regex_pieces_nonempty text sep :
  Forall (fun s => nonempty s = true) (split_text_with_regex text sep).
Proof.
  unfold split_text_with_regex. apply Forall_forall. intros s Hs.
  apply filter_In in Hs. apply Hs.
Qed.

Section Shape.

Variable chunk_size : nat.
Variable chunk_overlap : nat.

(** Pieces that fit together into the chunk size are merged into one
    chunk. *)
Lemma merge_loop_fits splits :
  forall cur total,
    total = total_len cur ->
    total_len cur + total_len splits <= chunk_size ->
    merge_loop chunk_size chunk_overlap splits cur total
    = emit (join_docs (cur ++ splits)).
Proof.
  induction splits as [|d rest IH]; intros cur total Ht Hfit; simpl.
  - rewrite app_nil_r. reflexivity.
  - rewrite total_len_cons in Hfit.
    assert (E : (chunk_size <? total + length d) = false)
      by (apply Nat.ltb_ge; lia).
    rewrite E.
    rewrite (IH (cur ++ [d]) (total + length d)).
    + rewrite <- app_assoc. reflexivity.
    + rewrite total_len_snoc. lia.
    + rewrite total_len_snoc. lia.
Qed.

Lemma flush_fits good :
  total_len good <= chunk_size ->
  flush chunk_size chunk_overlap good = emit (join_docs good).
Proof.
  intros H. unfold flush, merge_splits. destruct good as [|g good']; [reflexivity|].
  rewrite merge_loop_fits; [reflexivity | reflexivity |].
  unfold total_len at 1. simpl. exact H.
Qed.

Lemma split_loop_fits recurse :
  (forall f, recurse = Some f ->
             forall s, length s <= chunk_size -> f s = emit (join_docs [s])) ->
  forall splits good,
    (recurse = None -> Forall (fun s => length s < chunk_size) splits) ->
    Forall (fun s => nonempty s = true) splits ->
    Forall (fun s => nonempty s = true) good ->
    total_len good + total_len splits <= chunk_size ->
    split_loop chunk_size chunk_overlap recurse splits good
    = emit (join_docs (good ++ splits)).
Proof.
  intros Hrec. induction splits as [|s rest IH]; intros good Hsmall Hne Hgood Hfit.
  - simpl. rewrite app_nil_r. apply flush_fits.
    unfold total_len at 2 in Hfit. simpl in Hfit. lia.
  - cbn [split_loop]. rewrite total_len_cons in Hfit.
    inversion Hne as [|s' rest' Hs Hrest_ne]; subst s' rest'.
    assert (Hrest : recurse = None -> Forall (fun s => length s < chunk_size) rest).
    { intros E. specialize (Hsmall E). inversion Hsmall. assumption. }
    destruct (length s <? chunk_size) eqn:E.
    + rewrite IH.
      * rewrite <- app_assoc. reflexivity.
      * exact Hrest.
      * exact Hrest_ne.
      * apply Forall_app. split; [exact Hgood | constructor; [exact Hs | constructor]].
      * rewrite total_len_snoc. lia.
    + apply Nat.ltb_ge in E.
      assert (Hg : good = []) by (apply total_len_zero; [exact Hgood | lia]).
      assert (Hr : rest = []) by (apply total_len_zero; [exact Hrest_ne | lia]).
      subst good rest. cbn [split_loop flush app].
      destruct recurse as [f|].
      * rewrite (Hrec f eq_refl s) by lia. rewrite app_nil_r. reflexivity.
      * specialize (Hsmall eq_refl). inversion Hsmall. lia.
Qed.

(** A text no longer than the chunk size is one chunk. *)
Lemma _split_text_fits more :
  1 < chunk_size ->
  forall separator text,
    last (separator :: more) [] = [] ->
    length text <= chunk_size ->
    _split_text chunk_size chunk_overlap separator more text
    = emit (join_docs [text]).
Proof.
  intros Hsize.
  assert (Hend : forall sep text recurse,
             (forall f, recurse = Some f ->
                        forall s, length s <= chunk_size -> f s = emit (join_docs [s])) ->
             (recurse = None ->
              Forall (fun s => length s < chunk_size) (split_text_with_regex text sep)) ->
             length text <= chunk_size ->
             split_loop chunk_size chunk_overlap recurse
                        (split_text_with_regex text sep) []
             = emit (join_docs [text])).
  { intros sep text recurse Hrec Hsmall Hlen.
    rewrite (split_loop_fits recurse Hrec _ [] Hsmall
               (regex_pieces_nonempty text sep) (Forall_nil _)).
    - f_equal. apply join_docs_concat. simpl.
      rewrite split_text_with_regex_concat, app_nil_r. reflexivity.
    - unfold total_len. rewrite split_text_with_regex_concat. simpl. exact Hlen. }
  induction more as [|next more' IH]; intros separator text Hlast Hlen.
  - simpl in Hlast. subst separator. simpl.
    apply Hend; [discriminate | | exact Hlen].
    intros _. apply char_splits_small. exact Hsize.
  - destruct separator as [|x separator'].
    + simpl. apply Hend; [discriminate | | exact Hlen].
      intros _. apply char_splits_small. exact Hsize.
    + simpl.
      assert (Hlast' : last (next :: more') [] = []) by exact Hlast.
      destruct (contains (x :: separator') text).
      * apply Hend; [| discriminate | exact Hlen].
        intros f E s Hs. injection E as <-. exact (IH next s Hlast' Hs).
      * exact (IH next text Hlast' Hlen).
Qed.

(** What [_merge_splits] returns are stripped joins of windows. *)
Lemma merge_loop_joined (P : str -> Prop) :
  (forall docs c, In c (emit (join_docs docs)) -> P c) ->
  forall splits cur total c,
    In c (merge_loop chunk_size chunk_overlap splits cur total) -> P c.
Proof.
  intros HP. induction splits as [|d rest IH]; intros cur total c Hin; simpl in Hin.
  - exact (HP cur c Hin).
  - destruct (chunk_size <? total + length d).
    + destruct cur as [|x cur']; [exact (IH _ _ c Hin)|].
      destruct (pop_overlap chunk_size chunk_overlap (length d) (x :: cur') total)
        as [kept total'].
      apply in_app_or in Hin. destruct Hin as [Hin|Hin];
        [exact (HP _ c Hin) | exact (IH _ _ c Hin)].
    + exact (IH _ _ c Hin).
Qed.

Lemma split_loop_joined (P : str -> Prop) recurse :
  (forall docs c, In c (emit (join_docs docs)) -> P c) ->
  (forall f, recurse = Some f -> forall s c, In c (f s) -> P c) ->
  forall splits good c,
    (recurse = None -> Forall (fun s => length s < chunk_size) splits) ->
    In c (split_loop chunk_size chunk_overlap recurse splits good) -> P c.
Proof.
  intros HP Hrec.
  assert (Hflush : forall good c, In c (flush chunk_size chunk_overlap good) -> P c).
  { intros good c. unfold flush, merge_splits. destruct good; [intros []|].
    apply (merge_loop_joined P HP). }
  induction splits as [|s rest IH]; intros good c Hsmall Hin; simpl in Hin.
  - exact (Hflush good c Hin).
  - assert (Hrest : recurse = None -> Forall (fun s => length s < chunk_size) rest).
    { intros E. specialize (Hsmall E). inversion Hsmall. assumption. }
    destruct (length s <? chunk_size) eqn:E.
    + exact (IH _ c Hrest Hin).
    + apply Nat.ltb_ge in E.
      apply in_app_or in Hin. destruct Hin as [Hin|Hin]; [exact (Hflush good c Hin)|].
      apply in_app_or in Hin. destruct Hin as [Hin|Hin]; [|exact (IH _ c Hrest Hin)].
      destruct recurse as [f|]; [exact (Hrec f eq_refl s c Hin)|].
      specialize (Hsmall eq_refl). inversion Hsmall. lia.
Qed.

Lemma _split_text_joined (P : str -> Prop) more :
  1 < chunk_size ->
  (forall docs c, In c (emit (join_docs docs)) -> P c) ->
  forall separator text c,
    last (separator :: more) [] = [] ->
    In c (_split_text chunk_size chunk_overlap separator more text) -> P c.
Proof.
  intros Hsize HP.
  induction more as [|next more' IH]; intros separator text c Hlast Hin.
  - simpl in Hlast. subst separator. simpl in Hin.
    apply (split_loop_joined P None HP) in Hin; [exact Hin | discriminate |].
    intros _. apply char_splits_small. exact Hsize.
  - destruct separator as [|x separator'].
    + simpl in Hin.
      apply (split_loop_joined P None HP) in Hin; [exact Hin | discriminate |].
      intros _. apply char_splits_small. exact Hsize.
    + simpl in Hin.
      assert (Hlast' : last (next :: more') [] = []) by exact Hlast.
      destruct (contains (x :: separator') text).
      * apply (split_loop_joined P _ HP) in Hin; [exact Hin | | discriminate].
        intros f E s c' Hc. injection E as <-. exact (IH next s c' Hlast' Hc).
      * exact (IH next text c Hlast' Hin).
Qed.

End Shape.

Lemma emit_join_trimmed docs c :
  In c (emit (join_docs docs)) -> nonempty c = true /\ no_edge_space c = true.
Proof.
  unfold join_docs. pose proof (strip_no_edge_space (concat docs)) as H.
  destruct (strip (concat docs)) as [|x text]; simpl; [tauto|].
  intros [<-|[]]. split; [reflexivity | exact H].
Qed.

(** X11.  A document whose text has at most 1000 characters is not cut:
    [chunk_documents] returns it as one chunk, the text stripped of
    surrounding whitespace, with the document's metadata, and returns no
    chunk for it when the text is blank. *)
Theorem short_documents_are_single_chunks
  (Meta : Type) (documents : list (Document Meta)) :
  Forall (fun doc => length (page_content doc) <= 1000) documents ->
  chunk_documents documents = flat_map whole documents.
Proof.
  intros H. unfold chunk_documents, split_documents.
  induction H as [|doc docs Hdoc _ IH]; [reflexivity|].
  simpl. rewrite IH. f_equal.
  unfold split_text.
  rewrite (_split_text_fits 1000 200 [[nl]; [32%N]; []] ltac:(lia)
             [nl; nl] (page_content doc) eq_refl Hdoc).
  unfold whole, join_docs. simpl concat. rewrite app_nil_r.
  destruct (strip (page_content doc)); reflexivity.
Qed.

(** Two short documents, one of them blank. *)
Lemma short_documents_are_single_chunks_witness :
  chunk_documents
    [mkDocument ([32; nl] ++ of_string "Be kind." ++ [nl; nl]
                 ++ of_string "Be fair." ++ [nl])%N (of_string "conduct");
     mkDocument [nl; nl; 32]%N (of_string "blank")]
  = [mkDocument (of_string "Be kind." ++ [nl; nl] ++ of_string "Be fair.")
                (of_string "conduct")].
Proof.
  rewrite short_documents_are_single_chunks.
  - reflexivity.
  - repeat constructor; simpl; lia.
Defined.

(** X12.  No chunk that [chunk_documents] returns is empty, and none
    starts or ends with whitespace, whatever the documents. *)
Theorem chunks_are_trimmed (Meta : Type) (documents : list (Document Meta)) :
  Forall (fun chunk => nonempty (page_content chunk) = true
                       /\ no_edge_space (page_content chunk) = true)
         (chunk_documents documents).
Proof.
  apply Forall_forall. intros chunk Hin.
  unfold chunk_documents, split_documents in Hin.
  apply in_flat_map in Hin. destruct Hin as [doc [_ Hin]].
  apply in_map_iff in Hin. destruct Hin as [text [<- Htext]]. simpl.
  exact (_split_text_joined 1000 200 _ [[nl]; [32%N]; []] ltac:(lia)
           emit_join_trimmed [nl; nl] (page_content doc) text eq_refl Htext).
Qed.

End ChunkShapeFacts.

(* ===================================================================== *)
(** * Ingesting again *)
(* ===================================================================== *)

Module ReingestFacts.
Import PyStr Py PipelineB ChunkVocabulary IndexFacts.

Lemma copies_app {A} n m (l : list A) : copies (n + m) l = copies n l ++ copies m l.
Proof.
  induction n as [|n IH]; simpl; [reflexivity|].
  rewrite IH, app_assoc. reflexivity.
Qed.

Lemma shifted_seq (base : N) (from len : nat) :
  map (fun k => (base + N.of_nat from + N.of_nat k)%N) (seq 0 len)
  = map (fun k => (base + N.of_nat k)%N) (seq from len).
Proof.
  rewrite <- (seq_shift_add_0 from len), map_map.
  apply map_ext. intros k. lia.
Qed.

Lemma shifted_seq2 (base : N) (a b len : nat) :
  map (fun k => (base + N.of_nat a + N.of_nat b + N.of_nat k)%N) (seq 0 len)
  = map (fun k => (base + N.of_nat k)%N) (seq (a + b) len).
Proof.
  rewrite <- (seq_shift_add_0 (a + b) len), map_map.
  apply map_ext. intros k. lia.
Qed.

Section Reingest.

Variable Meta : Type.
Variable Emb : Type.
Variable embed : str -> option Emb.

Lemma add_chunks_run (chunks : list (Document Meta)) (embs : list Emb) coll next :
  chunks <> [] ->
  embed_documents embed (map page_content chunks) = Some embs ->
  add_chunks_to_vector_db embed chunks (mkChroma coll next)
  = (Ok tt,
     mkChroma ((coll ++ fresh_entries next chunks embs)
               ++ fresh_entries (next + N.of_nat (length chunks))%N chunks embs)
              (next + N.of_nat (length chunks) + N.of_nat (length chunks))%N).
Proof.
  intros Hne Hemb.
  assert (Hadd : forall coll0 next0,
             add_texts embed chunks (mkChroma coll0 next0)
             = (Ok tt, mkChroma (coll0 ++ fresh_entries next0 chunks embs)
                                (next0 + N.of_nat (length chunks))%N)).
  { intros coll0 next0. unfold add_texts. rewrite Hemb.
    destruct chunks; [congruence | reflexivity]. }
  assert (Hfrom : from_documents embed chunks = add_texts embed chunks)
    by (destruct chunks; [congruence | reflexivity]).
  unfold add_chunks_to_vector_db. rewrite StoreFacts.bind_run.
  rewrite Hfrom, Hadd. unfold add_documents. rewrite Hadd. reflexivity.
Qed.

Lemma ingest_times_run
  (chunks : list (Document Meta)) (embs : list Emb) (n : nat)
  (st : chroma Meta Emb) :
  chunks <> [] ->
  embed_documents embed (map page_content chunks) = Some embs ->
  exists st' added,
    ingest_times embed n chunks st = (Ok tt, st')
    /\ rag_exercise st' = rag_exercise st ++ added
    /\ map entry_pair added = copies (2 * n) (combine chunks embs)
    /\ map entry_id added
       = map (fun k => (next_uuid st + N.of_nat k)%N)
             (seq 0 (2 * n * length chunks))
    /\ next_uuid st' = (next_uuid st + N.of_nat (2 * n * length chunks))%N.
Proof.
  intros Hne Hemb.
  pose proof (embed_documents_length _ _ _ _ Hemb) as Hlen.
  rewrite length_map in Hlen.
  unfold ingest_times. revert st.
  induction n as [|n IH]; intros [coll next].
  - exists (mkChroma coll next), []. split; [reflexivity|]. simpl.
    rewrite app_nil_r, N.add_0_r. auto.
  - simpl repeat. cbn [for_each]. rewrite StoreFacts.bind_run.
    rewrite (add_chunks_run chunks embs coll next Hne Hemb).
    match goal with |- context [for_each _ _ ?st1] =>
      destruct (IH st1) as [st' [added [Hrun [Hcoll [Hpairs [Hids Hnext]]]]]]
    end.
    cbn [rag_exercise next_uuid] in *.
    exists st'.
    exists (fresh_entries next chunks embs
            ++ fresh_entries (next + N.of_nat (length chunks))%N chunks embs
            ++ added).
    split; [exact Hrun|]. split; [rewrite Hcoll, <- !app_assoc; reflexivity|].
    split; [|split].
    + rewrite !map_app, !fresh_entries_pairs, Hpairs.
      replace (2 * S n) with (2 + 2 * n) by lia.
      rewrite copies_app. simpl copies. rewrite app_nil_r, <- !app_assoc.
      reflexivity.
    + rewrite !map_app, !fresh_entries_ids, Hids by exact Hlen.
      replace (2 * S n * length chunks)
        with (length chunks + (length chunks + 2 * n * length chunks)) by lia.
      rewrite !seq_app, !map_app. simpl plus.
      rewrite (shifted_seq next (length chunks) (length chunks)).
      rewrite (shifted_seq2 next (length chunks) (length chunks)).
      reflexivity.
    + rewrite Hnext. lia.
Qed.

(** Ids counted up from [base] are distinct and not below [base]. *)
Lemma counted_ids_distinct (base : N) (len : nat) :
  NoDup (map (fun k => (base + N.of_nat k)%N) (seq 0 len)).
Proof.
  generalize 0 at 1. induction len as [|len IH]; intros from; simpl.
  - constructor.
  - constructor; [|apply IH].
    intros Hin. apply in_map_iff in Hin. destruct Hin as [k [E Hk]].
    apply in_seq in Hk. lia.
Qed.

Lemma counted_ids_range (base : N) (len : nat) (i : N) :
  In i (map (fun k => (base + N.of_nat k)%N) (seq 0 len)) ->
  (base <= i < base + N.of_nat len)%N.
Proof.
  intros Hin. apply in_map_iff in Hin. destruct Hin as [k [<- Hk]].
  apply in_seq in Hk. lia.
Qed.

(** X13.  Nothing in [add_chunks_to_vector_db] recognises chunks that
    are already in the collection: [n] runs on the same non-empty chunks,
    their texts embeddable, all return and leave in [rag_exercise] what
    was there followed by [2 * n] copies of the (chunk, embedding) pairs,
    under ids that differ from one another.  When every id in the
    collection had come from the source of fresh ids, no new entry has
    the id of an entry that was there, and this is so again afterwards. *)
Theorem ingesting_again_duplicates
  (chunks : list (Document Meta)) (embs : list Emb) (n : nat)
  (st : chroma Meta Emb) :
  chunks <> [] ->
  embed_documents embed (map page_content chunks) = Some embs ->
  exists st' added,
    ingest_times embed n chunks st = (Ok tt, st')
    /\ rag_exercise st' = rag_exercise st ++ added
    /\ map entry_pair added = copies (2 * n) (combine chunks embs)
    /\ map entry_id added
       = map (fun k => (next_uuid st + N.of_nat k)%N)
             (seq 0 (2 * n * length chunks))
    /\ next_uuid st' = (next_uuid st + N.of_nat (2 * n * length chunks))%N
    /\ NoDup (map entry_id added)
    /\ (ids_issued st ->
        Forall (fun e => ~ In (entry_id e) (map entry_id (rag_exercise st))) added
        /\ ids_issued st').
Proof.
  intros Hne Hemb.
  destruct (ingest_times_run chunks embs n st Hne Hemb)
    as [st' [added [Hrun [Hcoll [Hpairs [Hids Hnext]]]]]].
  exists st', added.
  repeat (split; [assumption|]).
  split.
  - rewrite Hids. apply counted_ids_distinct.
  - intros Hissued. unfold ids_issued in *.
    assert (Hrange : forall e, In e added ->
                               (next_uuid st <= entry_id e
                                < next_uuid st + N.of_nat (2 * n * length chunks))%N).
    { intros e He. apply counted_ids_range. rewrite <- Hids.
      apply in_map. exact He. }
    split.
    + apply Forall_forall. intros e He Hold.
      apply in_map_iff in Hold. destruct Hold as [e0 [E He0]].
      rewrite Forall_forall in Hissued. specialize (Hissued e0 He0).
      specialize (Hrange e He). lia.
    + rewrite Hcoll, Hnext. apply Forall_app. split.
      * eapply Forall_impl; [|exact Hissued]. simpl. intros e He. lia.
      * apply Forall_forall. intros e He. specialize (Hrange e He). lia.
Qed.

End Reingest.

(** Two runs on two chunks, into an empty collection. *)
Lemma ingesting_again_duplicates_witness :
  let embed := fun t : str => Some (N.of_nat (length t)) in
  let a := mkDocument (of_string "alpha") (of_string "handbook") in
  let b := mkDocument (of_string "be") (of_string "handbook") in
  exists st',
    ingest_times embed 2 [a; b] (mkChroma [] 0%N) = (Ok tt, st')
    /\ map entry_pair (rag_exercise st')
       = [(a, 5%N); (b, 2%N); (a, 5%N); (b, 2%N);
          (a, 5%N); (b, 2%N); (a, 5%N); (b, 2%N)]
    /\ map entry_id (rag_exercise st') = [0; 1; 2; 3; 4; 5; 6; 7]%N.
Proof.
  intros embed a b.
  destruct (ingesting_again_duplicates str N embed [a; b] [5; 2]%N 2 (mkChroma [] 0%N))
    as [st' [added [Hrun [Hcoll [Hpairs [Hids _]]]]]];
    [discriminate | reflexivity |].
  exists st'. split; [exact Hrun|]. rewrite Hcoll. simpl app.
  split; [exact Hpairs | exact Hids].
Defined.

End ReingestFacts.

(* ===================================================================== *)
(** * Loading the documents *)
(* ===================================================================== *)

Module LoaderFacts.
Import PyStr PyStrFacts PipelineB Loader.

(** ** Splitting at the first separator *)

Lemma split_from_first sep base :
  sep <> [] ->
  forall cur rest,
    none_begins_in sep base (sep ++ rest) ->
    split_from sep cur (base ++ sep ++ rest)
    = (rev cur ++ base) :: split_from sep [] rest.
Proof.
  intros Hsep. induction base as [|b base IH]; intros cur rest Hnone.
  - destruct sep as [|c sep']; [congruence|].
    simpl app. rewrite split_from_cons.
    assert (E : startswith (c :: sep') (c :: sep' ++ rest) = true).
    { apply startswith_app. exists rest. reflexivity. }
    rewrite E, app_nil_r. f_equal.
    replace (length (c :: sep') - 1) with (length sep') by (simpl; lia).
    rewrite skipn_app, skipn_all, Nat.sub_diag. reflexivity.
  - simpl app. rewrite split_from_cons.
    assert (E : startswith sep (b :: base ++ sep ++ rest) = false).
    { apply (Hnone [] (b :: base)); [reflexivity | discriminate]. }
    rewrite E. rewrite IH.
    + simpl. rewrite <- app_assoc. reflexivity.
    + intros a x Hax Hx. apply (Hnone (b :: a) x); [|exact Hx].
      simpl. rewrite Hax. reflexivity.
Qed.

Lemma split_first sep base rest :
  sep <> [] ->
  none_begins_in sep base (sep ++ rest) ->
  split sep (base ++ sep ++ rest) = base :: split sep rest.
Proof.
  intros Hsep Hnone. unfold split.
  rewrite split_from_first by assumption. reflexivity.
Qed.

Lemma split_from_absent sep s :
  ~ occurs sep s -> forall cur, split_from sep cur s = [rev cur ++ s].
Proof.
  induction s as [|c s IH]; intros Hno cur.
  - rewrite split_from_nil, app_nil_r. reflexivity.
  - rewrite split_from_cons.
    destruct (startswith sep (c :: s)) eqn:E.
    + exfalso. apply Hno. apply startswith_app in E. destruct E as [t Ht].
      exists [], t. exact Ht.
    + rewrite IH.
      * simpl. rewrite <- app_assoc. reflexivity.
      * intros [a [b Hab]]. apply Hno. exists (c :: a), b.
        simpl. rewrite Hab. reflexivity.
Qed.

Lemma split_absent sep s : ~ occurs sep s -> split sep s = [s].
Proof. intros H. unfold split. rewrite split_from_absent by exact H. reflexivity. Qed.

Lemma occurs_char c s : occurs [c] s <-> In c s.
Proof.
  split.
  - intros [a [b ->]]. apply in_or_app. right. left. reflexivity.
  - intros H. apply in_split in H. destruct H as [a [b ->]]. exists a, b. reflexivity.
Qed.

Lemma none_begins_without_char c s rest :
  ~ In c s -> none_begins_in [c] s rest.
Proof.
  intros Hno a b Hab Hb. destruct b as [|x b']; [congruence|].
  simpl. destruct (N.eqb_spec c x) as [->|Hne]; [|reflexivity].
  exfalso. apply Hno. rewrite Hab. apply in_or_app. right. left. reflexivity.
Qed.

Ltac peel_startswith E :=
  change (of_string "/pages/") with [47; 112; 97; 103; 101; 115; 47]%N in E;
  cbn [startswith app] in E;
  repeat (let H := fresh "Hc" in
          apply andb_true_iff in E; destruct E as [H E];
          apply N.eqb_eq in H; try discriminate H).

(** If [/pages] does not occur in [base], then the first [/pages/] of
    [base ++ "/pages/" ++ rest] is the one shown. *)
(** The substring test of the splitter decides [occurs]. *)
Lemma not_contains_not_occurs sep s :
  TextSplitter.contains sep s = false -> ~ occurs sep s.
Proof.
  intros Hc [a [b ->]]. revert Hc.
  induction a as [|x a IH]; intros Hc.
  - assert (E : startswith sep (sep ++ b) = true).
    { apply PyStrFacts.startswith_app. exists b. reflexivity. }
    destruct sep as [|y sep']; simpl in Hc, E.
    + destruct b; discriminate Hc.
    + rewrite E in Hc. discriminate Hc.
  - simpl in Hc. apply orb_false_iff in Hc. destruct Hc as [_ Hc].
    apply IH. exact Hc.
Qed.

Lemma first_pages base rest :
  ~ occurs (of_string "/pages") base ->
  none_begins_in (of_string "/pages/") base (of_string "/pages/" ++ rest).
Proof.
  intros Hno a b Hab Hb.
  destruct (startswith (of_string "/pages/") (b ++ of_string "/pages/" ++ rest)) eqn:E;
    [|reflexivity].
  exfalso.
  destruct b as [|c1 b]; [congruence|].
  destruct b as [|c2 b]; [peel_startswith E|].
  destruct b as [|c3 b]; [peel_startswith E|].
  destruct b as [|c4 b]; [peel_startswith E|].
  destruct b as [|c5 b]; [peel_startswith E|].
  destruct b as [|c6 b]; [peel_startswith E|].
  peel_startswith E. subst.
  apply Hno. exists a, b. reflexivity.
Qed.

(** A collected prefix only lengthens the first piece. *)
Lemma split_from_cur sep s :
  forall cur,
    split_from sep cur s
    = match split_from sep [] s with
      | x :: xs => (rev cur ++ x) :: xs
      | [] => []
      end.
Proof.
  induction s as [|c s IH]; intros cur.
  - rewrite !split_from_nil. simpl. rewrite app_nil_r. reflexivity.
  - rewrite !split_from_cons.
    destruct (startswith sep (c :: s)).
    + simpl. rewrite app_nil_r. reflexivity.
    + rewrite (IH (c :: cur)), (IH [c]).
      destruct (split_from sep [] s) as [|x xs]; [reflexivity|].
      simpl. rewrite <- app_assoc. reflexivity.
Qed.

Lemma split_from_prefix sep p :
  forall cur s,
    none_begins_in sep p s ->
    split_from sep cur (p ++ s) = split_from sep (rev p ++ cur) s.
Proof.
  induction p as [|b p IH]; intros cur s Hnone; [reflexivity|].
  simpl app. rewrite split_from_cons.
  assert (E : startswith sep (b :: p ++ s) = false).
  { apply (Hnone [] (b :: p)); [reflexivity | discriminate]. }
  rewrite E, IH.
  - simpl. rewrite <- app_assoc. reflexivity.
  - intros a x Hax Hx. apply (Hnone (b :: a) x); [|exact Hx].
    simpl. rewrite Hax. reflexivity.
Qed.

(** The first piece of a split begins with any prefix in which the
    separator does not begin, and goes on as the first piece of the
    rest. *)
Lemma split_head_prefix sep p s :
  none_begins_in sep p s ->
  hd [] (split sep (p ++ s)) = p ++ hd [] (split sep s).
Proof.
  intros Hnone. unfold split.
  rewrite split_from_prefix by exact Hnone.
  rewrite split_from_cur, app_nil_r, rev_involutive.
  pose proof (split_from_nonempty sep [] s) as Hne.
  destruct (split_from sep [] s); [congruence | reflexivity].
Qed.

Lemma split_head_after_slash sep t :
  hd [] (split sep (47%N :: t)) = []
  \/ exists x, hd [] (split sep (47%N :: t)) = 47%N :: x.
Proof.
  unfold split. rewrite split_from_cons.
  match goal with |- context [if ?b then _ else _] => destruct b end;
    [left; reflexivity|].
  right. rewrite split_from_cur.
  pose proof (split_from_nonempty sep [] t) as Hne.
  destruct (split_from sep [] t) as [|x xs]; [congruence|].
  exists x. reflexivity.
Qed.

Lemma slash_sep_nonempty : of_string "/" <> [].
Proof. discriminate. Qed.

Lemma pages_sep_nonempty : of_string "/pages/" <> [].
Proof. discriminate. Qed.

Lemma pages_not_in_id page_id rest :
  ~ In 47%N page_id -> none_begins_in (of_string "/pages/") page_id rest.
Proof.
  intros Hno a b Hab Hb. destruct b as [|x b']; [congruence|].
  change (of_string "/pages/") with [47; 112; 97; 103; 101; 115; 47]%N.
  cbn [app startswith]. destruct (N.eqb_spec 47 x) as [<-|Hne]; [|reflexivity].
  exfalso. apply Hno. rewrite Hab. apply in_or_app. right. left. reflexivity.
Qed.

(** X14.  The page id that [load_documents] takes from
    [CODE_OF_CONDUCT_URL]: an unset variable raises [AttributeError] and
    a URL without [/pages/] raises [IndexError] (both are caught by the
    Confluence [try]); for a URL [base/pages/ID] or [base/pages/ID/...],
    with no [/pages] in [base] and no slash in [ID], the page id is [ID];
    and a page id returned never holds a slash. *)
Theorem page_id_of_url_spec :
  page_id_of_url None = Raised AttributeError
  /\ (forall url,
        ~ occurs (of_string "/pages/") url ->
        page_id_of_url (Some url) = Raised IndexError)
  /\ (forall base page_id tail : str,
        ~ occurs (of_string "/pages") base ->
        ~ In 47%N page_id ->
        tail = [] \/ (exists t, tail = 47%N :: t) ->
        page_id_of_url (Some (base ++ of_string "/pages/" ++ page_id ++ tail))
        = Returned page_id)
  /\ (forall url page_id,
        page_id_of_url (Some url) = Returned page_id -> ~ In 47%N page_id).
Proof.
  split; [reflexivity|]. split; [|split].
  - intros url Hno. unfold page_id_of_url.
    rewrite (split_absent _ _ Hno). reflexivity.
  - intros base page_id tail Hbase Hid Htail. unfold page_id_of_url.
    rewrite (split_first _ base (page_id ++ tail) pages_sep_nonempty
               (first_pages base (page_id ++ tail) Hbase)).
    pose proof (split_head_prefix (of_string "/pages/") page_id tail
                  (pages_not_in_id page_id tail Hid)) as Hhead.
    pose proof (split_from_nonempty (of_string "/pages/") [] (page_id ++ tail)) as Hne.
    unfold split in *. revert Hhead Hne.
    destruct (split_from (of_string "/pages/") [] (page_id ++ tail))
      as [|second others]; intros Hhead Hne; [congruence|].
    cbn [hd] in Hhead. subst second.
    assert (Hfirst : hd [] (split_from (of_string "/") []
                              (page_id ++ hd [] (split_from (of_string "/pages/") [] tail)))
                     = page_id).
    { destruct Htail as [->|[t ->]].
      - rewrite split_from_nil. simpl hd. rewrite app_nil_r.
        rewrite split_from_absent; [reflexivity|].
        intros Hocc. apply Hid. apply (occurs_char 47%N). exact Hocc.
      - destruct (split_head_after_slash (of_string "/pages/") t) as [E|[x E]];
          unfold split in E; rewrite E.
        + rewrite app_nil_r. rewrite split_from_absent; [reflexivity|].
          intros Hocc. apply Hid. apply (occurs_char 47%N). exact Hocc.
        + change (page_id ++ 47%N :: x) with (page_id ++ of_string "/" ++ x).
          rewrite split_from_first; [reflexivity | exact slash_sep_nonempty |].
          apply (none_begins_without_char 47%N). exact Hid. }
    pose proof (split_from_nonempty (of_string "/") []
                  (page_id ++ hd [] (split_from (of_string "/pages/") [] tail))) as Hne2.
    revert Hfirst Hne2.
    destruct (split_from (of_string "/") []
                (page_id ++ hd [] (split_from (of_string "/pages/") [] tail)))
      as [|first rest]; intros Hfirst Hne2; [congruence|].
    cbn [hd] in Hfirst. subst first. reflexivity.
  - intros url page_id. unfold page_id_of_url.
    destruct (split (of_string "/pages/") url) as [|p0 [|second others]];
      try discriminate.
    pose proof (split_pieces_free (of_string "/") second slash_sep_nonempty) as Hfree.
    destruct (split (of_string "/") second) as [|first rest]; [discriminate|].
    intros E. injection E as <-.
    inversion Hfree as [|x l Hx _]; subst.
    intros Hin. apply Hx. apply (occurs_char 47%N). exact Hin.
Qed.

(** A Confluence page URL. *)
Lemma page_id_of_url_spec_witness :
  page_id_of_url
    (Some (of_string "https://acme.atlassian.net/wiki/spaces/HR/pages/123456/Code+of+Conduct"))
  = Returned (of_string "123456")
  /\ page_id_of_url (Some (of_string "https://acme.atlassian.net/wiki/home"))
     = Raised IndexError.
Proof.
  destruct page_id_of_url_spec as (_ & Habsent & Hid & _).
  split.
  - apply (Hid (of_string "https://acme.atlassian.net/wiki/spaces/HR")
               (of_string "123456") (of_string "/Code+of+Conduct")).
    + apply not_contains_not_occurs. vm_compute. reflexivity.
    + vm_compute. intuition discriminate.
    + right. eexists. reflexivity.
  - apply Habsent. apply not_contains_not_occurs. vm_compute. reflexivity.
Defined.

(** ** Metadata *)

Lemma str_eqb_refl k : str_eqb k k = true.
Proof. apply PyStrFacts.str_eqb_eq. reflexivity. Qed.

Lemma str_eqb_neq a b : a <> b -> str_eqb a b = false.
Proof.
  intros Hne. destruct (str_eqb a b) eqn:E; [|reflexivity].
  apply PyStrFacts.str_eqb_eq in E. contradiction.
Qed.

Lemma dict_get_set_same k v d : dict_get k (dict_set k v d) = Some v.
Proof.
  induction d as [|[k' v'] d IH]; simpl.
  - rewrite str_eqb_refl. reflexivity.
  - destruct (str_eqb k k') eqn:E; simpl.
    + rewrite str_eqb_refl. reflexivity.
    + rewrite E. exact IH.
Qed.

Lemma dict_get_set_other k k' v d :
  str_eqb k k' = false -> dict_get k (dict_set k' v d) = dict_get k d.
Proof.
  intros Hne. induction d as [|[k'' v''] d IH]; simpl.
  - rewrite Hne. reflexivity.
  - destruct (str_eqb k' k'') eqn:E; simpl.
    + apply PyStrFacts.str_eqb_eq in E. subst k''. rewrite Hne. reflexivity.
    + rewrite IH. reflexivity.
Qed.

Lemma tag_manual_tagged file_name doc_id mime_type doc :
  tagged_for doc_id (tag_manual file_name doc_id mime_type doc).
Proof.
  unfold tagged_for, tag_manual. cbn [metadata dict_update].
  split; [|split; [|split]].
  - rewrite dict_get_set_other by reflexivity.
    apply dict_get_set_same.
  - rewrite !dict_get_set_other by reflexivity.
    apply dict_get_set_same.
  - exists file_name. rewrite !dict_get_set_other by reflexivity.
    apply dict_get_set_same.
  - exists mime_type. apply dict_get_set_same.
Qed.

(** X19.  What [doc.metadata.update({...})] of the fallback does to a
    loaded document: the keys [title], [id], [source] and [mime_type]
    read back as the file name, the Drive id, ['google_drive_manual'] and
    the MIME type, whatever the loader had put there; every other key
    reads as before, and the text is untouched. *)
Theorem tag_manual_metadata :
  forall file_name doc_id mime_type doc,
    let tagged := tag_manual file_name doc_id mime_type doc in
    dict_get (of_string "title") (metadata tagged) = Some (PyStr file_name)
    /\ dict_get (of_string "id") (metadata tagged) = Some (env_value doc_id)
    /\ dict_get (of_string "source") (metadata tagged)
       = Some (PyStr (of_string "google_drive_manual"))
    /\ dict_get (of_string "mime_type") (metadata tagged) = Some (PyStr mime_type)
    /\ (forall k,
          k <> of_string "title" -> k <> of_string "id" ->
          k <> of_string "source" -> k <> of_string "mime_type" ->
          dict_get k (metadata tagged) = dict_get k (metadata doc))
    /\ page_content tagged = page_content doc.
Proof.
  intros file_name doc_id mime_type doc tagged. subst tagged.
  unfold tag_manual. cbn [metadata page_content dict_update].
  repeat split.
  - rewrite !dict_get_set_other by reflexivity. apply dict_get_set_same.
  - rewrite !dict_get_set_other by reflexivity. apply dict_get_set_same.
  - rewrite dict_get_set_other by reflexivity. apply dict_get_set_same.
  - apply dict_get_set_same.
  - intros k H1 H2 H3 H4.
    rewrite !dict_get_set_other by (apply str_eqb_neq; assumption).
    reflexivity.
Qed.

(** ** The blocks of [load_documents] *)

Section LoadFacts.

Variable CODE_OF_CONDUCT_URL : option str.
Variable ANTI_HARASSMENT_FILE_ID : option str.
Variable NOMINATION_GUIDELINE_DOC_ID : option str.
Variable confluence_load : str -> option (list Doc).
Variable google_load : list (option str) -> option (list Doc).
Variable imports_ok : bool.
Variable drive_service : bool.
Variable files_get : option str -> option file_info.
Variable get_media : option str -> option str.
Variable temp_file : str -> str -> list str -> temp_outcome.
Variable pdf_load : str -> str -> option (list Doc).
Variable docx_load : str -> str -> option (list Doc).

Local Abbreviation the_ids :=
  (doc_ids ANTI_HARASSMENT_FILE_ID NOMINATION_GUIDELINE_DOC_ID).
Local Abbreviation the_confluence_docs :=
  (confluence_docs CODE_OF_CONDUCT_URL confluence_load).
Local Abbreviation manually :=
  (load_manually files_get get_media temp_file pdf_load docx_load).
Local Abbreviation fallback :=
  (manual_fallback ANTI_HARASSMENT_FILE_ID NOMINATION_GUIDELINE_DOC_ID
     imports_ok drive_service files_get get_media temp_file pdf_load docx_load).
Local Abbreviation google :=
  (load_google ANTI_HARASSMENT_FILE_ID NOMINATION_GUIDELINE_DOC_ID google_load
     imports_ok drive_service files_get get_media temp_file pdf_load docx_load).
Local Abbreviation load :=
  (load_documents CODE_OF_CONDUCT_URL ANTI_HARASSMENT_FILE_ID
     NOMINATION_GUIDELINE_DOC_ID confluence_load google_load imports_ok
     drive_service files_get get_media temp_file pdf_load docx_load).

Lemma state_eta st : mkState (documents st ++ []) (temp_files st) = st.
Proof. destruct st. simpl. rewrite app_nil_r. reflexivity. Qed.

(** The Confluence block never raises and adds [confluence_docs]. *)
Lemma load_confluence_run st :
  load_confluence CODE_OF_CONDUCT_URL confluence_load st
  = (Returned tt, mkState (documents st ++ the_confluence_docs) (temp_files st)).
Proof.
  unfold load_confluence, confluence_docs, ltry, lbind, call.
  destruct (page_id_of_url CODE_OF_CONDUCT_URL) as [page_id|e].
  - destruct (confluence_load page_id) as [docs|].
    + reflexivity.
    + unfold lraise, lret. rewrite state_eta. reflexivity.
  - unfold lret. rewrite state_eta. reflexivity.
Qed.

(** What one download through a temporary file leaves. *)
Lemma load_through_temp_effect suffix loader doc_id file_name mime_type st :
  exists r added temps',
    load_through_temp get_media temp_file suffix loader doc_id file_name mime_type st
    = (r, mkState (documents st ++ added) temps')
    /\ Forall (tagged_for doc_id) added
    /\ (writes_complete temp_file -> forall p, In p temps' -> In p (temp_files st)).
Proof.
  unfold load_through_temp, lbind, call.
  destruct (get_media doc_id) as [content|].
  2:{ exists (Raised ApiError), [], (temp_files st).
      unfold lraise. rewrite state_eta. auto. }
  unfold lret, write_temp.
  destruct (temp_file suffix content (temp_files st)) as [path| |path] eqn:Etemp.
  - unfold lfinally.
    destruct (loader path content) as [docs|].
    + exists (Returned tt), (map (tag_manual file_name doc_id mime_type) docs),
        (filter (fun p => negb (str_eqb p path)) (path :: temp_files st)).
      split; [reflexivity|]. split.
      * apply Forall_forall. intros d Hd. apply in_map_iff in Hd.
        destruct Hd as [d0 [<- _]]. apply tag_manual_tagged.
      * intros _ p Hp. apply filter_In in Hp. destruct Hp as [[<-|Hp] Hneq].
        -- rewrite str_eqb_refl in Hneq. discriminate Hneq.
        -- exact Hp.
    + exists (Raised LoaderError), [],
        (filter (fun p => negb (str_eqb p path)) (path :: temp_files st)).
      split; [|split; [constructor|]].
      * unfold lraise, unlink. simpl documents. rewrite app_nil_r. reflexivity.
      * intros _ p Hp. apply filter_In in Hp. destruct Hp as [[<-|Hp] Hneq].
        -- rewrite str_eqb_refl in Hneq. discriminate Hneq.
        -- exact Hp.
  - exists (Raised OSError), [], (temp_files st).
    rewrite state_eta. auto.
  - exists (Raised OSError), [], (path :: temp_files st).
    rewrite app_nil_r. split; [reflexivity|]. split; [constructor|].
    intros Hw. exfalso. exact (Hw _ _ _ _ Etemp).
Qed.

(** The body of the loop never raises. *)
Lemma load_manually_effect doc_id st :
  exists added temps',
    manually doc_id st = (Returned tt, mkState (documents st ++ added) temps')
    /\ Forall (tagged_for doc_id) added
    /\ (writes_complete temp_file -> forall p, In p temps' -> In p (temp_files st)).
Proof.
  assert (Hnothing : exists added temps',
             (Returned tt, st) = (Returned tt, mkState (documents st ++ added) temps')
             /\ Forall (tagged_for doc_id) added
             /\ (writes_complete temp_file ->
                 forall p, In p temps' -> In p (temp_files st))).
  { exists [], (temp_files st). rewrite state_eta. auto. }
  assert (Hthrough : forall suffix loader file_name mime_type,
             exists added temps',
               match load_through_temp get_media temp_file suffix loader doc_id
                       file_name mime_type st with
               | (Returned a, st') => (Returned a, st')
               | (Raised e, st') => lret tt st'
               end = (Returned tt, mkState (documents st ++ added) temps')
               /\ Forall (tagged_for doc_id) added
               /\ (writes_complete temp_file ->
                   forall p, In p temps' -> In p (temp_files st))).
  { intros suffix loader file_name mime_type.
    destruct (load_through_temp_effect suffix loader doc_id file_name mime_type st)
      as (r & added & temps' & E & Htag & Htemps).
    exists added, temps'. rewrite E.
    destruct r as [[]|e]; unfold lret; auto. }
  unfold load_manually, ltry, lbind, call.
  destruct (files_get doc_id) as [info|]; [|exact Hnothing].
  unfold lret at 1.
  destruct (TextSplitter.contains (of_string "pdf")
              (get_default (info_mime info) [])).
  - apply Hthrough.
  - destruct (TextSplitter.contains (of_string "wordprocessingml")
                (get_default (info_mime info) [])
              || TextSplitter.contains (of_string "document")
                   (get_default (info_mime info) [])).
    + apply Hthrough.
    + exact Hnothing.
Qed.

Lemma lfor_manually_effect ids :
  forall st,
    exists added temps',
      lfor ids manually st = (Returned tt, mkState (documents st ++ added) temps')
      /\ Forall (fun d => exists i, In i ids /\ tagged_for i d) added
      /\ (writes_complete temp_file -> forall p, In p temps' -> In p (temp_files st)).
Proof.
  induction ids as [|i ids IH]; intros st.
  - exists [], (temp_files st). simpl. unfold lret. rewrite state_eta. auto.
  - cbn [lfor]. unfold lbind.
    destruct (load_manually_effect i st) as (a1 & t1 & E1 & Htag1 & Htemps1).
    rewrite E1.
    destruct (IH (mkState (documents st ++ a1) t1)) as (a2 & t2 & E2 & Htag2 & Htemps2).
    exists (a1 ++ a2), t2. rewrite E2. cbn [documents temp_files] in *.
    rewrite app_assoc. split; [reflexivity|]. split.
    + apply Forall_app. split.
      * eapply Forall_impl; [|exact Htag1]. intros d Hd. exists i. split; [left; reflexivity|exact Hd].
      * eapply Forall_impl; [|exact Htag2]. intros d [j [Hj Hd]]. exists j. split; [right; exact Hj|exact Hd].
    + intros Hw p Hp. apply (Htemps1 Hw). apply (Htemps2 Hw). exact Hp.
Qed.

Lemma tagged_for_one_of_two d :
  (exists i, In i the_ids /\ tagged_for i d) ->
  manually_tagged ANTI_HARASSMENT_FILE_ID NOMINATION_GUIDELINE_DOC_ID d.
Proof.
  intros [i [Hi (Hsrc & Hid & Htitle & Hmime)]].
  unfold manually_tagged. split; [exact Hsrc|]. split; [|split; assumption].
  destruct Hi as [<-|[<-|[]]]; [left|right]; exact Hid.
Qed.

(** The fallback once its imports have succeeded. *)
Lemma manual_fallback_effect st :
  imports_ok = true ->
  exists added temps',
    fallback st = (Returned tt, mkState (documents st ++ added) temps')
    /\ Forall (manually_tagged ANTI_HARASSMENT_FILE_ID NOMINATION_GUIDELINE_DOC_ID) added
    /\ (writes_complete temp_file -> forall p, In p temps' -> In p (temp_files st))
    /\ (drive_service = false -> added = [] /\ temps' = temp_files st).
Proof.
  intros Himp. unfold manual_fallback. rewrite Himp. unfold ltry.
  destruct drive_service.
  - destruct (lfor_manually_effect the_ids st) as (added & temps' & E & Htag & Htemps).
    exists added, temps'. rewrite E. split; [reflexivity|]. split; [|split].
    + eapply Forall_impl; [|exact Htag]. intros d. apply tagged_for_one_of_two.
    + exact Htemps.
    + discriminate.
  - exists [], (temp_files st). unfold lraise, lret. rewrite state_eta.
    repeat split; auto.
Qed.

Lemma load_google_loaded st docs :
  google_load the_ids = Some docs ->
  google st = (Returned tt, mkState (documents st ++ docs) (temp_files st)).
Proof.
  intros E. unfold load_google, ltry, lbind, call. rewrite E. reflexivity.
Qed.

Lemma load_google_failed st :
  google_load the_ids = None -> google st = fallback st.
Proof.
  intros E. unfold load_google, ltry, lbind, call. rewrite E. reflexivity.
Qed.

Lemma load_documents_unfold temps :
  load temps
  = match google (mkState the_confluence_docs temps) with
    | (Returned _, st) => (Returned (documents st), temp_files st)
    | (Raised e, st) => (Raised e, temp_files st)
    end.
Proof.
  unfold load_documents, lbind. rewrite load_confluence_run. reflexivity.
Qed.

(** X15.  When [GoogleDriveLoader] loads, [load_documents] returns what
    the Confluence block gave (nothing when the URL is unset, has no page
    id or the page does not load) followed by the Drive documents, and
    leaves the temporary files as they were. *)
Theorem drive_loader_result temps google_docs :
  google_load (doc_ids ANTI_HARASSMENT_FILE_ID NOMINATION_GUIDELINE_DOC_ID) = Some google_docs ->
  load_documents CODE_OF_CONDUCT_URL ANTI_HARASSMENT_FILE_ID
    NOMINATION_GUIDELINE_DOC_ID confluence_load google_load imports_ok
    drive_service files_get get_media temp_file pdf_load docx_load temps
  = (Returned (confluence_docs CODE_OF_CONDUCT_URL confluence_load ++ google_docs), temps).
Proof.
  intros E. rewrite load_documents_unfold, (load_google_loaded _ _ E).
  reflexivity.
Qed.

(** X16.  When [GoogleDriveLoader] fails and the imports of the fallback
    succeed, [load_documents] returns: the Confluence documents, then
    documents each tagged ['google_drive_manual'] with one of the two
    Drive ids, a title and a MIME type.  Without a Drive service there
    are none of the latter and no temporary file is touched. *)
Theorem fallback_documents_are_tagged temps :
  google_load (doc_ids ANTI_HARASSMENT_FILE_ID NOMINATION_GUIDELINE_DOC_ID) = None ->
  imports_ok = true ->
  exists manual temps',
    load_documents CODE_OF_CONDUCT_URL ANTI_HARASSMENT_FILE_ID
      NOMINATION_GUIDELINE_DOC_ID confluence_load google_load imports_ok
      drive_service files_get get_media temp_file pdf_load docx_load temps
    = (Returned (confluence_docs CODE_OF_CONDUCT_URL confluence_load ++ manual), temps')
    /\ Forall (manually_tagged ANTI_HARASSMENT_FILE_ID NOMINATION_GUIDELINE_DOC_ID)
         manual
    /\ (drive_service = false -> manual = [] /\ temps' = temps).
Proof.
  intros E Himp. rewrite load_documents_unfold, (load_google_failed _ E).
  destruct (manual_fallback_effect (mkState the_confluence_docs temps) Himp)
    as (added & temps' & Erun & Htag & _ & Hnone).
  exists added, temps'. rewrite Erun. auto.
Qed.

(** X17.  The only exception that leaves [load_documents] is the
    [ImportError] of the fallback's imports, and it leaves exactly when
    [GoogleDriveLoader] has failed and the imports fail: no failure of
    Confluence, of the Drive API, of a download or of a file loader
    does. *)
Theorem load_documents_raises_iff temps e :
  fst (load_documents CODE_OF_CONDUCT_URL ANTI_HARASSMENT_FILE_ID
         NOMINATION_GUIDELINE_DOC_ID confluence_load google_load imports_ok
         drive_service files_get get_media temp_file pdf_load docx_load temps)
  = Raised e
  <-> e = ImportError
      /\ google_load (doc_ids ANTI_HARASSMENT_FILE_ID NOMINATION_GUIDELINE_DOC_ID) = None
      /\ imports_ok = false.
Proof.
  rewrite load_documents_unfold. split.
  - destruct (google_load the_ids) as [docs|] eqn:E.
    + rewrite (load_google_loaded _ _ E). discriminate.
    + rewrite (load_google_failed _ E).
      destruct (Bool.bool_dec imports_ok true) as [Himp|Himp];
        [|apply not_true_is_false in Himp].
      * destruct (manual_fallback_effect (mkState the_confluence_docs temps) Himp)
          as (added & temps' & Erun & _).
        rewrite Erun. discriminate.
      * unfold manual_fallback. rewrite Himp. unfold lraise. simpl.
        intros H. injection H as <-. auto.
  - intros (-> & E & Himp). rewrite (load_google_failed _ E).
    unfold manual_fallback. rewrite Himp. reflexivity.
Qed.

(** X18.  As long as no write of a temporary file fails half-way,
    [load_documents] leaves no temporary file behind: every temporary
    file that exists when it ends, whether it returns or raises, existed
    before. *)
Theorem temp_files_are_removed temps p :
  writes_complete temp_file ->
  In p (snd (load_documents CODE_OF_CONDUCT_URL ANTI_HARASSMENT_FILE_ID
               NOMINATION_GUIDELINE_DOC_ID confluence_load google_load imports_ok
               drive_service files_get get_media temp_file pdf_load docx_load temps)) ->
  In p temps.
Proof.
  intros Hw. rewrite load_documents_unfold.
  destruct (google_load the_ids) as [docs|] eqn:E.
  - rewrite (load_google_loaded _ _ E). simpl. auto.
  - rewrite (load_google_failed _ E).
    destruct (Bool.bool_dec imports_ok true) as [Himp|Himp];
      [|apply not_true_is_false in Himp].
    + destruct (manual_fallback_effect (mkState the_confluence_docs temps) Himp)
        as (added & temps' & Erun & _ & Htemps & _).
      rewrite Erun. simpl. apply (Htemps Hw).
    + unfold manual_fallback. rewrite Himp. simpl. auto.
Qed.

End LoadFacts.

(** The Confluence URL is unset and [GoogleDriveLoader] returns one
    document. *)
Lemma drive_loader_result_witness :
  load_documents None (Some (of_string "a1")) (Some (of_string "n1"))
    (fun _ => None)
    (fun _ => Some [(mkDocument (of_string "policy") [] : Doc)])
    true true (fun _ => None) (fun _ => None) (fun _ _ _ => CreateFails)
    (fun _ _ => None) (fun _ _ => None) []
  = (Returned (confluence_docs None (fun _ => None)
               ++ [(mkDocument (of_string "policy") [] : Doc)]), []).
Proof.
  apply (drive_loader_result None (Some (of_string "a1")) (Some (of_string "n1"))
           (fun _ => None)
           (fun _ => Some [(mkDocument (of_string "policy") [] : Doc)])
           true true (fun _ => None) (fun _ => None) (fun _ _ _ => CreateFails)
           (fun _ _ => None) (fun _ _ => None) []).
  reflexivity.
Defined.

(** [GoogleDriveLoader] fails and both files are PDFs fetched by hand. *)
Lemma fallback_documents_are_tagged_witness :
  exists manual temps',
    load_documents None (Some (of_string "a1")) (Some (of_string "n1"))
      (fun _ => None) (fun _ => None) true true
      (fun _ => Some (mkFileInfo (Some (of_string "policy.pdf"))
                        (Some (of_string "application/pdf"))))
      (fun _ => Some (of_string "%PDF"))
      (fun _ _ _ => Written (of_string "/tmp/tmp1.pdf"))
      (fun _ _ => Some [(mkDocument (of_string "text") [] : Doc)])
      (fun _ _ => None) []
    = (Returned (confluence_docs None (fun _ => None) ++ manual), temps')
    /\ Forall (manually_tagged (Some (of_string "a1")) (Some (of_string "n1"))) manual
    /\ (true = false -> manual = [] /\ temps' = []).
Proof.
  apply (fallback_documents_are_tagged None (Some (of_string "a1"))
           (Some (of_string "n1")) (fun _ => None) (fun _ => None) true true
           (fun _ => Some (mkFileInfo (Some (of_string "policy.pdf"))
                             (Some (of_string "application/pdf"))))
           (fun _ => Some (of_string "%PDF"))
           (fun _ _ _ => Written (of_string "/tmp/tmp1.pdf"))
           (fun _ _ => Some [(mkDocument (of_string "text") [] : Doc)])
           (fun _ _ => None) []).
  - reflexivity.
  - reflexivity.
Defined.

(** Both files are fetched by hand through a temporary file while another
    temporary file exists. *)
Lemma temp_files_are_removed_witness :
  writes_complete (fun _ _ _ => Written (of_string "/tmp/tmp1.pdf"))
  /\ In (of_string "/tmp/old")
       (snd (load_documents None (Some (of_string "a1")) (Some (of_string "n1"))
               (fun _ => None) (fun _ => None) true true
               (fun _ => Some (mkFileInfo (Some (of_string "policy.pdf"))
                                 (Some (of_string "application/pdf"))))
               (fun _ => Some (of_string "%PDF"))
               (fun _ _ _ => Written (of_string "/tmp/tmp1.pdf"))
               (fun _ _ => Some [(mkDocument (of_string "text") [] : Doc)])
               (fun _ _ => None) [of_string "/tmp/old"]))
  /\ In (of_string "/tmp/old") [of_string "/tmp/old"].
Proof.
  assert (Hw : writes_complete (fun _ _ _ => Written (of_string "/tmp/tmp1.pdf"))).
  { intros suffix content temps path. discriminate. }
  assert (Hin : In (of_string "/tmp/old")
       (snd (load_documents None (Some (of_string "a1")) (Some (of_string "n1"))
               (fun _ => None) (fun _ => None) true true
               (fun _ => Some (mkFileInfo (Some (of_string "policy.pdf"))
                                 (Some (of_string "application/pdf"))))
               (fun _ => Some (of_string "%PDF"))
               (fun _ _ _ => Written (of_string "/tmp/tmp1.pdf"))
               (fun _ _ => Some [(mkDocument (of_string "text") [] : Doc)])
               (fun _ _ => None) [of_string "/tmp/old"]))).
  { vm_compute. left. reflexivity. }
  split; [exact Hw|]. split; [exact Hin|].
  exact (temp_files_are_removed None (Some (of_string "a1")) (Some (of_string "n1"))
           (fun _ => None) (fun _ => None) true true
           (fun _ => Some (mkFileInfo (Some (of_string "policy.pdf"))
                             (Some (of_string "application/pdf"))))
           (fun _ => Some (of_string "%PDF"))
           (fun _ _ _ => Written (of_string "/tmp/tmp1.pdf"))
           (fun _ _ => Some [(mkDocument (of_string "text") [] : Doc)])
           (fun _ _ => None) [of_string "/tmp/old"] (of_string "/tmp/old") Hw Hin).
Defined.

End LoaderFacts.
